(** * Financial-Administrative-System: the skeleton of [main.py]

    [main.py] declares a storage interface, a server with its request
    handler, a client and a text UI, every method of which raises
    [NotImplementedError], and a command-line entry point built on
    [argparse].  This development embeds

    - the Python values, exceptions and objects the program manipulates,
    - the part of CPython 3.11's [argparse] that [parse_args] drives
      (option recognition with abbreviations, the pattern matching of
      [_parse_known_args], sub-parsers, [type=int]), and
    - the program itself, as computations over an explicit world (heap of
      instances, call trace, [sys.argv]),

    and proves the properties claimed of it.

    Conventions.  A Python [str] is a Rocq [string] holding its UTF-8
    encoding.  [int] and argparse's negative-number pattern are modelled
    on ASCII strings ([is_ascii]); where a statement depends on what they
    make of a text, the text is ASCII by hypothesis, or by what the
    hypotheses say of it ([py_int_ascii], [negative_number_ascii]).  The
    interpreter is taken with standard streams that take what argparse
    writes to them: what is printed (usage, help) is not modelled, the exit
    that follows is. *)

From Stdlib Require Import ZArith String Ascii PrimFloat Lia.
From stdpp Require Import gmap strings list.

Local Open Scope string_scope.
Local Open Scope list_scope.
Local Open Scope nat_scope.

(** ** Python values and exceptions *)

Abbreviation loc := nat.

(** A [pathlib.Path] with a final component: the directory parts and the
    name. *)
Record Path := { parent : list string; name : string }.

(** [Path.with_name]: same directory, the final component replaced. *)
Definition with_name (p : Path) (n : string) : Path :=
  {| parent := parent p; name := n |}.

#[local] Set Warnings "-register-all".

Inductive value :=
| VNone
| VInt (n : Z)
| VFloat (f : float)
| VStr (s : string)
| VList (l : list value)
| VPath (p : Path)
| VRef (l : loc).

Inductive exn :=
| NotImplementedError (args : option string)
| SystemExit (code : Z)
| ArgumentError (message : string)
| AttributeError (attr : string)
| IndexError
| KeyError
| ValueError
| TypeError.

Inductive outcome (A : Type) :=
| Return (a : A)
| Raise (e : exn).
Arguments Return {A} a.
Arguments Raise {A} e.

#[global] Instance outcome_ret : MRet outcome := @Return.
#[global] Instance outcome_bind : MBind outcome := λ A B f m,
  match m with
  | Return a => f a
  | Raise e => Raise e
  end.

(** [v == s] for a string literal [s]. *)
Definition value_eq_str (v : value) (s : string) : bool :=
  match v with
  | VStr s' => String.eqb s' s
  | _ => false
  end.

(** ** Strings *)

Definition startswith (s p : string) : bool := String.prefix p s.

Fixpoint contains (c : ascii) (s : string) : bool :=
  match s with
  | EmptyString => false
  | String c' s' => if Ascii.eqb c' c then true else contains c s'
  end.

(** [s.split(c, 1)] when [c] occurs in [s]: the text before and after the
    first [c]. *)
Fixpoint split1 (c : ascii) (s : string) : option (string * string) :=
  match s with
  | EmptyString => None
  | String c' s' =>
      if Ascii.eqb c' c then Some (EmptyString, s')
      else match split1 c s' with
           | Some (a, b) => Some (String c' a, b)
           | None => None
           end
  end.

Definition is_digit (c : ascii) : bool :=
  let n := nat_of_ascii c in (48 <=? n)%nat && (n <=? 57)%nat.

Definition digit_value (c : ascii) : Z := Z.of_nat (nat_of_ascii c) - 48.

(** The white space [int] skips in an ASCII string: tab, newline, vertical
    tab, form feed, carriage return and space. *)
Definition is_space (c : ascii) : bool :=
  let n := nat_of_ascii c in
  ((9 <=? n)%nat && (n <=? 13)%nat) || (n =? 32)%nat.

Fixpoint lstrip (s : string) : string :=
  match s with
  | String c s' => if is_space c then lstrip s' else s
  | EmptyString => EmptyString
  end.

Fixpoint all_space (s : string) : bool :=
  match s with
  | String c s' => is_space c && all_space s'
  | EmptyString => true
  end.

(** Digits of a decimal literal: single underscores may separate digits;
    white space may follow the last digit.  Returns the number and how
    many digits were read. *)
Fixpoint int_digits (s : string) (prev_digit : bool) (acc : Z) (count : nat)
  : option (Z * nat) :=
  match s with
  | EmptyString => if prev_digit then Some (acc, count) else None
  | String c s' =>
      if is_digit c then int_digits s' true (10 * acc + digit_value c)%Z (S count)
      else if Ascii.eqb c "_" then
        if prev_digit then int_digits s' false acc count else None
      else if is_space c && prev_digit && all_space s' then Some (acc, count)
      else None
  end.

(** [sys.get_int_max_str_digits()], the default of CPython 3.11.  The
    limit can be set, to 0 (none) or to
    [sys.int_info.str_digits_check_threshold] and more: a string no longer
    than the threshold ([short]) is converted the same way under every
    setting. *)
Definition int_max_str_digits : nat := 4300.

Definition str_digits_check_threshold : nat := 640.

Definition short (s : string) : bool :=
  (String.length s <=? str_digits_check_threshold)%nat.

(** ASCII strings: the strings on which [py_int] below and argparse's
    negative-number pattern are what Python computes. *)
Fixpoint is_ascii (s : string) : bool :=
  match s with
  | EmptyString => true
  | String c s' => (nat_of_ascii c <? 128)%nat && is_ascii s'
  end.

(** [int(s)] for an ASCII [str], under the default digit limit: [None]
    stands for the [ValueError].  (On other strings [int] also takes the
    decimal digits and the white space of other scripts.) *)
Definition py_int (s : string) : option Z :=
  let s := lstrip s in
  let '(sign, body) :=
    match s with
    | String "-" s' => ((-1)%Z, s')
    | String "+" s' => (1%Z, s')
    | _ => (1%Z, s)
    end in
  match int_digits body false 0%Z 0 with
  | Some (n, count) =>
      if (int_max_str_digits <? count)%nat then None else Some (sign * n)%Z
  | None => None
  end.

(** ** The argparse library (CPython 3.11), as far as [parse_args] uses it *)

Module argparse.

Abbreviation Namespace := (gmap string value).

(** The [nargs] of an action: [None] (one argument), an integer, or
    [PARSER] (["A..."], the sub-command and all that follows). *)
Inductive Nargs := NargsNone | NargsInt (n : nat) | PARSER.

(** An [Action]; [dest] and [default] are [None] for [SUPPRESS], [type]
    answers [None] where the conversion raises [ValueError], and [call] is
    [__call__(parser, namespace, values, option_string)]. *)
Record Action := {
  option_strings : list string;
  dest : option string;
  nargs : Nargs;
  default : option value;
  type : string → option value;
  choices : option (list string);
  required : bool;
  call : Namespace → value → outcome Namespace;
}.

(** A parser with the default [prefix_chars='-'], [allow_abbrev=True] and
    [exit_on_error=True], no mutually exclusive groups. *)
Record ArgumentParser := { _actions : list Action }.

(** Actions are compared by identity: an action is referred to together
    with its position in [_actions]. *)
Abbreviation ActionRef := (nat * Action)%type.

Definition indexed_actions (p : ArgumentParser) : list ActionRef :=
  imap pair (_actions p).

Definition _option_string_actions (p : ArgumentParser) : list (string * ActionRef) :=
  flat_map (λ ia : ActionRef, map (λ s, (s, ia)) (option_strings ia.2))
           (indexed_actions p).

Fixpoint lookup_str {A} (k : string) (l : list (string * A)) : option A :=
  match l with
  | [] => None
  | (k', a) :: l' => if String.eqb k' k then Some a else lookup_str k l'
  end.

Definition _get_optional_actions (p : ArgumentParser) : list ActionRef :=
  filter (λ ia : ActionRef, option_strings ia.2 ≠ []) (indexed_actions p).

Definition _get_positional_actions (p : ArgumentParser) : list ActionRef :=
  filter (λ ia : ActionRef, option_strings ia.2 = []) (indexed_actions p).

(** [parser.error(message)]: usage and message go to stderr, then
    [exit(2)]. *)
Definition error {A} (message : string) : outcome A := Raise (SystemExit 2).

(** *** Recognising option strings *)

Fixpoint span_digits (s : string) : nat * string :=
  match s with
  | String c s' =>
      if is_digit c then let '(n, r) := span_digits s' in (S n, r) else (0, s)
  | EmptyString => (0, s)
  end.

(** [$]: at the end, or before a final newline. *)
Definition at_end (s : string) : bool :=
  match s with
  | EmptyString => true
  | String c EmptyString => Ascii.eqb c "010"
  | _ => false
  end.

(** [re.compile(r'^-\d+$|^-\d*\.\d+$').match] on an ASCII string
    ([\d] also matches the decimal digits of other scripts). *)
Definition _negative_number_matcher (s : string) : bool :=
  match s with
  | String "-" r =>
      let '(n, r1) := span_digits r in
      ((0 <? n)%nat && at_end r1)
      || match r1 with
         | String "." r2 =>
             let '(m, r3) := span_digits r2 in (0 <? m)%nat && at_end r3
         | _ => false
         end
  | _ => false
  end.

Definition _has_negative_number_optionals (p : ArgumentParser) : bool :=
  existsb (λ sa : string * ActionRef, _negative_number_matcher sa.1)
          (_option_string_actions p).

(** (action, option_string, explicit_arg) *)
Abbreviation option_tuple := (option ActionRef * string * option string)%type.

Definition is_prefix_char (c : ascii) : bool := Ascii.eqb c "-".

Definition _get_option_tuples (p : ArgumentParser) (option_string : string)
  : outcome (list option_tuple) :=
  match option_string with
  | String c0 (String c1 short_explicit_arg) =>
      if is_prefix_char c0 && is_prefix_char c1 then
        let '(option_prefix, explicit_arg) :=
          match split1 "=" option_string with
          | Some (a, b) => (a, Some b)
          | None => (option_string, None)
          end in
        Return (omap (λ '(s, action),
                      if startswith s option_prefix
                      then Some (Some action, s, explicit_arg) else None)
                     (_option_string_actions p))
      else if is_prefix_char c0 && negb (is_prefix_char c1) then
        let option_prefix := option_string in
        let short_option_prefix := String c0 (String c1 EmptyString) in
        Return (omap (λ '(s, action),
                      if String.eqb s short_option_prefix
                      then Some (Some action, s, Some short_explicit_arg)
                      else if startswith s option_prefix
                      then Some (Some action, s, None) else None)
                     (_option_string_actions p))
      else error "unexpected option string"
  | _ => Raise IndexError
  end.

(** [None] for a positional; an option tuple whose action is [None] for a
    string that looks like an option this parser does not have. *)
Definition _parse_optional (p : ArgumentParser) (arg_string : string)
  : outcome (option option_tuple) :=
  match arg_string with
  | EmptyString => Return None
  | String c0 _ =>
      if negb (is_prefix_char c0) then Return None
      else
        match lookup_str arg_string (_option_string_actions p) with
        | Some action => Return (Some (Some action, arg_string, None))
        | None =>
            if (String.length arg_string =? 1)%nat then Return None
            else
              let with_equals :=
                match split1 "=" arg_string with
                | Some (option_string, explicit_arg) =>
                    match lookup_str option_string (_option_string_actions p) with
                    | Some action =>
                        Some (Some action, option_string, Some explicit_arg)
                    | None => None
                    end
                | None => None
                end in
              match with_equals with
              | Some t => Return (Some t)
              | None =>
                  option_tuples ← _get_option_tuples p arg_string;
                  match option_tuples with
                  | _ :: _ :: _ => error "ambiguous option"
                  | [t] => Return (Some t)
                  | [] =>
                      if _negative_number_matcher arg_string
                         && negb (_has_negative_number_optionals p)
                      then Return None
                      else if contains " " arg_string then Return None
                      else Return (Some (None, arg_string, None))
                  end
              end
        end
  end.

(** *** The pattern of an argument list and the [nargs] patterns *)

(** ['O'] an option, ['A'] an argument, ['-'] the ["--"] separator. *)
Inductive pat := pO | pA | pDash.

Definition pat_eqb (a b : pat) : bool :=
  match a, b with
  | pO, pO | pA, pA | pDash, pDash => true
  | _, _ => false
  end.

Definition in_class (c : pat) (cls : list pat) : bool := existsb (pat_eqb c) cls.

(** The regular expressions of [_get_nargs_pattern]: a group is a
    sequence of atoms, a character class once or starred. *)
Inductive atom := One (cls : list pat) | Star (cls : list pat).

(** Greedy matching with backtracking, as [re.match] does: [k] receives
    the number of characters taken so far and the rest of the input.  A
    starred class takes as many characters as it can and gives them back
    one at a time while what follows fails. *)
Fixpoint match_star {B} (cls : list pat) (s : list pat) (n : nat)
    (k : nat → list pat → option B) : option B :=
  match s with
  | c :: s' =>
      if in_class c cls then
        match match_star cls s' (S n) k with
        | Some b => Some b
        | None => k n s
        end
      else k n s
  | [] => k n []
  end.

Fixpoint match_atoms {B} (r : list atom) (s : list pat) (n : nat)
    (k : nat → list pat → option B) : option B :=
  match r with
  | [] => k n s
  | One cls :: r' =>
      match s with
      | c :: s' => if in_class c cls then match_atoms r' s' (S n) k else None
      | [] => None
      end
  | Star cls :: r' => match_star cls s n (λ n' s', match_atoms r' s' n' k)
  end.

(** [re.match] of the concatenated groups: the length of each group. *)
Fixpoint match_groups (gs : list (list atom)) (s : list pat) : option (list nat) :=
  match gs with
  | [] => Some []
  | g :: gs' => match_atoms g s 0 (λ n rest, cons n <$> match_groups gs' rest)
  end.

Definition is_star_dash (a : atom) : bool :=
  match a with
  | Star [pDash] => true
  | _ => false
  end.

Definition without_dash (a : atom) : atom :=
  let keep := filter (λ c, pat_eqb c pDash = false) in
  match a with
  | One cls => One (keep cls)
  | Star cls => Star (keep cls)
  end.

Definition _get_nargs_pattern (action : Action) : list atom :=
  let nargs_pattern :=
    match nargs action with
    | NargsNone => [Star [pDash]; One [pA]; Star [pDash]]
    | PARSER => [Star [pDash]; One [pA]; Star [pDash; pA; pO]]
    | NargsInt n =>
        Star [pDash] :: flat_map (λ _, [One [pA]; Star [pDash]]) (seq 0 n)
        ++ match n with 0 => [Star [pDash]] | _ => [] end
    end in
  match option_strings action with
  | [] => nargs_pattern
  | _ => map without_dash (filter (λ a, is_star_dash a = false) nargs_pattern)
  end.

Definition _match_argument (action : Action) (arg_strings_pattern : list pat)
  : outcome nat :=
  match match_groups [_get_nargs_pattern action] arg_strings_pattern with
  | Some [n] => Return n
  | _ =>
      Raise (ArgumentError
               match nargs action with
               | NargsNone => "expected one argument"
               | _ => "expected %s arguments"
               end)
  end.

(** The longest prefix of [actions] whose patterns match. *)
Fixpoint _match_arguments_partial_upto (i : nat) (actions : list ActionRef)
    (arg_strings_pattern : list pat) : list nat :=
  match i with
  | 0 => []
  | S i' =>
      match match_groups (map (λ ia : ActionRef, _get_nargs_pattern ia.2)
                              (take i actions)) arg_strings_pattern with
      | Some counts => counts
      | None => _match_arguments_partial_upto i' actions arg_strings_pattern
      end
  end.

Definition _match_arguments_partial (actions : list ActionRef)
    (arg_strings_pattern : list pat) : list nat :=
  _match_arguments_partial_upto (length actions) actions arg_strings_pattern.

(** *** Converting argument strings *)

Definition _get_value (action : Action) (arg_string : string) : outcome value :=
  match type action arg_string with
  | Some v => Return v
  | None => Raise (ArgumentError "invalid value")
  end.

Definition _check_value (action : Action) (v : value) : outcome unit :=
  match choices action with
  | Some names =>
      if match v with
         | VStr s => existsb (String.eqb s) names
         | _ => false
         end
      then Return tt
      else Raise (ArgumentError "invalid choice")
  | None => Return tt
  end.

(** [list.remove]: without the first occurrence, if any. *)
Fixpoint remove_first (x : string) (l : list string) : list string :=
  match l with
  | [] => []
  | y :: l' => if String.eqb y x then l' else y :: remove_first x l'
  end.

Definition _get_values (action : Action) (arg_strings : list string)
  : outcome value :=
  let arg_strings :=
    match nargs action with
    | PARSER => arg_strings
    | _ => remove_first "--" arg_strings
    end in
  match nargs action, arg_strings with
  | NargsNone, [arg_string] =>
      v ← _get_value action arg_string;
      _check_value action v;;
      Return v
  | PARSER, _ =>
      vs ← mapM (_get_value action) arg_strings;
      match vs with
      | v0 :: _ => _check_value action v0;; Return (VList vs)
      | [] => Raise IndexError
      end
  | _, _ =>
      vs ← mapM (_get_value action) arg_strings;
      mapM (_check_value action) vs;;
      Return (VList vs)
  end.

(** *** [_parse_known_args] *)

Abbreviation token := (pat * option option_tuple)%type.

(** The first loop of [_parse_known_args]: every string up to ["--"] goes
    through [_parse_optional]; all that follows ["--"] is an argument. *)
Fixpoint classify (p : ArgumentParser) (arg_strings : list string)
  : outcome (list token) :=
  match arg_strings with
  | [] => Return []
  | arg_string :: rest =>
      if String.eqb arg_string "--" then
        Return ((pDash, None) :: map (λ _, (pA, None)) rest)
      else
        option_tuple ← _parse_optional p arg_string;
        tokens ← classify p rest;
        Return (match option_tuple with
                | None => (pA, None)
                | Some t => (pO, Some t)
                end :: tokens)
  end.

(** What the closures of [_parse_known_args] update. *)
Record state := {
  namespace : Namespace;
  extras : list value;
  seen_actions : list nat;
  positionals : list ActionRef;
}.

Definition set_namespace (st : state) (ns : Namespace) : state :=
  {| namespace := ns; extras := extras st;
     seen_actions := seen_actions st; positionals := positionals st |}.
Definition add_extras (st : state) (strings : list string) : state :=
  {| namespace := namespace st; extras := extras st ++ map VStr strings;
     seen_actions := seen_actions st; positionals := positionals st |}.
Definition add_seen (st : state) (i : nat) : state :=
  {| namespace := namespace st; extras := extras st;
     seen_actions := i :: seen_actions st; positionals := positionals st |}.
Definition set_positionals (st : state) (l : list ActionRef) : state :=
  {| namespace := namespace st; extras := extras st;
     seen_actions := seen_actions st; positionals := l |}.

Abbreviation action_tuple := (ActionRef * list string * string)%type.

Definition second_is_prefix_char (option_string : string) : bool :=
  match option_string with
  | String _ (String c1 _) => is_prefix_char c1
  | _ => false
  end.

Definition first_char (s : string) : ascii :=
  match s with
  | String c _ => c
  | EmptyString => "-"
  end.

Section closures.
Context (p : ArgumentParser) (arg_strings : list string) (tokens : list token).

Definition arg_strings_pattern : list pat := map fst tokens.

Definition option_string_indices : list (nat * option_tuple) :=
  omap (λ it : nat * token, pair it.1 <$> it.2.2) (imap pair tokens).

Definition option_tuple_at (i : nat) : option option_tuple :=
  tokens !! i ≫= snd.

Definition take_action (st : state) (action : ActionRef)
    (argument_strings : list string) : outcome state :=
  let st := add_seen st action.1 in
  argument_values ← _get_values action.2 argument_strings;
  ns ← call action.2 (namespace st) argument_values;
  Return (set_namespace st ns).

Fixpoint take_actions (st : state) (action_tuples : list action_tuple)
  : outcome state :=
  match action_tuples with
  | [] => Return st
  | (action, args, _) :: rest =>
      st ← take_action st action args;
      take_actions st rest
  end.

(** The branch of [consume_optional] without an explicit argument: the
    option's arguments are the strings that follow. *)
Definition match_following (start_index : nat) (action : ActionRef)
    (option_string : string) (action_tuples : list action_tuple)
  : outcome (list action_tuple * nat) :=
  let start := S start_index in
  arg_count ← _match_argument action.2 (drop start arg_strings_pattern);
  let stop := start + arg_count in
  let args := take arg_count (drop start arg_strings) in
  Return (action_tuples ++ [(action, args, option_string)], stop).

(** The branch with an explicit argument ([--opt=arg], [-xarg]); a
    single-dash option without arguments hands the rest of the string on
    to the next single-dash option ([-xyz]). *)
Fixpoint match_explicit (start_index : nat) (action : ActionRef)
    (option_string explicit_arg : string) (action_tuples : list action_tuple)
  : outcome (list action_tuple * nat) :=
  arg_count ← _match_argument action.2 [pA];
  match explicit_arg with
  | String c new_explicit_arg =>
      if (arg_count =? 0)%nat && negb (second_is_prefix_char option_string) then
        let action_tuples := action_tuples ++ [(action, [], option_string)] in
        let option_string :=
          String (first_char option_string) (String c EmptyString) in
        match lookup_str option_string (_option_string_actions p) with
        | Some action =>
            match new_explicit_arg with
            | EmptyString =>
                match_following start_index action option_string action_tuples
            | _ =>
                match_explicit start_index action option_string
                               new_explicit_arg action_tuples
            end
        | None => Raise (ArgumentError "ignored explicit argument")
        end
      else if (arg_count =? 1)%nat then
        Return (action_tuples ++ [(action, [explicit_arg], option_string)],
                S start_index)
      else Raise (ArgumentError "ignored explicit argument")
  | EmptyString =>
      if (arg_count =? 1)%nat then
        Return (action_tuples ++ [(action, [explicit_arg], option_string)],
                S start_index)
      else Raise (ArgumentError "ignored explicit argument")
  end.

Definition consume_optional (st : state) (start_index : nat)
  : outcome (state * nat) :=
  match option_tuple_at start_index with
  | None => Raise KeyError
  | Some (None, _, _) =>
      Return (add_extras st (take 1 (drop start_index arg_strings)),
              S start_index)
  | Some (Some action, option_string, explicit_arg) =>
      '(action_tuples, stop) ←
        match explicit_arg with
        | Some explicit_arg =>
            match_explicit start_index action option_string explicit_arg []
        | None => match_following start_index action option_string []
        end;
      st ← take_actions st action_tuples;
      Return (st, stop)
  end.

Fixpoint consume_each (st : state) (start_index : nat)
    (matched : list (ActionRef * nat)) : outcome (state * nat) :=
  match matched with
  | [] => Return (st, start_index)
  | (action, arg_count) :: rest =>
      let args := take arg_count (drop start_index arg_strings) in
      let start_index := start_index + arg_count in
      st ← take_action st action args;
      consume_each st start_index rest
  end.

Definition consume_positionals (st : state) (start_index : nat)
  : outcome (state * nat) :=
  let selected_pattern := drop start_index arg_strings_pattern in
  let arg_counts := _match_arguments_partial (positionals st) selected_pattern in
  '(st, start_index) ←
    consume_each st start_index (zip (positionals st) arg_counts);
  Return (set_positionals st (drop (length arg_counts) (positionals st)),
          start_index).

Definition max_option_string_index : Z :=
  foldr (λ it : nat * option_tuple, Z.max (Z.of_nat it.1)) (-1)%Z
        option_string_indices.

(** [min(index for index in option_string_indices if index >= start_index)] *)
Definition next_option_string_index (start_index : nat) : outcome nat :=
  match filter (λ i : nat, (start_index ≤ i)%nat) (map fst option_string_indices) with
  | [] => Raise ValueError
  | i :: rest => Return (foldr Nat.min i rest)
  end.

(** The loop that consumes positionals and optionals alternately.  Each
    round moves [start_index] forward, so [length arg_strings] rounds
    are enough ([consume_loop_fuel] below). *)
Fixpoint consume_loop (fuel : nat) (st : state) (start_index : nat)
  : outcome (state * nat) :=
  if (Z.of_nat start_index <=? max_option_string_index)%Z then
    match fuel with
    | 0 => Return (st, start_index)
    | S fuel =>
        next_option_string_index ← next_option_string_index start_index;
        '(st, start_index, continue) ←
          (if bool_decide (start_index ≠ next_option_string_index) then
             '(st, positionals_end_index) ← consume_positionals st start_index;
             Return (st, positionals_end_index,
                     bool_decide (start_index < positionals_end_index)%nat)
           else Return (st, start_index, false));
        if continue : bool then consume_loop fuel st start_index
        else
          let '(st, start_index) :=
            match option_tuple_at start_index with
            | None =>
                (add_extras st
                   (take (next_option_string_index - start_index)
                         (drop start_index arg_strings)),
                 next_option_string_index)
            | Some _ => (st, start_index)
            end in
          '(st, start_index) ← consume_optional st start_index;
          consume_loop fuel st start_index
    end
  else Return (st, start_index).

(** After the loops: required actions that were not seen are reported,
    and a string default that is still in the namespace goes through
    the action's [type]. *)
Fixpoint check_required (actions : list ActionRef) (seen : list nat)
    (ns : Namespace) : outcome (list nat * Namespace) :=
  match actions with
  | [] => Return ([], ns)
  | (i, action) :: rest =>
      if bool_decide (i ∈ seen) then check_required rest seen ns
      else if required action then
        '(required_actions, ns) ← check_required rest seen ns;
        Return (i :: required_actions, ns)
      else
        ns ← match default action, dest action with
             | Some (VStr s), Some d =>
                 match ns !! d with
                 | Some v =>
                     if value_eq_str v s then
                       v ← _get_value action s; Return (<[d := v]> ns)
                     else Return ns
                 | None => Return ns
                 end
             | _, _ => Return ns
             end;
        check_required rest seen ns
  end.
End closures.

Definition _parse_known_args (p : ArgumentParser) (arg_strings : list string)
    (ns : Namespace) : outcome (Namespace * list value) :=
  tokens ← classify p arg_strings;
  let st :=
    {| namespace := ns; extras := []; seen_actions := [];
       positionals := _get_positional_actions p |} in
  '(st, start_index) ← consume_loop p arg_strings tokens (length arg_strings) st 0;
  '(st, stop_index) ← consume_positionals arg_strings tokens st start_index;
  let st := add_extras st (drop stop_index arg_strings) in
  '(required_actions, ns) ←
    check_required (indexed_actions p) (seen_actions st) (namespace st);
  match required_actions with
  | _ :: _ => error "the following arguments are required"
  | [] => Return (ns, extras st)
  end.

Definition _UNRECOGNIZED_ARGS_ATTR : string := "_unrecognized_args".

(** The namespace [parse_known_args] starts from: the defaults of the
    actions that have a destination. *)
Definition default_namespace (p : ArgumentParser) : Namespace :=
  foldl (λ (ns : Namespace) action,
           match dest action, default action with
           | Some d, Some v =>
               match ns !! d with
               | None => <[d := v]> ns
               | Some _ => ns
               end
           | _, _ => ns
           end) ∅ (_actions p).

(** [parse_known_args(args, None)]: a fresh namespace with the defaults;
    an [ArgumentError] becomes [parser.error]; what a sub-parser did not
    recognise joins the extras. *)
Definition parse_known_args (p : ArgumentParser) (args : list string)
  : outcome (Namespace * list value) :=
  let ns := default_namespace p in
  '(ns, args) ←
    match _parse_known_args p args ns with
    | Raise (ArgumentError message) => error message
    | r => r
    end;
  match ns !! _UNRECOGNIZED_ARGS_ATTR with
  | Some (VList l) => Return (delete _UNRECOGNIZED_ARGS_ATTR ns, args ++ l)
  | Some _ => Raise TypeError
  | None => Return (ns, args)
  end.

(** [parser.parse_args(args)]; [args=None] stands for [sys.argv[1:]]. *)
Definition parse_args (p : ArgumentParser) (sys_argv : list string)
    (args : option (list string)) : outcome Namespace :=
  let args :=
    match args with
    | None => tail sys_argv
    | Some args => args
    end in
  '(args, argv) ← parse_known_args p args;
  match argv with
  | _ :: _ => error "unrecognized arguments"
  | [] => Return args
  end.

(** *** The actions and the construction of parsers *)

(** [-h], [--help]: prints the help and calls [parser.exit()]. *)
Definition _HelpAction : Action :=
  {| option_strings := ["-h"; "--help"]; dest := None; nargs := NargsInt 0;
     default := None; type := λ s, Some (VStr s); choices := None;
     required := false;
     call := λ _ _, Raise (SystemExit 0) |}.

Definition _StoreAction (option_strings : list string) (dest : string)
    (type : string → option value) (default : value) : Action :=
  {| option_strings := option_strings; dest := Some dest; nargs := NargsNone;
     default := Some default; type := type; choices := None;
     required := false;
     call := λ ns values, Return (<[dest := values]> ns) |}.

Fixpoint strings_of (vs : list value) : outcome (list string) :=
  match vs with
  | [] => Return []
  | VStr s :: vs' => l ← strings_of vs'; Return (s :: l)
  | _ :: _ => Raise TypeError
  end.

(** The action [add_subparsers] creates; its call selects the parser of
    the sub-command, lets it parse the remaining strings into a namespace
    of its own and copies that namespace over. *)
Definition _SubParsersAction (dest : option string) (required : bool)
    (_name_parser_map : list (string * ArgumentParser)) : Action :=
  {| option_strings := []; dest := dest; nargs := PARSER;
     default := Some VNone; type := λ s, Some (VStr s);
     choices := Some (map fst _name_parser_map);
     required := required;
     call := λ ns values,
       match values with
       | VList (parser_name :: arg_strings) =>
           let ns : Namespace :=
             match dest with
             | Some d => <[d := parser_name]> ns
             | None => ns
             end in
           match match parser_name with
                 | VStr n => lookup_str n _name_parser_map
                 | _ => None
                 end with
           | None => Raise (ArgumentError "unknown parser")
           | Some parser =>
               arg_strings ← strings_of arg_strings;
               '(subnamespace, arg_strings) ← parse_known_args parser arg_strings;
               let ns : Namespace := subnamespace ∪ ns in
               match arg_strings with
               | [] => Return ns
               | _ :: _ =>
                   match ns !! _UNRECOGNIZED_ARGS_ATTR with
                   | None =>
                       Return (<[_UNRECOGNIZED_ARGS_ATTR := VList arg_strings]> ns)
                   | Some (VList l) =>
                       Return (<[_UNRECOGNIZED_ARGS_ATTR := VList (l ++ arg_strings)]> ns)
                   | Some _ => Raise (AttributeError "extend")
                   end
               end
           end
       | VList [] => Raise IndexError
       | _ => Raise TypeError
       end |}.

(** The parser [ArgumentParser.__init__] sets up, with the default
    [add_help=True]. *)
Definition ArgumentParser_new : ArgumentParser :=
  {| _actions := [_HelpAction] |}.

(** [ArgumentParser(...)] without [prog]: the constructor takes the
    program name from [sys.argv[0]], an [IndexError] when [sys.argv] is
    empty. *)
Definition ArgumentParser_init (sys_argv : list string) : outcome ArgumentParser :=
  match sys_argv with
  | [] => Raise IndexError
  | _ :: _ => Return ArgumentParser_new
  end.

Fixpoint lstrip_prefix_chars (s : string) : string :=
  match s with
  | String c s' => if is_prefix_char c then lstrip_prefix_chars s' else s
  | EmptyString => EmptyString
  end.

Fixpoint dashes_to_underscores (s : string) : string :=
  match s with
  | String c s' =>
      String (if Ascii.eqb c "-" then "_"%char else c) (dashes_to_underscores s')
  | EmptyString => EmptyString
  end.

(** [parser.add_argument(option_string, type=..., default=...)] for one
    option string; the destination is the option string without its
    dashes. *)
Definition add_argument (p : ArgumentParser) (option_string : string)
    (type : option (string → option value)) (default : value) : ArgumentParser :=
  let dest := dashes_to_underscores (lstrip_prefix_chars option_string) in
  let type := match type with
              | Some f => f
              | None => λ s, Some (VStr s)
              end in
  {| _actions := _actions p ++ [_StoreAction [option_string] dest type default] |}.

(** [parser.add_subparsers(dest=..., required=...)] once the sub-parsers
    have been added to it with [add_parser]. *)
Definition add_subparsers (p : ArgumentParser) (dest : string) (required : bool)
    (parsers : list (string * ArgumentParser)) : ArgumentParser :=
  {| _actions := _actions p ++ [_SubParsersAction (Some dest) required parsers] |}.

(** The builtin [int] used as a [type]. *)
Definition int (s : string) : option value := VInt <$> py_int s.

End argparse.

(** ** Objects and the world *)

(** An instance: its class and its attribute dictionary. *)
Record instance := { cls : string; attrs : gmap string value }.

Inductive event := Call (qualname : string) (args : list value).

(** The heap of instances, the calls made so far (oldest first), and the
    two globals the module reads. *)
Record World := {
  heap : list instance;
  trace : list event;
  sys_argv : list string;
  __file__ : Path;
}.

Definition set_heap (w : World) (h : list instance) : World :=
  {| heap := h; trace := trace w; sys_argv := sys_argv w; __file__ := __file__ w |}.
Definition set_trace (w : World) (t : list event) : World :=
  {| heap := heap w; trace := t; sys_argv := sys_argv w; __file__ := __file__ w |}.

(** A computation: from a world to the world it leaves and what it
    returns or raises. *)
Definition M (A : Type) : Type := World → World * outcome A.

#[global] Instance M_ret : MRet M := λ A a w, (w, Return a).
#[global] Instance M_bind : MBind M := λ A B f m w,
  match m w with
  | (w', Return a) => f a w'
  | (w', Raise e) => (w', Raise e)
  end.

Definition raise {A} (e : exn) : M A := λ w, (w, Raise e).

Definition lift {A} (r : outcome A) : M A := λ w, (w, r).

(** Entering a function or method is recorded before its body runs. *)
Definition call {A} (qualname : string) (args : list value) (body : M A) : M A :=
  λ w, body (set_trace w (trace w ++ [Call qualname args])).

(** [object.__new__(cls)]: a fresh instance without attributes. *)
Definition new (c : string) : M value := λ w,
  (set_heap w (heap w ++ [{| cls := c; attrs := ∅ |}]),
   Return (VRef (length (heap w)))).

(** [self.name = v] *)
Definition setattr (self : value) (name : string) (v : value) : M unit := λ w,
  match self with
  | VRef l =>
      match heap w !! l with
      | Some o =>
          (set_heap w (<[l := {| cls := cls o; attrs := <[name := v]> (attrs o) |}]> (heap w)),
           Return tt)
      | None => (w, Raise (AttributeError name))
      end
  | _ => (w, Raise (AttributeError name))
  end.

Definition none_or_list (argv : option (list string)) : value :=
  match argv with
  | None => VNone
  | Some l => VList (map VStr l)
  end.

(** ** The program *)

(** [DB_PATH = Path(__file__).with_name("finance.db")] *)
Definition DB_PATH (w : World) : Path := with_name (__file__ w) "finance.db".

(** The [StorageBackend] protocol: the operations of a storage layer, on
    the receiver. *)
Class StorageBackend := {
  initialize : value → M value;
  authenticate : value → value → value → M value;
  fetch_user_records : value → value → M value;
  fetch_all_records : value → M value;
  upsert_record : value → value → M value;
  list_users : value → M value;
  create_user : value → value → M value;
}.

(** The dataclass [User]; an optional argument is [None] when the caller
    leaves it out. *)
Module User.
Definition __init__ (self username password role : value) (id : option value)
  : M unit :=
  let id := default VNone id in
  call "User.__init__" [self; username; password; role; id]
    (setattr self "username" username;;
     setattr self "password" password;;
     setattr self "role" role;;
     setattr self "id" id).

Definition new (username password role : value) (id : option value) : M value :=
  self ← new "User";
  __init__ self username password role id;;
  mret self.
End User.

(** The dataclass [Bill]. *)
Module Bill.
Definition __init__ (self user_id kind amount category : value)
    (notes id : option value) : M unit :=
  let notes := default (VStr "") notes in
  let id := default VNone id in
  call "Bill.__init__" [self; user_id; kind; amount; category; notes; id]
    (setattr self "user_id" user_id;;
     setattr self "kind" kind;;
     setattr self "amount" amount;;
     setattr self "category" category;;
     setattr self "notes" notes;;
     setattr self "id" id).

Definition new (user_id kind amount category : value) (notes id : option value)
  : M value :=
  self ← new "Bill";
  __init__ self user_id kind amount category notes id;;
  mret self.
End Bill.

Module SQLiteDatabase.
Definition __init__ (self : value) (path : option value) : M unit := λ w,
  let path := default (VPath (DB_PATH w)) path in
  call "SQLiteDatabase.__init__" [self; path]
    (setattr self "path" path) w.

Definition new (path : option value) : M value :=
  self ← new "SQLiteDatabase";
  __init__ self path;;
  mret self.

Definition initialize (self : value) : M value :=
  call "SQLiteDatabase.initialize" [self]
    (raise (NotImplementedError (Some "创建 users 与 transactions 两张表"))).

Definition authenticate (self username password : value) : M value :=
  call "SQLiteDatabase.authenticate" [self; username; password]
    (raise (NotImplementedError None)).

Definition fetch_user_records (self user_id : value) : M value :=
  call "SQLiteDatabase.fetch_user_records" [self; user_id]
    (raise (NotImplementedError None)).

Definition fetch_all_records (self : value) : M value :=
  call "SQLiteDatabase.fetch_all_records" [self]
    (raise (NotImplementedError None)).

Definition upsert_record (self bill : value) : M value :=
  call "SQLiteDatabase.upsert_record" [self; bill]
    (raise (NotImplementedError None)).

Definition list_users (self : value) : M value :=
  call "SQLiteDatabase.list_users" [self]
    (raise (NotImplementedError None)).

Definition create_user (self user : value) : M value :=
  call "SQLiteDatabase.create_user" [self; user]
    (raise (NotImplementedError None)).

#[global] Instance storage_backend : StorageBackend :=
  Build_StorageBackend initialize authenticate fetch_user_records
    fetch_all_records upsert_record list_users create_user.
End SQLiteDatabase.

(** The dataclass [Session]. *)
Module Session.
Definition __init__ (self user token : value) : M unit :=
  call "Session.__init__" [self; user; token]
    (setattr self "user" user;;
     setattr self "token" token).

Definition new (user token : value) : M value :=
  self ← new "Session";
  __init__ self user token;;
  mret self.
End Session.

Module FinanceServer.
Definition __init__ (self host port storage : value) : M unit :=
  call "FinanceServer.__init__" [self; host; port; storage]
    (setattr self "host" host;;
     setattr self "port" port;;
     setattr self "storage" storage).

Definition new (host port storage : value) : M value :=
  self ← new "FinanceServer";
  __init__ self host port storage;;
  mret self.

Definition start (self : value) : M value :=
  call "FinanceServer.start" [self]
    (raise (NotImplementedError (Some "初始化 socket/HTTP 服务，接受客户端连接"))).

Definition stop (self : value) : M value :=
  call "FinanceServer.stop" [self] (raise (NotImplementedError None)).
End FinanceServer.

Module FinanceRequestHandler.
Definition __init__ (self storage : value) : M unit :=
  call "FinanceRequestHandler.__init__" [self; storage]
    (setattr self "storage" storage;;
     setattr self "session" VNone).

Definition new (storage : value) : M value :=
  self ← new "FinanceRequestHandler";
  __init__ self storage;;
  mret self.

Definition dispatch (self payload : value) : M value :=
  call "FinanceRequestHandler.dispatch" [self; payload]
    (raise (NotImplementedError (Some "根据 action 分发到不同处理函数"))).

Definition _handle_login (self username password : value) : M value :=
  call "FinanceRequestHandler._handle_login" [self; username; password]
    (raise (NotImplementedError None)).

Definition _handle_logout (self : value) : M value :=
  call "FinanceRequestHandler._handle_logout" [self]
    (raise (NotImplementedError None)).

Definition _handle_fetch (self scope : value) : M value :=
  call "FinanceRequestHandler._handle_fetch" [self; scope]
    (raise (NotImplementedError None)).

Definition _handle_update (self bill_data : value) : M value :=
  call "FinanceRequestHandler._handle_update" [self; bill_data]
    (raise (NotImplementedError None)).

Definition _handle_admin_actions (self payload : value) : M value :=
  call "FinanceRequestHandler._handle_admin_actions" [self; payload]
    (raise (NotImplementedError (Some "管理员可查看所有用户记录、统计图表等"))).

Definition _require_login (self : value) : M value :=
  call "FinanceRequestHandler._require_login" [self]
    (raise (NotImplementedError (Some "若未登录则抛出异常/返回错误信息"))).
End FinanceRequestHandler.

Module FinanceClient.
Definition __init__ (self host port : value) : M unit :=
  call "FinanceClient.__init__" [self; host; port]
    (setattr self "host" host;;
     setattr self "port" port).

Definition new (host port : value) : M value :=
  self ← new "FinanceClient";
  __init__ self host port;;
  mret self.

Definition connect (self : value) : M value :=
  call "FinanceClient.connect" [self]
    (raise (NotImplementedError (Some "建立 TCP/HTTP 连接"))).

Definition login (self username password : value) : M value :=
  call "FinanceClient.login" [self; username; password]
    (raise (NotImplementedError None)).

Definition logout (self : value) : M value :=
  call "FinanceClient.logout" [self] (raise (NotImplementedError None)).

Definition fetch_records (self : value) (scope : option value) : M value :=
  let scope := default (VStr "own") scope in
  call "FinanceClient.fetch_records" [self; scope]
    (raise (NotImplementedError None)).

Definition update_record (self bill : value) : M value :=
  call "FinanceClient.update_record" [self; bill]
    (raise (NotImplementedError None)).

Definition list_users (self : value) : M value :=
  call "FinanceClient.list_users" [self] (raise (NotImplementedError None)).

Definition create_user (self user : value) : M value :=
  call "FinanceClient.create_user" [self; user]
    (raise (NotImplementedError None)).
End FinanceClient.

Module ClientUI.
Definition __init__ (self client : value) : M unit :=
  call "ClientUI.__init__" [self; client]
    (setattr self "client" client;;
     setattr self "session" VNone).

Definition new (client : value) : M value :=
  self ← new "ClientUI";
  __init__ self client;;
  mret self.

Definition _login_flow (self : value) : M value :=
  call "ClientUI._login_flow" [self]
    (raise (NotImplementedError (Some "输入账号密码，调用 client.login"))).

Definition _main_menu (self : value) : M value :=
  call "ClientUI._main_menu" [self] (raise (NotImplementedError None)).

Definition run (self : value) : M value :=
  call "ClientUI.run" [self]
    (_login_flow self;;
     _main_menu self;;
     mret VNone).
End ClientUI.

Definition run_server (host port : value) : M value :=
  call "run_server" [host; port]
    (storage ← SQLiteDatabase.new None;
     SQLiteDatabase.initialize storage;;
     server ← FinanceServer.new host port storage;
     FinanceServer.start server;;
     mret VNone).

Definition run_client (host port : value) : M value :=
  call "run_client" [host; port]
    (client ← FinanceClient.new host port;
     FinanceClient.connect client;;
     ui ← ClientUI.new client;
     ClientUI.run ui;;
     mret VNone).

(** The parsers [parse_args] builds: [srv] and [cli] for the two
    sub-commands, and [parser] with the sub-parsers action [sub]. *)
Definition srv : argparse.ArgumentParser :=
  let srv := argparse.ArgumentParser_new in
  let srv := argparse.add_argument srv "--host" None (VStr "0.0.0.0") in
  argparse.add_argument srv "--port" (Some argparse.int) (VInt 9000).

Definition cli : argparse.ArgumentParser :=
  let cli := argparse.ArgumentParser_new in
  let cli := argparse.add_argument cli "--host" None (VStr "127.0.0.1") in
  argparse.add_argument cli "--port" (Some argparse.int) (VInt 9000).

Definition parser : argparse.ArgumentParser :=
  let parser := argparse.ArgumentParser_new in
  argparse.add_subparsers parser "mode" true [("server", srv); ("client", cli)].

Definition parse_args (argv : option (list string)) : M argparse.Namespace :=
  call "parse_args" [none_or_list argv]
    (λ w, (w, parser ← argparse.ArgumentParser_init (sys_argv w);
              let parser :=
                argparse.add_subparsers parser "mode" true
                  [("server", srv); ("client", cli)] in
              argparse.parse_args parser (sys_argv w) argv)).

(** [args.name] on a namespace. *)
Definition getattr (args : argparse.Namespace) (name : string) : M value :=
  match args !! name with
  | Some v => mret v
  | None => raise (AttributeError name)
  end.

Definition main (argv : option (list string)) : M value :=
  call "main" [none_or_list argv]
    (args ← parse_args argv;
     mode ← getattr args "mode";
     if value_eq_str mode "server" then
       host ← getattr args "host";
       port ← getattr args "port";
       run_server host port
     else
       host ← getattr args "host";
       port ← getattr args "port";
       run_client host port).

(** [if __name__ == "__main__": main(sys.argv[1:])] *)
Definition __main__ : M value := λ w, main (Some (tail (sys_argv w))) w.

(** ** What the claims speak of *)

(** The namespace of a parsed command line. *)
Definition namespace_of (mode host : string) (port : Z) : argparse.Namespace :=
  {["mode" := VStr mode; "host" := VStr host; "port" := VInt port]}.

(** The argument strings [parse_args(argv)] parses: [sys.argv[1:]] for
    [None]. *)
Definition given (w : World) (argv : option (list string)) : list string :=
  match argv with
  | None => tail (sys_argv w)
  | Some args => args
  end.

(** The interpreter starting on [file] with the command line [argv]. *)
Definition start (file : Path) (argv : list string) : World :=
  {| heap := []; trace := []; sys_argv := name file :: argv; __file__ := file |}.

Definition main_py : Path := {| parent := ["src"]; name := "main.py" |}.

(** A computation that, from every world, raises [NotImplementedError]
    and leaves the heap as it found it. *)
Definition raises_not_implemented {A} (m : M A) : Prop :=
  ∀ w, ∃ w' args,
    m w = (w', Raise (NotImplementedError args)) ∧ heap w' = heap w.

(** The same, with the arguments of the exception and the calls recorded
    on the way. *)
Definition raises_with {A} (m : M A) (args : option string) (calls : list event)
  : Prop :=
  ∀ w, m w = (set_trace w (trace w ++ calls), Raise (NotImplementedError args)).

Lemma raises_with_not_implemented {A} (m : M A) args calls :
  raises_with m args calls → raises_not_implemented m.
Proof.
  intros H w. exists (set_trace w (trace w ++ calls)), args.
  split; [apply H | reflexivity].
Qed.

(** A stub is a recorded call followed by the [raise]: both sides compute. *)
Ltac stub :=
  lazymatch goal with
  | |- raises_not_implemented _ =>
      intros ?w; eexists _, _; split; reflexivity
  | |- raises_with _ _ _ => intros ?w; reflexivity
  end.

(** ** The storage layer *)

(** C1: each of the seven storage methods of [SQLiteDatabase] raises
    [NotImplementedError], whatever the receiver and the arguments, and
    changes no instance. *)
Theorem SQLiteDatabase_methods_not_implemented
    (self username password user_id bill user : value) :
  raises_not_implemented (SQLiteDatabase.initialize self)
  ∧ raises_not_implemented (SQLiteDatabase.authenticate self username password)
  ∧ raises_not_implemented (SQLiteDatabase.fetch_user_records self user_id)
  ∧ raises_not_implemented (SQLiteDatabase.fetch_all_records self)
  ∧ raises_not_implemented (SQLiteDatabase.upsert_record self bill)
  ∧ raises_not_implemented (SQLiteDatabase.list_users self)
  ∧ raises_not_implemented (SQLiteDatabase.create_user self user).
Proof. repeat split; stub. Qed.

(** ** Client and server *)

(** C4: every public method of [FinanceClient] and of [FinanceServer]
    raises [NotImplementedError], whatever the receiver and the arguments
    ([scope] given or left to its default). *)
Theorem FinanceClient_FinanceServer_not_implemented
    (self username password bill user : value) (scope : option value) :
  raises_not_implemented (FinanceClient.connect self)
  ∧ raises_not_implemented (FinanceClient.login self username password)
  ∧ raises_not_implemented (FinanceClient.logout self)
  ∧ raises_not_implemented (FinanceClient.fetch_records self scope)
  ∧ raises_not_implemented (FinanceClient.update_record self bill)
  ∧ raises_not_implemented (FinanceClient.list_users self)
  ∧ raises_not_implemented (FinanceClient.create_user self user)
  ∧ raises_not_implemented (FinanceServer.start self)
  ∧ raises_not_implemented (FinanceServer.stop self).
Proof. repeat split; stub. Qed.

(** ** The request handler *)

(** C5: [dispatch] raises [NotImplementedError] for every payload, and so
    does each handler method for every input: no payload, whatever its
    action, gets a response. *)
Theorem FinanceRequestHandler_not_implemented
    (self payload username password scope bill_data : value) :
  raises_not_implemented (FinanceRequestHandler.dispatch self payload)
  ∧ raises_not_implemented (FinanceRequestHandler._handle_login self username password)
  ∧ raises_not_implemented (FinanceRequestHandler._handle_logout self)
  ∧ raises_not_implemented (FinanceRequestHandler._handle_fetch self scope)
  ∧ raises_not_implemented (FinanceRequestHandler._handle_update self bill_data)
  ∧ raises_not_implemented (FinanceRequestHandler._handle_admin_actions self payload)
  ∧ raises_not_implemented (FinanceRequestHandler._require_login self)
  ∧ ∀ w response, (FinanceRequestHandler.dispatch self payload w).2 ≠ Return response.
Proof. repeat split; try stub. intros w response. discriminate. Qed.

(** ** The text UI *)

(** C6: [ClientUI.run] raises the [NotImplementedError] of [_login_flow],
    after the calls to [run] and [_login_flow] and no other, so
    [_main_menu] is not reached; [_login_flow] and [_main_menu] raise it
    when called directly. *)
Theorem ClientUI_run_not_implemented (self : value) :
  raises_with (ClientUI.run self)
    (Some "输入账号密码，调用 client.login")
    [Call "ClientUI.run" [self]; Call "ClientUI._login_flow" [self]]
  ∧ raises_not_implemented (ClientUI.run self)
  ∧ raises_not_implemented (ClientUI._login_flow self)
  ∧ raises_not_implemented (ClientUI._main_menu self).
Proof.
  repeat split; try stub.
  intros w. cbv [ClientUI.run ClientUI._login_flow call raise mbind M_bind set_trace trace].
  simpl. rewrite <- app_assoc. reflexivity.
Qed.

(** ** Constructors *)

(** The world after a constructor: one more instance, one more call. *)
Definition constructed (w : World) (o : instance) (e : event) : World :=
  {| heap := heap w ++ [o]; trace := trace w ++ [e];
     sys_argv := sys_argv w; __file__ := __file__ w |}.

(** Setting an attribute of the instance allocated last. *)
Lemma setattr_last (w : World) (h : list instance) (o : instance) name v :
  heap w = h ++ [o] →
  setattr (VRef (length h)) name v w
  = (set_heap w (h ++ [{| cls := cls o; attrs := <[name := v]> (attrs o) |}]),
     Return tt).
Proof.
  intros Hw. unfold setattr. rewrite Hw, list_lookup_middle by reflexivity.
  rewrite insert_app_r_alt, Nat.sub_diag by reflexivity. reflexivity.
Qed.

Lemma bind_return {A B} (m : M A) (f : A → M B) w w' a :
  m w = (w', Return a) → (m ≫= f) w = f a w'.
Proof. intros H. unfold mbind, M_bind. rewrite H. reflexivity. Qed.

(** Runs the [setattr]s of an [__init__] on the fresh instance. *)
Ltac init_fresh w :=
  cbv [mbind M_bind new call mret M_ret];
  repeat (erewrite (setattr_last _ (heap w)) by reflexivity);
  reflexivity.

Lemma User_new_spec (username password role : value) (id : option value) w :
  User.new username password role id w
  = (constructed w
       {| cls := "User";
          attrs := <["id" := default VNone id]>
                     (<["role" := role]>
                        (<["password" := password]>
                           (<["username" := username]> ∅))) |}
       (Call "User.__init__"
             [VRef (length (heap w)); username; password; role; default VNone id]),
     Return (VRef (length (heap w)))).
Proof. unfold User.new, User.__init__. init_fresh w. Qed.

Lemma Bill_new_spec (user_id kind amount category : value)
    (notes id : option value) w :
  Bill.new user_id kind amount category notes id w
  = (constructed w
       {| cls := "Bill";
          attrs := <["id" := default VNone id]>
                     (<["notes" := default (VStr "") notes]>
                        (<["category" := category]>
                           (<["amount" := amount]>
                              (<["kind" := kind]>
                                 (<["user_id" := user_id]> ∅))))) |}
       (Call "Bill.__init__"
             [VRef (length (heap w)); user_id; kind; amount; category;
              default (VStr "") notes; default VNone id]),
     Return (VRef (length (heap w)))).
Proof. unfold Bill.new, Bill.__init__. init_fresh w. Qed.

Lemma Session_new_spec (user token : value) w :
  Session.new user token w
  = (constructed w
       {| cls := "Session";
          attrs := <["token" := token]> (<["user" := user]> ∅) |}
       (Call "Session.__init__" [VRef (length (heap w)); user; token]),
     Return (VRef (length (heap w)))).
Proof. unfold Session.new, Session.__init__. init_fresh w. Qed.

Lemma SQLiteDatabase_new_spec (path : option value) w :
  SQLiteDatabase.new path w
  = (constructed w
       {| cls := "SQLiteDatabase";
          attrs := <["path" := default (VPath (DB_PATH w)) path]> ∅ |}
       (Call "SQLiteDatabase.__init__"
             [VRef (length (heap w)); default (VPath (DB_PATH w)) path]),
     Return (VRef (length (heap w)))).
Proof. unfold SQLiteDatabase.new, SQLiteDatabase.__init__. init_fresh w. Qed.

Lemma FinanceServer_new_spec (host port storage : value) w :
  FinanceServer.new host port storage w
  = (constructed w
       {| cls := "FinanceServer";
          attrs := <["storage" := storage]>
                     (<["port" := port]> (<["host" := host]> ∅)) |}
       (Call "FinanceServer.__init__"
             [VRef (length (heap w)); host; port; storage]),
     Return (VRef (length (heap w)))).
Proof. unfold FinanceServer.new, FinanceServer.__init__. init_fresh w. Qed.

Lemma FinanceRequestHandler_new_spec (storage : value) w :
  FinanceRequestHandler.new storage w
  = (constructed w
       {| cls := "FinanceRequestHandler";
          attrs := <["session" := VNone]> (<["storage" := storage]> ∅) |}
       (Call "FinanceRequestHandler.__init__" [VRef (length (heap w)); storage]),
     Return (VRef (length (heap w)))).
Proof.
  unfold FinanceRequestHandler.new, FinanceRequestHandler.__init__. init_fresh w.
Qed.

Lemma FinanceClient_new_spec (host port : value) w :
  FinanceClient.new host port w
  = (constructed w
       {| cls := "FinanceClient";
          attrs := <["port" := port]> (<["host" := host]> ∅) |}
       (Call "FinanceClient.__init__" [VRef (length (heap w)); host; port]),
     Return (VRef (length (heap w)))).
Proof. unfold FinanceClient.new, FinanceClient.__init__. init_fresh w. Qed.

Lemma ClientUI_new_spec (client : value) w :
  ClientUI.new client w
  = (constructed w
       {| cls := "ClientUI";
          attrs := <["session" := VNone]> (<["client" := client]> ∅) |}
       (Call "ClientUI.__init__" [VRef (length (heap w)); client]),
     Return (VRef (length (heap w)))).
Proof. unfold ClientUI.new, ClientUI.__init__. init_fresh w. Qed.

(** C7: constructing a [User] or a [Bill] succeeds for every choice of
    field values, of any type, and the new instance holds exactly the
    fields given, [notes] defaulting to [""] and [id] to [None]; a role
    other than "admin" and "user", or a kind other than "income" and
    "expense", is stored as given. *)
Theorem User_Bill_construction
    (username password role user_id kind amount category : value)
    (notes id : option value) (w : World) :
  User.new username password role id w
  = (constructed w
       {| cls := "User";
          attrs := <["id" := default VNone id]>
                     (<["role" := role]>
                        (<["password" := password]>
                           (<["username" := username]> ∅))) |}
       (Call "User.__init__"
             [VRef (length (heap w)); username; password; role; default VNone id]),
     Return (VRef (length (heap w))))
  ∧ Bill.new user_id kind amount category notes id w
    = (constructed w
         {| cls := "Bill";
            attrs := <["id" := default VNone id]>
                       (<["notes" := default (VStr "") notes]>
                          (<["category" := category]>
                             (<["amount" := amount]>
                                (<["kind" := kind]>
                                   (<["user_id" := user_id]> ∅))))) |}
         (Call "Bill.__init__"
               [VRef (length (heap w)); user_id; kind; amount; category;
                default (VStr "") notes; default VNone id]),
       Return (VRef (length (heap w))))
  ∧ default VNone (None : option value) = VNone
  ∧ default (VStr "") (None : option value) = VStr "".
Proof.
  split; [apply User_new_spec | split; [apply Bill_new_spec | split; reflexivity]].
Qed.

(** C9: the constructors of [SQLiteDatabase], [FinanceServer],
    [FinanceClient] and [ClientUI] return a new instance for every
    argument, holding the arguments as given; without a path,
    [SQLiteDatabase] holds the path of "finance.db" in the directory of
    the source file. *)
Theorem constructors_store_arguments
    (path : option value) (host port storage client : value) (w : World) :
  SQLiteDatabase.new path w
  = (constructed w
       {| cls := "SQLiteDatabase";
          attrs := <["path" := default (VPath (DB_PATH w)) path]> ∅ |}
       (Call "SQLiteDatabase.__init__"
             [VRef (length (heap w)); default (VPath (DB_PATH w)) path]),
     Return (VRef (length (heap w))))
  ∧ FinanceServer.new host port storage w
    = (constructed w
         {| cls := "FinanceServer";
            attrs := <["storage" := storage]>
                       (<["port" := port]> (<["host" := host]> ∅)) |}
         (Call "FinanceServer.__init__"
               [VRef (length (heap w)); host; port; storage]),
       Return (VRef (length (heap w))))
  ∧ FinanceClient.new host port w
    = (constructed w
         {| cls := "FinanceClient";
            attrs := <["port" := port]> (<["host" := host]> ∅) |}
         (Call "FinanceClient.__init__" [VRef (length (heap w)); host; port]),
       Return (VRef (length (heap w))))
  ∧ ClientUI.new client w
    = (constructed w
         {| cls := "ClientUI";
            attrs := <["session" := VNone]> (<["client" := client]> ∅) |}
         (Call "ClientUI.__init__" [VRef (length (heap w)); client]),
       Return (VRef (length (heap w))))
  ∧ default (VPath (DB_PATH w)) None
    = VPath {| parent := parent (__file__ w); name := "finance.db" |}.
Proof.
  repeat split.
  - apply SQLiteDatabase_new_spec.
  - apply FinanceServer_new_spec.
  - apply FinanceClient_new_spec.
  - apply ClientUI_new_spec.
Qed.

(** ** Sessions *)

Definition session_of (o : instance) : option value := attrs o !! "session".

(** The classes whose instances have a [session] field. *)
Definition has_session_field (o : instance) : Prop :=
  cls o = "FinanceRequestHandler" ∨ cls o = "ClientUI".

(** No handler and no UI of the world has a session. *)
Definition sessions_none (w : World) : Prop :=
  ∀ l o, heap w !! l = Some o → has_session_field o → session_of o = Some VNone.

(** From heap [h] to heap [h']: an instance keeps its class, and its
    session is what it was or [None]; a handler or UI that is new has no
    session. *)
Definition sessions_kept (h h' : list instance) : Prop :=
  (∀ l o, h !! l = Some o →
     ∃ o', h' !! l = Some o' ∧ cls o' = cls o
           ∧ (session_of o' = session_of o ∨ session_of o' = Some VNone))
  ∧ (∀ l o', h !! l = None → h' !! l = Some o' →
       has_session_field o' → session_of o' = Some VNone).

Definition keeps_sessions {A} (m : M A) : Prop :=
  ∀ w, sessions_kept (heap w) (heap (m w).1).

(** Everything the module lets a caller do: construct an instance, run an
    [__init__] or a method on any receiver, call a function. *)
Inductive operation :=
| op_User (username password role : value) (id : option value)
| op_User_init (self username password role : value) (id : option value)
| op_Bill (user_id kind amount category : value) (notes id : option value)
| op_Bill_init (self user_id kind amount category : value) (notes id : option value)
| op_Session (user token : value)
| op_Session_init (self user token : value)
| op_SQLiteDatabase (path : option value)
| op_SQLiteDatabase_init (self : value) (path : option value)
| op_SQLiteDatabase_initialize (self : value)
| op_SQLiteDatabase_authenticate (self username password : value)
| op_SQLiteDatabase_fetch_user_records (self user_id : value)
| op_SQLiteDatabase_fetch_all_records (self : value)
| op_SQLiteDatabase_upsert_record (self bill : value)
| op_SQLiteDatabase_list_users (self : value)
| op_SQLiteDatabase_create_user (self user : value)
| op_FinanceServer (host port storage : value)
| op_FinanceServer_init (self host port storage : value)
| op_FinanceServer_start (self : value)
| op_FinanceServer_stop (self : value)
| op_FinanceRequestHandler (storage : value)
| op_FinanceRequestHandler_init (self storage : value)
| op_FinanceRequestHandler_dispatch (self payload : value)
| op_FinanceRequestHandler_handle_login (self username password : value)
| op_FinanceRequestHandler_handle_logout (self : value)
| op_FinanceRequestHandler_handle_fetch (self scope : value)
| op_FinanceRequestHandler_handle_update (self bill_data : value)
| op_FinanceRequestHandler_handle_admin_actions (self payload : value)
| op_FinanceRequestHandler_require_login (self : value)
| op_FinanceClient (host port : value)
| op_FinanceClient_init (self host port : value)
| op_FinanceClient_connect (self : value)
| op_FinanceClient_login (self username password : value)
| op_FinanceClient_logout (self : value)
| op_FinanceClient_fetch_records (self : value) (scope : option value)
| op_FinanceClient_update_record (self bill : value)
| op_FinanceClient_list_users (self : value)
| op_FinanceClient_create_user (self user : value)
| op_ClientUI (client : value)
| op_ClientUI_init (self client : value)
| op_ClientUI_run (self : value)
| op_ClientUI_login_flow (self : value)
| op_ClientUI_main_menu (self : value)
| op_run_server (host port : value)
| op_run_client (host port : value)
| op_parse_args (argv : option (list string))
| op_main (argv : option (list string))
| op_script.

Definition void {A} (m : M A) : M unit := m ≫= λ _, mret tt.

Definition run (op : operation) : M unit :=
  match op with
  | op_User username password role id => void (User.new username password role id)
  | op_User_init self username password role id =>
      User.__init__ self username password role id
  | op_Bill user_id kind amount category notes id =>
      void (Bill.new user_id kind amount category notes id)
  | op_Bill_init self user_id kind amount category notes id =>
      Bill.__init__ self user_id kind amount category notes id
  | op_Session user token => void (Session.new user token)
  | op_Session_init self user token => Session.__init__ self user token
  | op_SQLiteDatabase path => void (SQLiteDatabase.new path)
  | op_SQLiteDatabase_init self path => SQLiteDatabase.__init__ self path
  | op_SQLiteDatabase_initialize self => void (SQLiteDatabase.initialize self)
  | op_SQLiteDatabase_authenticate self username password =>
      void (SQLiteDatabase.authenticate self username password)
  | op_SQLiteDatabase_fetch_user_records self user_id =>
      void (SQLiteDatabase.fetch_user_records self user_id)
  | op_SQLiteDatabase_fetch_all_records self =>
      void (SQLiteDatabase.fetch_all_records self)
  | op_SQLiteDatabase_upsert_record self bill =>
      void (SQLiteDatabase.upsert_record self bill)
  | op_SQLiteDatabase_list_users self => void (SQLiteDatabase.list_users self)
  | op_SQLiteDatabase_create_user self user =>
      void (SQLiteDatabase.create_user self user)
  | op_FinanceServer host port storage => void (FinanceServer.new host port storage)
  | op_FinanceServer_init self host port storage =>
      FinanceServer.__init__ self host port storage
  | op_FinanceServer_start self => void (FinanceServer.start self)
  | op_FinanceServer_stop self => void (FinanceServer.stop self)
  | op_FinanceRequestHandler storage => void (FinanceRequestHandler.new storage)
  | op_FinanceRequestHandler_init self storage =>
      FinanceRequestHandler.__init__ self storage
  | op_FinanceRequestHandler_dispatch self payload =>
      void (FinanceRequestHandler.dispatch self payload)
  | op_FinanceRequestHandler_handle_login self username password =>
      void (FinanceRequestHandler._handle_login self username password)
  | op_FinanceRequestHandler_handle_logout self =>
      void (FinanceRequestHandler._handle_logout self)
  | op_FinanceRequestHandler_handle_fetch self scope =>
      void (FinanceRequestHandler._handle_fetch self scope)
  | op_FinanceRequestHandler_handle_update self bill_data =>
      void (FinanceRequestHandler._handle_update self bill_data)
  | op_FinanceRequestHandler_handle_admin_actions self payload =>
      void (FinanceRequestHandler._handle_admin_actions self payload)
  | op_FinanceRequestHandler_require_login self =>
      void (FinanceRequestHandler._require_login self)
  | op_FinanceClient host port => void (FinanceClient.new host port)
  | op_FinanceClient_init self host port => FinanceClient.__init__ self host port
  | op_FinanceClient_connect self => void (FinanceClient.connect self)
  | op_FinanceClient_login self username password =>
      void (FinanceClient.login self username password)
  | op_FinanceClient_logout self => void (FinanceClient.logout self)
  | op_FinanceClient_fetch_records self scope =>
      void (FinanceClient.fetch_records self scope)
  | op_FinanceClient_update_record self bill =>
      void (FinanceClient.update_record self bill)
  | op_FinanceClient_list_users self => void (FinanceClient.list_users self)
  | op_FinanceClient_create_user self user =>
      void (FinanceClient.create_user self user)
  | op_ClientUI client => void (ClientUI.new client)
  | op_ClientUI_init self client => ClientUI.__init__ self client
  | op_ClientUI_run self => void (ClientUI.run self)
  | op_ClientUI_login_flow self => void (ClientUI._login_flow self)
  | op_ClientUI_main_menu self => void (ClientUI._main_menu self)
  | op_run_server host port => void (run_server host port)
  | op_run_client host port => void (run_client host port)
  | op_parse_args argv => void (parse_args argv)
  | op_main argv => void (main argv)
  | op_script => void __main__
  end.

Lemma sessions_kept_refl h : sessions_kept h h.
Proof.
  split.
  - intros l o Hl. exists o. auto.
  - intros l o' Hn Hs. congruence.
Qed.

Lemma sessions_kept_trans h1 h2 h3 :
  sessions_kept h1 h2 → sessions_kept h2 h3 → sessions_kept h1 h3.
Proof.
  intros [K1 N1] [K2 N2]. split.
  - intros l o Hl.
    destruct (K1 l o Hl) as (o2 & H2 & Hc2 & Hs2).
    destruct (K2 l o2 H2) as (o3 & H3 & Hc3 & Hs3).
    exists o3. repeat split; [done | congruence |].
    destruct Hs3 as [Hs3 | Hs3]; [rewrite Hs3; exact Hs2 | by right].
  - intros l o3 Hn H3 Hf.
    destruct (h2 !! l) as [o2|] eqn:H2.
    + destruct (K2 l o2 H2) as (o3' & H3' & Hc3 & Hs3).
      assert (o3' = o3) as -> by congruence.
      assert (session_of o2 = Some VNone) as Ho2.
      { apply (N1 l o2 Hn H2). unfold has_session_field in *. by rewrite <- Hc3. }
      destruct Hs3 as [Hs3 | Hs3]; congruence.
    + by apply (N2 l o3).
Qed.

Lemma keeps_ret {A} (a : A) : keeps_sessions (mret a).
Proof. intros w. apply sessions_kept_refl. Qed.

Lemma keeps_raise {A} e : keeps_sessions (raise (A:=A) e).
Proof. intros w. apply sessions_kept_refl. Qed.

Lemma keeps_bind {A B} (m : M A) (f : A → M B) :
  keeps_sessions m → (∀ a, keeps_sessions (f a)) → keeps_sessions (m ≫= f).
Proof.
  intros Hm Hf w. specialize (Hm w). unfold mbind, M_bind.
  destruct (m w) as [w1 [a | e]]; simpl in *; [| done].
  eapply sessions_kept_trans; [exact Hm | apply Hf].
Qed.

Lemma keeps_call {A} qualname args (body : M A) :
  keeps_sessions body → keeps_sessions (call qualname args body).
Proof. intros Hb w. apply (Hb (set_trace w _)). Qed.

Lemma keeps_void {A} (m : M A) : keeps_sessions m → keeps_sessions (void m).
Proof. intros Hm. apply keeps_bind; [done | intros; apply keeps_ret]. Qed.

(** An assignment to an attribute other than [session], or of [None]. *)
Lemma keeps_setattr self name v :
  name ≠ "session" ∨ v = VNone → keeps_sessions (setattr self name v).
Proof.
  intros Hnv w. unfold setattr.
  destruct self as [| | | | | |l]; try apply sessions_kept_refl.
  destruct (heap w !! l) as [o|] eqn:Hl; [| apply sessions_kept_refl].
  simpl. split.
  - intros l' o' Hl'. destruct (decide (l = l')) as [<- | Hne].
    + rewrite list_lookup_insert_eq by (by eapply lookup_lt_Some).
      eexists. split; [done |]. assert (o' = o) as -> by congruence.
      split; [done |]. unfold session_of. simpl.
      destruct Hnv as [Hn | ->].
      * left. by rewrite lookup_insert_ne.
      * destruct (decide (name = "session")) as [-> | Hn].
        -- right. by rewrite lookup_insert_eq.
        -- left. by rewrite lookup_insert_ne.
    + rewrite list_lookup_insert_ne by done. exists o'. auto.
  - intros l' o' Hn Hl' Hf. destruct (decide (l = l')) as [<- | Hne].
    + congruence.
    + rewrite list_lookup_insert_ne in Hl' by done. congruence.
Qed.

(** A constructor's world: the new instance is the only change. *)
Lemma keeps_constructed w o e :
  (has_session_field o → session_of o = Some VNone) →
  sessions_kept (heap w) (heap (constructed w o e)).
Proof.
  intros Ho. simpl. split.
  - intros l o' Hl. exists o'. rewrite lookup_app_l by (by eapply lookup_lt_Some). auto.
  - intros l o' Hn Hl Hf. apply lookup_ge_None in Hn.
    rewrite lookup_app_r in Hl by done.
    destruct (l - length (heap w)) as [|k]; simpl in Hl; [| done].
    assert (o' = o) as -> by congruence. auto.
Qed.

Lemma keeps_parse_args argv : keeps_sessions (parse_args argv).
Proof. intros w. apply sessions_kept_refl. Qed.

Lemma keeps_getattr args name : keeps_sessions (getattr args name).
Proof. unfold getattr. destruct (args !! name); [apply keeps_ret | apply keeps_raise]. Qed.

Create HintDb sessions.
#[local] Hint Resolve keeps_ret keeps_raise keeps_call keeps_void
  keeps_parse_args keeps_getattr : sessions.
#[local] Hint Extern 1 (keeps_sessions (_ ≫= _)) =>
  apply keeps_bind; [| intros ?] : sessions.
#[local] Hint Extern 1 (keeps_sessions (setattr _ _ _)) =>
  apply keeps_setattr; first [left; discriminate | right; reflexivity] : sessions.

(** The constructors, by their specifications. *)
Ltac keeps_new spec :=
  let w := fresh "w" in
  intros w; rewrite spec; apply keeps_constructed;
  first [ intros [? | ?]; discriminate | reflexivity | intros _; reflexivity ].

Lemma keeps_SQLiteDatabase_new path : keeps_sessions (SQLiteDatabase.new path).
Proof. keeps_new SQLiteDatabase_new_spec. Qed.
Lemma keeps_User_new u p r i : keeps_sessions (User.new u p r i).
Proof. keeps_new User_new_spec. Qed.
Lemma keeps_Bill_new a b c d e f : keeps_sessions (Bill.new a b c d e f).
Proof. keeps_new Bill_new_spec. Qed.
Lemma keeps_Session_new u t : keeps_sessions (Session.new u t).
Proof. keeps_new Session_new_spec. Qed.
Lemma keeps_FinanceServer_new h p s : keeps_sessions (FinanceServer.new h p s).
Proof. keeps_new FinanceServer_new_spec. Qed.
Lemma keeps_FinanceRequestHandler_new s :
  keeps_sessions (FinanceRequestHandler.new s).
Proof. keeps_new FinanceRequestHandler_new_spec. Qed.
Lemma keeps_FinanceClient_new h p : keeps_sessions (FinanceClient.new h p).
Proof. keeps_new FinanceClient_new_spec. Qed.
Lemma keeps_ClientUI_new c : keeps_sessions (ClientUI.new c).
Proof. keeps_new ClientUI_new_spec. Qed.

#[local] Hint Resolve keeps_SQLiteDatabase_new keeps_User_new keeps_Bill_new
  keeps_Session_new keeps_FinanceServer_new keeps_FinanceRequestHandler_new
  keeps_FinanceClient_new keeps_ClientUI_new : sessions.

Lemma keeps_run_server host port : keeps_sessions (run_server host port).
Proof.
  unfold run_server, SQLiteDatabase.initialize, FinanceServer.start.
  auto 20 with sessions.
Qed.

Lemma keeps_run_client host port : keeps_sessions (run_client host port).
Proof.
  unfold run_client, FinanceClient.connect, ClientUI.run, ClientUI._login_flow,
    ClientUI._main_menu.
  auto 20 with sessions.
Qed.

Lemma keeps_main argv : keeps_sessions (main argv).
Proof.
  unfold main. apply keeps_call. apply keeps_bind; [apply keeps_parse_args |].
  intros args. apply keeps_bind; [apply keeps_getattr |]. intros mode.
  destruct (value_eq_str mode "server");
    (apply keeps_bind; [apply keeps_getattr |]; intros host;
     apply keeps_bind; [apply keeps_getattr |]; intros port).
  - apply keeps_run_server.
  - apply keeps_run_client.
Qed.

Lemma keeps_run op : keeps_sessions (run op).
Proof.
  destruct op; simpl;
    try (apply keeps_void);
    auto using keeps_run_server, keeps_run_client, keeps_main with sessions;
    try (unfold User.__init__, Bill.__init__, Session.__init__,
           FinanceServer.__init__, FinanceRequestHandler.__init__,
           FinanceClient.__init__, ClientUI.__init__,
           SQLiteDatabase.initialize, SQLiteDatabase.authenticate,
           SQLiteDatabase.fetch_user_records, SQLiteDatabase.fetch_all_records,
           SQLiteDatabase.upsert_record, SQLiteDatabase.list_users,
           SQLiteDatabase.create_user, FinanceServer.start, FinanceServer.stop,
           FinanceRequestHandler.dispatch, FinanceRequestHandler._handle_login,
           FinanceRequestHandler._handle_logout, FinanceRequestHandler._handle_fetch,
           FinanceRequestHandler._handle_update,
           FinanceRequestHandler._handle_admin_actions,
           FinanceRequestHandler._require_login, FinanceClient.connect,
           FinanceClient.login, FinanceClient.logout, FinanceClient.fetch_records,
           FinanceClient.update_record, FinanceClient.list_users,
           FinanceClient.create_user, ClientUI.run, ClientUI._login_flow,
           ClientUI._main_menu;
         auto 20 with sessions).
  - intros w. unfold SQLiteDatabase.__init__. apply keeps_call.
    apply keeps_setattr. left. discriminate.
  - intros w. apply (keeps_main _ w).
Qed.

(** The worlds a sequence of operations leads through. *)
Definition run_all (ops : list operation) (w : World) : World :=
  foldl (λ w op, (run op w).1) w ops.

Lemma sessions_none_kept w h' :
  sessions_none w → sessions_kept (heap w) h' →
  ∀ l o, h' !! l = Some o → has_session_field o → session_of o = Some VNone.
Proof.
  intros Hw [K N] l o' Hl Hf.
  destruct (heap w !! l) as [o|] eqn:Ho.
  - destruct (K l o Ho) as (o2 & H2 & Hc & Hs).
    assert (o2 = o') as -> by congruence.
    assert (session_of o = Some VNone).
    { apply (Hw l o Ho). unfold has_session_field in *. by rewrite <- Hc. }
    destruct Hs; congruence.
  - by apply (N l o').
Qed.

(** C8: a new [FinanceRequestHandler] or [ClientUI] has [session] [None];
    no operation of the module gives any instance a session other than the
    one it had or [None], so from a heap without sessions, in particular
    from the empty heap, every sequence of operations leads to a heap
    without sessions. *)
Theorem session_stays_None :
  (∀ storage w,
     (FinanceRequestHandler.new storage w).2 = Return (VRef (length (heap w)))
     ∧ heap (FinanceRequestHandler.new storage w).1 !! length (heap w) ≫= session_of
       = Some VNone)
  ∧ (∀ client w,
       (ClientUI.new client w).2 = Return (VRef (length (heap w)))
       ∧ heap (ClientUI.new client w).1 !! length (heap w) ≫= session_of
         = Some VNone)
  ∧ (∀ op w, sessions_kept (heap w) (heap (run op w).1))
  ∧ (∀ op w, sessions_none w → sessions_none (run op w).1)
  ∧ (∀ ops w, heap w = [] → sessions_none (run_all ops w)).
Proof.
  assert (∀ op w, sessions_none w → sessions_none (run op w).1) as Hstep.
  { intros op w Hw l o. apply (sessions_none_kept w); [done | apply keeps_run]. }
  repeat split.
  - by rewrite FinanceRequestHandler_new_spec.
  - rewrite FinanceRequestHandler_new_spec. simpl.
    by rewrite list_lookup_middle.
  - by rewrite ClientUI_new_spec.
  - rewrite ClientUI_new_spec. simpl. by rewrite list_lookup_middle.
  - apply keeps_run.
  - apply keeps_run.
  - exact Hstep.
  - intros ops w Hw. assert (sessions_none w) as Hn.
    { intros l o Hl. rewrite Hw in Hl. done. }
    clear Hw. revert w Hn. induction ops as [|op ops IH]; intros w Hn; [done |].
    simpl. apply IH, Hstep, Hn.
Qed.

(** ** The entry point *)

Lemma run_server_spec host port w :
  run_server host port w
  = ({| heap := heap w ++ [{| cls := "SQLiteDatabase";
                              attrs := <["path" := VPath (DB_PATH w)]> ∅ |}];
        trace := trace w ++
                 [Call "run_server" [host; port];
                  Call "SQLiteDatabase.__init__"
                       [VRef (length (heap w)); VPath (DB_PATH w)];
                  Call "SQLiteDatabase.initialize" [VRef (length (heap w))]];
        sys_argv := sys_argv w; __file__ := __file__ w |},
     Raise (NotImplementedError (Some "创建 users 与 transactions 两张表"))).
Proof.
  unfold run_server, call. unfold mbind at 1, M_bind.
  rewrite SQLiteDatabase_new_spec.
  unfold mbind, M_bind, SQLiteDatabase.initialize, call, raise, constructed,
    set_trace, DB_PATH.
  simpl. rewrite <- !app_assoc. reflexivity.
Qed.

Lemma run_client_spec host port w :
  run_client host port w
  = ({| heap := heap w ++ [{| cls := "FinanceClient";
                              attrs := <["port" := port]> (<["host" := host]> ∅) |}];
        trace := trace w ++
                 [Call "run_client" [host; port];
                  Call "FinanceClient.__init__" [VRef (length (heap w)); host; port];
                  Call "FinanceClient.connect" [VRef (length (heap w))]];
        sys_argv := sys_argv w; __file__ := __file__ w |},
     Raise (NotImplementedError (Some "建立 TCP/HTTP 连接"))).
Proof.
  unfold run_client, call. unfold mbind at 1, M_bind.
  rewrite FinanceClient_new_spec.
  unfold mbind, M_bind, FinanceClient.connect, call, raise, constructed,
    set_trace.
  simpl. rewrite <- !app_assoc. reflexivity.
Qed.

(** The world in which [main] calls [run_server] or [run_client]. *)
Definition parsed (w : World) (argv : option (list string)) : World :=
  set_trace w (trace w ++ [Call "main" [none_or_list argv];
                           Call "parse_args" [none_or_list argv]]).

Lemma main_parsed argv w args :
  (parse_args argv w).2 = Return args →
  main argv w
  = (mode ← getattr args "mode";
     if value_eq_str mode "server" then
       host ← getattr args "host";
       port ← getattr args "port";
       run_server host port
     else
       host ← getattr args "host";
       port ← getattr args "port";
       run_client host port) (parsed w argv).
Proof.
  intros Hp. unfold main, call. unfold mbind at 1, M_bind.
  unfold parse_args, call in Hp |- *. cbn [fst snd] in Hp |- *.
  cbn [sys_argv set_trace] in Hp |- *. rewrite Hp.
  unfold parsed, set_trace. cbn [heap trace sys_argv __file__].
  rewrite <- app_assoc. reflexivity.
Qed.

Lemma main_no_return argv w result : (main argv w).2 ≠ Return result.
Proof.
  unfold main, call. unfold mbind at 1, M_bind.
  destruct (parse_args argv _) as [w1 [args | e]]; [| discriminate].
  unfold getattr. unfold mbind at 1, M_bind.
  destruct (args !! "mode") as [mode|]; [| discriminate]. simpl.
  destruct (value_eq_str mode "server");
    (unfold mbind at 1, M_bind; destruct (args !! "host") as [host|];
     [| discriminate]; simpl;
     unfold mbind at 1, M_bind; destruct (args !! "port") as [port|];
     [| discriminate]; simpl).
  - rewrite run_server_spec. discriminate.
  - rewrite run_client_spec. discriminate.
Qed.

(** ** Facts about the argparse model *)

Module argparse_facts.
Import argparse.

(** *** Pattern matching *)

(** The least number of characters a group takes. *)
Fixpoint min_len (r : list atom) : nat :=
  match r with
  | [] => 0
  | One _ :: r' => S (min_len r')
  | Star _ :: r' => min_len r'
  end.

Lemma match_star_inv {B} cls (s : list pat) n (k : nat → list pat → option B) b :
  match_star cls s n k = Some b →
  ∃ m rest, k (n + m) rest = Some b ∧ length s = m + length rest.
Proof.
  revert n. induction s as [|c s IH]; intros n H; simpl in H.
  - exists 0, []. by rewrite Nat.add_0_r.
  - destruct (in_class c cls).
    + destruct (match_star cls s (S n) k) as [b'|] eqn:E.
      * injection H as ->. apply IH in E as (m & rest & Hk & Hl).
        exists (S m), rest. rewrite Nat.add_succ_r. simpl. auto.
      * exists 0, (c :: s). by rewrite Nat.add_0_r.
    + exists 0, (c :: s). by rewrite Nat.add_0_r.
Qed.

Lemma match_atoms_inv {B} r : ∀ (s : list pat) n (k : nat → list pat → option B) b,
  match_atoms r s n k = Some b →
  ∃ m rest, k (n + m) rest = Some b ∧ length s = m + length rest ∧ min_len r ≤ m.
Proof.
  induction r as [|[cls|cls] r IH]; intros s n k b H; simpl in H.
  - exists 0, s. rewrite Nat.add_0_r. auto with lia.
  - destruct s as [|c s]; [done |]. destruct (in_class c cls); [| done].
    apply IH in H as (m & rest & Hk & Hl & Hm).
    exists (S m), rest. rewrite Nat.add_succ_r. simpl. auto with lia.
  - apply match_star_inv in H as (m1 & rest1 & H & Hl1).
    apply IH in H as (m & rest & Hk & Hl & Hm).
    exists (m1 + m), rest. rewrite Nat.add_assoc. simpl. auto with lia.
Qed.

Lemma match_groups_inv gs : ∀ s counts,
  match_groups gs s = Some counts →
  Forall2 (λ g c, min_len g ≤ c) gs counts ∧ sum_list counts ≤ length s.
Proof.
  induction gs as [|g gs IH]; intros s counts H; simpl in H.
  - injection H as <-. split; [constructor | simpl; lia].
  - apply match_atoms_inv in H as (m & rest & Hk & Hl & Hm). simpl in Hk.
    destruct (match_groups gs rest) as [counts'|] eqn:E; [| done].
    injection Hk as <-. apply IH in E as [HF Hs].
    split; [by constructor | simpl; lia].
Qed.

(** A starred class that holds every character left takes them all, when
    what follows accepts the end of the input. *)
Lemma match_star_all {B} cls (s : list pat) n (k : nat → list pat → option B) b :
  Forall (λ c, in_class c cls = true) s →
  k (n + length s) [] = Some b →
  match_star cls s n k = Some b.
Proof.
  intros Hs. revert n. induction Hs as [|c s Hc Hs IH]; intros n Hk; simpl.
  - by rewrite Nat.add_0_r in Hk.
  - rewrite Hc, IH; [done |]. simpl in Hk. by rewrite Nat.add_succ_r in Hk.
Qed.

(** *** Option strings and tokens *)

Lemma lookup_str_elem {A} k (l : list (string * A)) a :
  lookup_str k l = Some a → (k, a) ∈ l.
Proof.
  induction l as [|[k' a'] l IH]; simpl; [done |].
  destruct (String.eqb_spec k' k) as [-> | Hne].
  - intros [= ->]. left.
  - intros H. right. auto.
Qed.

(** An action that has an option string in the parser. *)
Definition known (p : ArgumentParser) (a : ActionRef) : Prop :=
  ∃ s, (s, a) ∈ _option_string_actions p.

Lemma lookup_str_known p k a :
  lookup_str k (_option_string_actions p) = Some a → known p a.
Proof. intros H. exists k. by apply lookup_str_elem. Qed.

Lemma known_optional p a :
  known p a → a ∈ indexed_actions p ∧ option_strings a.2 ≠ [].
Proof.
  intros [s Hs]. unfold _option_string_actions in Hs.
  apply list_elem_of_In, in_flat_map in Hs as (ia & Hia & Hin).
  apply in_map_iff in Hin as (s' & Heq & Hs'). injection Heq as -> <-.
  split; [by apply list_elem_of_In |].
  by destruct (option_strings ia.2).
Qed.

Lemma indexed_actions_lookup p i a :
  (i, a) ∈ indexed_actions p ↔ _actions p !! i = Some a.
Proof.
  unfold indexed_actions. rewrite elem_of_lookup_imap. split.
  - intros (j & y & [= -> ->] & H). done.
  - intros H. by exists i, a.
Qed.

Definition tuple_known (p : ArgumentParser) (t : option_tuple) : Prop :=
  match t.1.1 with
  | Some a => known p a
  | None => True
  end.

Lemma get_option_tuples_inv p s ts :
  _get_option_tuples p s = Return ts →
  Forall (λ t : option_tuple, ∃ a, t.1.1 = Some a ∧ known p a) ts.
Proof.
  unfold _get_option_tuples. destruct s as [|c0 [|c1 r]]; [done | done |].
  destruct (is_prefix_char c0 && is_prefix_char c1).
  - destruct (split1 "=" _) as [[a b]|]; intros [= <-];
      apply Forall_forall; intros t Ht;
      apply list_elem_of_omap in Ht as ([s' ia] & Hin & Hf);
      (destruct (startswith _ _); [| done]);
      injection Hf as <-; exists ia; (split; [done | by exists s']).
  - destruct (is_prefix_char c0 && negb (is_prefix_char c1)); [| done].
    intros [= <-]. apply Forall_forall. intros t Ht.
    apply list_elem_of_omap in Ht as ([s' ia] & Hin & Hf).
    destruct (String.eqb _ _).
    + injection Hf as <-. exists ia. split; [done | by exists s'].
    + destruct (startswith _ _); [| done].
      injection Hf as <-. exists ia. split; [done | by exists s'].
Qed.

Lemma get_option_tuples_return p c1 r :
  ∃ ts, _get_option_tuples p (String "-" (String c1 r)) = Return ts.
Proof.
  unfold _get_option_tuples.
  replace (is_prefix_char "-") with true by reflexivity.
  destruct (is_prefix_char c1); cbn [andb negb].
  - destruct (split1 "=" _) as [[a b]|]; eauto.
  - eauto.
Qed.

Lemma is_prefix_char_dash c : is_prefix_char c = true → c = "-"%char.
Proof. unfold is_prefix_char. intros H. by apply Ascii.eqb_eq in H. Qed.

(** What [_parse_optional] does once the string is known to start with a
    dash and not to be an option string itself. *)
Ltac parse_optional_tail Hts :=
  lazymatch goal with
  | |- context [_get_option_tuples ?p ?s] =>
      destruct (_get_option_tuples p s) as [[|? [|? ?]] | ?] eqn:Hts;
      cbn [mbind outcome_bind]
  end.

Lemma parse_optional_inv p s t :
  _parse_optional p s = Return (Some t) → tuple_known p t.
Proof.
  unfold _parse_optional, tuple_known. destruct s as [|c0 r]; [done |].
  destruct (is_prefix_char c0) eqn:Hc0; cbn [negb]; [| done].
  destruct (lookup_str (String c0 r) _) as [a|] eqn:Hl.
  { intros [= <-]. simpl. by eapply lookup_str_known. }
  destruct (String.length (String c0 r) =? 1); [done |].
  assert (∀ ts x, _get_option_tuples p (String c0 r) = Return ts →
                  ts = [x] → tuple_known p x) as Hone.
  { intros ts x Hts ->. apply get_option_tuples_inv, Forall_inv in Hts
      as (a & Ha & Hk). unfold tuple_known. by rewrite Ha. }
  destruct (split1 "=" (String c0 r)) as [[os ea]|].
  - destruct (lookup_str os _) as [a|] eqn:Hl2.
    { intros [= <-]. simpl. by eapply lookup_str_known. }
    parse_optional_tail Hts; try done.
    + repeat case_match; try done; by intros [= <-].
    + intros [= <-]. by eapply Hone.
  - parse_optional_tail Hts; try done.
    + repeat case_match; try done; by intros [= <-].
    + intros [= <-]. by eapply Hone.
Qed.

Lemma parse_optional_exn p s e :
  _parse_optional p s = Raise e → e = SystemExit 2.
Proof.
  unfold _parse_optional. destruct s as [|c0 r]; [done |].
  destruct (is_prefix_char c0) eqn:Hc0; cbn [negb]; [| done].
  apply is_prefix_char_dash in Hc0 as ->.
  destruct (lookup_str (String "-" r) _) as [a|]; [done |].
  destruct r as [|c1 r]; [done |].
  replace (String.length (String "-" (String c1 r)) =? 1) with false by done.
  destruct (get_option_tuples_return p c1 r) as [ts Hts].
  destruct (split1 "=" (String "-" (String c1 r))) as [[os ea]|].
  - destruct (lookup_str os _) as [a|]; [done |].
    rewrite Hts. cbn [mbind outcome_bind]. destruct ts as [|t1 [|t2 ts]].
    + repeat case_match; done.
    + done.
    + unfold error. by intros [= <-].
  - rewrite Hts. cbn [mbind outcome_bind]. destruct ts as [|t1 [|t2 ts]].
    + repeat case_match; done.
    + done.
    + unfold error. by intros [= <-].
Qed.

(** A token of a classified argument list. *)
Definition token_ok (p : ArgumentParser) (t : token) : Prop :=
  match t with
  | (pO, Some ot) => tuple_known p ot
  | (pA, None) | (pDash, None) => True
  | _ => False
  end.

Lemma classify_inv p arg_strings : ∀ tokens,
  classify p arg_strings = Return tokens →
  length tokens = length arg_strings ∧ Forall (token_ok p) tokens.
Proof.
  induction arg_strings as [|a rest IH]; intros tokens H; simpl in H.
  - by injection H as <-.
  - destruct (String.eqb a "--").
    + injection H as <-. simpl. rewrite length_map. split; [done |].
      constructor; [done |]. apply Forall_forall. intros t Ht.
      apply list_elem_of_fmap in Ht as (x & -> & _). done.
    + destruct (_parse_optional p a) as [ot | e] eqn:Ho; simpl in H; [| done].
      destruct (classify p rest) as [toks | e] eqn:Hc; simpl in H; [| done].
      injection H as <-. destruct (IH toks eq_refl) as [Hl HF].
      split; [simpl; by rewrite Hl |].
      constructor; [| done]. destruct ot as [t|]; [| done].
      simpl. by eapply parse_optional_inv.
Qed.

Lemma classify_exn p arg_strings e :
  classify p arg_strings = Raise e → e = SystemExit 2.
Proof.
  induction arg_strings as [|a rest IH]; simpl; [done |].
  destruct (String.eqb a "--"); [done |].
  destruct (_parse_optional p a) as [ot | e'] eqn:Ho; simpl.
  - destruct (classify p rest) as [toks | e'']; simpl; [done |].
    intros [= <-]. by apply IH.
  - intros [= <-]. by eapply parse_optional_exn.
Qed.

(** *** Converting values *)

(** The ways argparse leaves: [exit(0)] after the help, [exit(2)] after an
    error. *)
Definition exits (e : exn) : Prop := e = SystemExit 0 ∨ e = SystemExit 2.

(** What may travel up to [parse_known_args]: an exit, or an
    [ArgumentError] that it turns into [exit(2)]. *)
Definition arg_exn (e : exn) : Prop := exits e ∨ ∃ m, e = ArgumentError m.

Lemma get_value_exn a s e : _get_value a s = Raise e → ∃ m, e = ArgumentError m.
Proof. unfold _get_value. destruct (type a s); [done |]. intros [= <-]. eauto. Qed.

Lemma check_value_exn a v e :
  _check_value a v = Raise e → ∃ m, e = ArgumentError m.
Proof.
  unfold _check_value. destruct (choices a); [| done].
  case_match; [done |]. intros [= <-]. eauto.
Qed.

Lemma mapM_exn {A B} (f : A → outcome B) (P : exn → Prop) l e :
  (∀ x e, f x = Raise e → P e) → mapM f l = Raise e → P e.
Proof.
  intros Hf. induction l as [|x l IH]; simpl; [done |].
  destruct (f x) as [y | e'] eqn:Hx; simpl.
  - destruct (mapM f l) as [ys | e'']; simpl; [done |].
    intros [= <-]. by apply IH.
  - intros [= <-]. by eapply Hf.
Qed.

Lemma mapM_length {A B} (f : A → outcome B) l : ∀ ys,
  mapM f l = Return ys → length ys = length l.
Proof.
  induction l as [|x l IH]; intros ys; simpl.
  - by intros [= <-].
  - destruct (f x) as [y | e']; simpl; [| done].
    destruct (mapM f l) as [ys' | e'']; simpl; [| done].
    intros [= <-]. simpl. by rewrite (IH ys').
Qed.

Lemma get_values_exn a args e :
  (nargs a = PARSER → args ≠ []) →
  _get_values a args = Raise e → ∃ m, e = ArgumentError m.
Proof.
  intros Hargs. unfold _get_values.
  assert (∀ l e, mapM (_get_value a) l = Raise e → ∃ m, e = ArgumentError m) as Hm.
  { intros l e'.
    apply (mapM_exn (_get_value a) (λ e, ∃ m, e = ArgumentError m)).
    apply get_value_exn. }
  assert (∀ l e, mapM (_check_value a) l = Raise e → ∃ m, e = ArgumentError m) as Hc.
  { intros l e'.
    apply (mapM_exn (_check_value a) (λ e, ∃ m, e = ArgumentError m)).
    apply check_value_exn. }
  assert (∀ l e,
    (vs ← mapM (_get_value a) l; mapM (_check_value a) vs;; Return (VList vs))
    = Raise e → ∃ m, e = ArgumentError m) as Hlist.
  { intros l e'. destruct (mapM (_get_value a) l) as [vs | e1] eqn:H1; simpl.
    - destruct (mapM (_check_value a) vs) as [us | e2] eqn:H2; simpl; [done |].
      intros [= <-]. eauto.
    - intros [= <-]. eauto. }
  destruct (nargs a) eqn:Hn.
  - destruct (remove_first "--" args) as [|s [|s' l]]; [apply Hlist | | apply Hlist].
    destruct (_get_value a s) as [v | e1] eqn:H1; simpl.
    + destruct (_check_value a v) as [u | e2] eqn:H2; simpl; [done |].
      intros [= <-]. by eapply check_value_exn.
    + intros [= <-]. by eapply get_value_exn.
  - apply Hlist.
  - destruct (mapM (_get_value a) args) as [vs | e1] eqn:H1; simpl.
    + apply mapM_length in H1. destruct vs as [|v0 vs].
      * destruct args; [by destruct Hargs | done].
      * destruct (_check_value a v0) as [u | e2] eqn:H2; simpl; [done |].
        intros [= <-]. by eapply check_value_exn.
    + intros [= <-]. eauto.
Qed.

(** *** Matching positionals, option indices *)

Lemma zip_Forall {A B} (P : A → B → Prop) (Q : A → Prop) (l : list A) :
  ∀ k : list B,
  Forall Q l → Forall2 P (take (length k) l) k →
  Forall (λ m : A * B, Q m.1 ∧ P m.1 m.2) (zip l k).
Proof.
  induction l as [|x l IH]; intros [|y k] HQ HP; simpl in *; try constructor.
  - apply Forall_cons in HQ as [? ?]. apply Forall2_cons in HP as [? ?]. done.
  - apply Forall_cons in HQ as [? ?]. apply Forall2_cons in HP as [? ?]. auto.
Qed.

Lemma Forall2_map_inv {A B C} (f : A → B) (P : B → C → Prop) (l : list A) :
  ∀ k, Forall2 P (map f l) k → Forall2 (λ a c, P (f a) c) l k.
Proof.
  induction l as [|x l IH]; intros k H; simpl in H.
  - apply Forall2_nil_inv_l in H as ->. constructor.
  - apply Forall2_cons_inv_l in H as (y & k' & ? & ? & ->). constructor; auto.
Qed.

Lemma partial_upto_inv i actions pattern :
  let counts := _match_arguments_partial_upto i actions pattern in
  length counts ≤ length actions
  ∧ Forall2 (λ (a : ActionRef) c, min_len (_get_nargs_pattern a.2) ≤ c)
            (take (length counts) actions) counts
  ∧ sum_list counts ≤ length pattern.
Proof.
  induction i as [|i IH]; simpl.
  - split; [lia |]. split; [constructor | lia].
  - destruct (match_groups _ pattern) as [counts|] eqn:E; [| apply IH].
    apply match_groups_inv in E as [HF Hs]. apply Forall2_map_inv in HF.
    pose proof (Forall2_length _ _ _ HF) as Hl.
    rewrite length_take in Hl. split; [lia |]. split; [| done].
    rewrite <- Hl. destruct (decide (S i ≤ length actions)).
    + by rewrite Nat.min_l.
    + rewrite Nat.min_r by lia. rewrite firstn_all.
      by rewrite take_ge in HF by lia.
Qed.

Lemma foldr_min_spec i rest :
  foldr Nat.min i rest ∈ i :: rest ∧ ∀ x, x ∈ i :: rest → foldr Nat.min i rest ≤ x.
Proof.
  induction rest as [|y rest [IHe IHl]]; simpl.
  - split; [left |]. intros x Hx. apply list_elem_of_singleton in Hx. lia.
  - split.
    + destruct (Nat.min_spec y (foldr Nat.min i rest)) as [[_ ->] | [_ ->]].
      * right. left.
      * apply elem_of_cons in IHe as [-> | ?]; [left | right; by right].
    + intros x Hx. apply elem_of_cons in Hx as [-> | Hx].
      * specialize (IHl i). pose proof (IHl ltac:(left)). lia.
      * apply elem_of_cons in Hx as [-> | Hx]; [lia |].
        specialize (IHl x). pose proof (IHl ltac:(by right)). lia.
Qed.

Section indices.
Context (tokens : list token).

Lemma option_string_indices_elem i t :
  (i, t) ∈ option_string_indices tokens ↔ option_tuple_at tokens i = Some t.
Proof.
  unfold option_string_indices, option_tuple_at. rewrite list_elem_of_omap. split.
  - intros ([j tok] & Hin & Hf). apply elem_of_lookup_imap in Hin
      as (j' & tok' & [= -> ->] & Hj). simpl in Hf.
    destruct tok'.2 as [u|] eqn:Hu; [| done]. injection Hf as -> ->.
    rewrite Hj. done.
  - destruct (tokens !! i) as [tok|] eqn:Hi; [| done]. simpl. intros Ht.
    exists (i, tok). split; [apply elem_of_lookup_imap; by exists i, tok |].
    simpl. by rewrite Ht.
Qed.

Lemma option_tuple_at_lt i t :
  option_tuple_at tokens i = Some t → i < length tokens.
Proof.
  unfold option_tuple_at. destruct (tokens !! i) eqn:Hi; [| done].
  intros _. by eapply lookup_lt_Some.
Qed.

Lemma max_option_string_index_spec start :
  (Z.of_nat start <=? max_option_string_index tokens)%Z = true
  ↔ ∃ i t, start ≤ i ∧ option_tuple_at tokens i = Some t.
Proof.
  unfold max_option_string_index.
  assert (∀ l : list (nat * option_tuple),
    (Z.of_nat start ≤ foldr (λ it, Z.max (Z.of_nat it.1)) (-1) l)%Z
    ↔ ∃ i t, start ≤ i ∧ (i, t) ∈ l) as Hl.
  { induction l as [|[j u] l IH]; simpl.
    - split; [lia |]. intros (i & t & _ & Hin). by apply elem_of_nil in Hin.
    - split.
      + intros H. destruct (decide (start ≤ j)).
        * exists j, u. split; [done | left].
        * destruct IH as [IH _]. destruct IH as (i & t & ? & ?); [lia |].
          exists i, t. split; [done | by right].
      + intros (i & t & Hi & Hin). apply elem_of_cons in Hin as [[= -> ->] | Hin].
        * lia.
        * destruct IH as [_ IH]. specialize (IH ltac:(eauto)). lia. }
  rewrite Z.leb_le, Hl. by setoid_rewrite option_string_indices_elem.
Qed.

Lemma next_option_string_index_spec start :
  (Z.of_nat start <=? max_option_string_index tokens)%Z = true →
  ∃ j, next_option_string_index tokens start = Return j
       ∧ start ≤ j ∧ is_Some (option_tuple_at tokens j)
       ∧ ∀ i t, start ≤ i → option_tuple_at tokens i = Some t → j ≤ i.
Proof.
  intros (i0 & t0 & Hi0 & Ht0)%max_option_string_index_spec.
  unfold next_option_string_index.
  assert (∀ x, x ∈ filter (λ i : nat, start ≤ i) (option_string_indices tokens).*1
               ↔ start ≤ x ∧ is_Some (option_tuple_at tokens x)) as Hf.
  { intros x. rewrite list_elem_of_filter, list_elem_of_fmap. split.
    - intros [? ([j u] & -> & Hin)]. split; [done |].
      apply option_string_indices_elem in Hin. by eexists.
    - intros [? [u Hu]]. split; [done |]. exists (x, u).
      split; [done |]. by apply option_string_indices_elem. }
  destruct (filter _ _) as [|j rest] eqn:E.
  { assert (i0 ∈ @nil nat) as Hin by (apply Hf; eauto). by apply elem_of_nil in Hin. }
  destruct (foldr_min_spec j rest) as [He Hm].
  exists (foldr Nat.min j rest). split; [done |].
  apply Hf in He as [? ?]. split; [done |]. split; [done |].
  intros i t Hi Ht. apply Hm, Hf. eauto.
Qed.

End indices.

(** *** The loop and its fuel *)

Section loop.
Context (p : ArgumentParser) (arg_strings : list string) (tokens : list token).

Lemma consume_loop_past_end fuel st start :
  length tokens ≤ start →
  consume_loop p arg_strings tokens fuel st start = Return (st, start).
Proof.
  intros Hle.
  assert ((Z.of_nat start <=? max_option_string_index tokens)%Z = false) as Hc.
  { apply not_true_is_false. intros (i & t & Hi & Ht)%max_option_string_index_spec.
    apply option_tuple_at_lt in Ht. lia. }
  destruct fuel; simpl; by rewrite Hc.
Qed.

Lemma match_following_progress i a os ts ts' stop :
  match_following arg_strings tokens i a os ts = Return (ts', stop) → i < stop.
Proof.
  unfold match_following. destruct (_match_argument _ _); [| done].
  cbn [mbind outcome_bind]. intros [= <- <-]. lia.
Qed.

Lemma match_explicit_progress ea : ∀ i a os ts ts' stop,
  match_explicit p arg_strings tokens i a os ea ts = Return (ts', stop) → i < stop.
Proof.
  induction ea as [|c ea IH]; intros i a os ts ts' stop; simpl.
  - destruct (_match_argument _ _) as [n|]; [| done]. cbn [mbind outcome_bind].
    destruct (n =? 1); [| done]. intros [= <- <-]. lia.
  - destruct (_match_argument _ _) as [n|]; [| done]. cbn [mbind outcome_bind].
    destruct ((n =? 0) && _).
    + destruct (lookup_str _ _) as [a'|]; [| done].
      destruct ea; [apply match_following_progress | apply IH].
    + destruct (n =? 1); [| done]. intros [= <- <-]. lia.
Qed.

Lemma consume_optional_progress st i st' stop :
  consume_optional p arg_strings tokens st i = Return (st', stop) → i < stop.
Proof.
  unfold consume_optional.
  destruct (option_tuple_at tokens i) as [[[[a|] os] ea]|]; [| | done].
  - destruct (match ea with Some _ => _ | None => _ end) as [[ts stop']|] eqn:Hm;
      [| done].
    cbn [mbind outcome_bind]. destruct (take_actions st ts); [| done].
    cbn [mbind outcome_bind]. intros [= <- <-].
    destruct ea; [by eapply match_explicit_progress
                 | by eapply match_following_progress].
  - intros [= <- <-]. lia.
Qed.

Lemma consume_each_stop matched : ∀ st start st' stop,
  consume_each arg_strings st start matched = Return (st', stop) → start ≤ stop.
Proof.
  induction matched as [|[a c] matched IH]; intros st start st' stop; simpl.
  - intros [= <- <-]. lia.
  - destruct (take_action st a _) as [st1|]; [| done]. cbn [mbind outcome_bind].
    intros H%IH. lia.
Qed.

Lemma consume_positionals_stop st start st' stop :
  consume_positionals arg_strings tokens st start = Return (st', stop) →
  start ≤ stop.
Proof.
  unfold consume_positionals.
  destruct (consume_each _ _ _ _) as [[st1 stop1]|] eqn:He; [| done].
  cbn [mbind outcome_bind]. intros [= <- <-]. by eapply consume_each_stop.
Qed.

(** Each round of the loop moves [start_index] forward, so fuel beyond
    the number of strings left changes nothing: the loop of
    [_parse_known_args], which starts with [length arg_strings], ends
    because no option is left, never for lack of fuel. *)
Lemma consume_loop_fuel fuel : ∀ k st start,
  length tokens ≤ start + fuel →
  consume_loop p arg_strings tokens (fuel + k) st start
  = consume_loop p arg_strings tokens fuel st start.
Proof.
  induction fuel as [|fuel IH]; intros k st start Hle.
  { by rewrite !consume_loop_past_end by lia. }
  simpl. destruct (_ <=? _)%Z eqn:Hc; [| done].
  destruct (next_option_string_index_spec tokens start Hc)
    as (j & -> & Hj & Hsome & Hmin).
  cbn [mbind outcome_bind].
  assert (∀ st1 start1, start ≤ start1 →
    (let '(st2, start2) :=
       match option_tuple_at tokens start1 with
       | Some _ => (st1, start1)
       | None => (add_extras st1 (take (j - start1) (drop start1 arg_strings)), j)
       end in
     consume_optional p arg_strings tokens st2 start2
     ≫= λ '(st3, start3), consume_loop p arg_strings tokens (fuel + k) st3 start3)
    = (let '(st2, start2) :=
         match option_tuple_at tokens start1 with
         | Some _ => (st1, start1)
         | None => (add_extras st1 (take (j - start1) (drop start1 arg_strings)), j)
         end in
       consume_optional p arg_strings tokens st2 start2
       ≫= λ '(st3, start3), consume_loop p arg_strings tokens fuel st3 start3))
    as Hopt.
  { intros st1 start1 Hle1.
    destruct (option_tuple_at tokens start1);
      (destruct (consume_optional _ _ _ _ _) as [[st3 start3]|] eqn:Ho;
       cbn [mbind outcome_bind]; [| done];
       apply consume_optional_progress in Ho; apply IH; lia). }
  case_bool_decide.
  - destruct (consume_positionals _ _ st start) as [[st1 e1]|] eqn:Hcp;
      cbn [mbind outcome_bind]; [| done].
    apply consume_positionals_stop in Hcp.
    case_bool_decide.
    + apply IH. lia.
    + apply Hopt. lia.
  - cbn [mbind outcome_bind]. by apply Hopt.
Qed.

End loop.

(** *** The closures of [_parse_known_args], for any parser *)

Section generic.
Context (I : Namespace → Prop) (p : ArgumentParser).

(** An action that keeps the property [I] of namespaces: when called, it
    returns a namespace with [I] or leaves by an exit or an
    [ArgumentError]; its converted default may be stored; and [PARSER] is
    the [nargs] of positionals only. *)
Definition action_ok (a : Action) : Prop :=
  (∀ ns args v, I ns → _get_values a args = Return v →
     match call a ns v with
     | Return ns' => I ns'
     | Raise e => arg_exn e
     end)
  ∧ (∀ ns d s v, I ns → dest a = Some d → default a = Some (VStr s) →
       type a s = Some v → I (<[d := v]> ns))
  ∧ (nargs a = PARSER → option_strings a = []).

Definition parser_ok : Prop := Forall action_ok (_actions p).

Definition state_ok (st : state) : Prop :=
  I (namespace st) ∧ Forall (λ a, a ∈ indexed_actions p) (positionals st).

Definition tuples_known (ts : list action_tuple) : Prop :=
  Forall (λ t : action_tuple, known p t.1.1) ts.

Context (Hp : parser_ok).
Context (arg_strings : list string) (tokens : list token).
Context (Hlen : length tokens = length arg_strings).
Context (Htok : Forall (token_ok p) tokens).

Lemma indexed_ok a : a ∈ indexed_actions p → action_ok a.2.
Proof.
  destruct a as [i a]. rewrite indexed_actions_lookup. intros Hi.
  by eapply (Forall_lookup_1 _ _ _ _ Hp).
Qed.

Lemma known_not_parser a : known p a → nargs a.2 ≠ PARSER.
Proof.
  intros Hk HP. apply known_optional in Hk as [Hi Ho].
  apply indexed_ok in Hi as (_ & _ & Hn). auto.
Qed.

Lemma take_action_ok st a args :
  state_ok st → a ∈ indexed_actions p → (nargs a.2 = PARSER → args ≠ []) →
  match take_action st a args with
  | Return st' =>
      state_ok st' ∧ extras st' = extras st ∧ positionals st' = positionals st
  | Raise e => arg_exn e
  end.
Proof.
  intros [HI HP] Ha Hargs. unfold take_action.
  destruct (_get_values a.2 args) as [v | e] eqn:Hv; cbn [mbind outcome_bind].
  - destruct (indexed_ok a Ha) as (Hcall & _ & _).
    specialize (Hcall (namespace st) args v HI Hv).
    change (namespace (add_seen st a.1)) with (namespace st).
    destruct (call a.2 (namespace st) v) as [ns' | e]; cbn [mbind outcome_bind];
      [| done].
    split; [by split | done].
  - right. by eapply get_values_exn.
Qed.

Lemma take_actions_ok ts : ∀ st,
  state_ok st → tuples_known ts →
  match take_actions st ts with
  | Return st' =>
      state_ok st' ∧ extras st' = extras st ∧ positionals st' = positionals st
  | Raise e => arg_exn e
  end.
Proof.
  induction ts as [|[[a args] os] ts IH]; intros st Hst Hts; simpl; [done |].
  apply Forall_cons in Hts as [Ha Hts]. simpl in Ha.
  assert (a ∈ indexed_actions p) as Hin by (by apply known_optional in Ha as [? ?]).
  assert (nargs a.2 = PARSER → args ≠ []) as Hargs.
  { intros HP. by apply known_not_parser in Ha. }
  pose proof (take_action_ok st a args Hst Hin Hargs) as H1.
  destruct (take_action st a args) as [st1 | e]; cbn [mbind outcome_bind];
    [| done].
  destruct H1 as (Hst1 & He1 & Hp1).
  specialize (IH st1 Hst1 Hts). destruct (take_actions st1 ts); [| done].
  destruct IH as (? & ? & ?). split; [done | split; congruence].
Qed.

Lemma match_argument_exn a pattern e :
  _match_argument a pattern = Raise e → ∃ m, e = ArgumentError m.
Proof.
  unfold _match_argument. destruct (match_groups _ _) as [[|n [|? ?]]|];
    try done; intros [= <-]; eauto.
Qed.

Lemma match_following_ok i a os ts :
  known p a → tuples_known ts →
  match match_following arg_strings tokens i a os ts with
  | Return (ts', stop) => tuples_known ts' ∧ i < stop
  | Raise e => arg_exn e
  end.
Proof.
  intros Ha Hts. unfold match_following.
  destruct (_match_argument _ _) as [n | e] eqn:Hm; cbn [mbind outcome_bind].
  - split; [| lia]. apply Forall_app. split; [done |]. by constructor.
  - right. by eapply match_argument_exn.
Qed.

Lemma match_explicit_ok ea : ∀ i a os ts,
  known p a → tuples_known ts →
  match match_explicit p arg_strings tokens i a os ea ts with
  | Return (ts', stop) => tuples_known ts' ∧ i < stop
  | Raise e => arg_exn e
  end.
Proof.
  induction ea as [|c ea IH]; intros i a os ts Ha Hts; simpl.
  - destruct (_match_argument _ _) as [n | e] eqn:Hm; cbn [mbind outcome_bind].
    + destruct (n =? 1).
      * split; [| lia]. apply Forall_app. split; [done |]. by constructor.
      * right. eauto.
    + right. by eapply match_argument_exn.
  - destruct (_match_argument _ _) as [n | e] eqn:Hm; cbn [mbind outcome_bind];
      [| right; by eapply match_argument_exn].
    destruct ((n =? 0) && negb (second_is_prefix_char os)).
    + destruct (lookup_str _ _) as [a' |] eqn:Hl; [| right; eauto].
      apply lookup_str_known in Hl.
      assert (tuples_known (ts ++ [(a, [], os)])) as Hts'.
      { apply Forall_app. split; [done |]. by constructor. }
      destruct ea as [|c' ea'].
      * by apply match_following_ok.
      * by apply IH.
    + destruct (n =? 1).
      * split; [| lia]. apply Forall_app. split; [done |]. by constructor.
      * right. eauto.
Qed.

Lemma option_tuple_at_known i a os ea :
  option_tuple_at tokens i = Some (Some a, os, ea) → known p a.
Proof.
  unfold option_tuple_at. destruct (tokens !! i) as [[pa ot]|] eqn:Hi; [| done].
  simpl. intros ->. eapply Forall_lookup_1 in Htok; [| exact Hi].
  by destruct pa.
Qed.

Lemma consume_optional_ok st i :
  state_ok st → is_Some (option_tuple_at tokens i) →
  match consume_optional p arg_strings tokens st i with
  | Return (st', stop) =>
      state_ok st' ∧ i < stop ∧ (∃ l, extras st' = extras st ++ l)
      ∧ positionals st' = positionals st
  | Raise e => arg_exn e
  end.
Proof.
  intros Hst [[[[a|] os] ea] Hi]; unfold consume_optional; rewrite Hi.
  - apply option_tuple_at_known in Hi.
    assert (match (match ea with
                   | Some ea => match_explicit p arg_strings tokens i a os ea []
                   | None => match_following arg_strings tokens i a os []
                   end) with
            | Return (ts', stop) => tuples_known ts' ∧ i < stop
            | Raise e => arg_exn e
            end) as Hm.
    { destruct ea; [apply match_explicit_ok | apply match_following_ok];
        first [done | constructor]. }
    destruct (match ea with Some _ => _ | None => _ end) as [[ts stop] | e];
      cbn [mbind outcome_bind]; [| done].
    destruct Hm as [Hts Hlt].
    pose proof (take_actions_ok ts st Hst Hts) as Ht.
    destruct (take_actions st ts) as [st' | e]; cbn [mbind outcome_bind]; [| done].
    destruct Ht as (? & He & ?). split; [done |]. split; [done |].
    split; [| done]. exists []. by rewrite app_nil_r.
  - split; [apply Hst |]. split; [lia |]. split; [by eexists | done].
Qed.

Lemma parser_min_len (a : ActionRef) :
  a ∈ indexed_actions p → nargs a.2 = PARSER →
  min_len (_get_nargs_pattern a.2) = 1.
Proof.
  intros Ha Hn. apply indexed_ok in Ha as (_ & _ & Ho).
  unfold _get_nargs_pattern. by rewrite Hn, (Ho Hn).
Qed.

Lemma consume_each_ok matched : ∀ st start,
  state_ok st →
  Forall (λ m : ActionRef * nat,
            m.1 ∈ indexed_actions p ∧ (nargs m.1.2 = PARSER → 1 ≤ m.2)) matched →
  sum_list matched.*2 ≤ length arg_strings - start →
  match consume_each arg_strings st start matched with
  | Return (st', stop) =>
      state_ok st' ∧ start ≤ stop ∧ extras st' = extras st
      ∧ positionals st' = positionals st
  | Raise e => arg_exn e
  end.
Proof.
  induction matched as [|[a c] matched IH]; intros st start Hst Hm Hs; simpl.
  { done. }
  apply Forall_cons in Hm as [[Ha Hc] Hm]. simpl in Ha, Hc.
  assert (c + sum_list matched.*2 ≤ length arg_strings - start) as Hs' by exact Hs.
  clear Hs.
  assert (nargs a.2 = PARSER → take c (drop start arg_strings) ≠ []) as Hargs.
  { intros HP Hnil. apply (f_equal length) in Hnil.
    rewrite length_take, length_drop in Hnil. specialize (Hc HP). simpl in Hnil.
    lia. }
  pose proof (take_action_ok st a _ Hst Ha Hargs) as H1.
  destruct (take_action st a _) as [st1 | e]; cbn [mbind outcome_bind]; [| done].
  destruct H1 as (Hst1 & He1 & Hp1).
  specialize (IH st1 (start + c) Hst1 Hm ltac:(lia)).
  destruct (consume_each arg_strings st1 (start + c) matched) as [[st2 stop] | e];
    [| done].
  destruct IH as (? & ? & ? & ?).
  split; [done |]. split; [lia |]. split; congruence.
Qed.

Lemma consume_positionals_ok st start :
  state_ok st →
  match consume_positionals arg_strings tokens st start with
  | Return (st', stop) =>
      state_ok st' ∧ start ≤ stop ∧ extras st' = extras st
  | Raise e => arg_exn e
  end.
Proof.
  intros Hst. unfold consume_positionals, _match_arguments_partial.
  set (pattern := drop start (arg_strings_pattern tokens)).
  destruct (partial_upto_inv (length (positionals st)) (positionals st) pattern)
    as (Hl & HF & Hs).
  set (counts := _match_arguments_partial_upto _ _ _) in *.
  assert (Forall (λ m : ActionRef * nat,
            m.1 ∈ indexed_actions p ∧ (nargs m.1.2 = PARSER → 1 ≤ m.2))
                 (zip (positionals st) counts)) as Hm.
  { eapply Forall_impl.
    - apply (zip_Forall
               (λ (a : ActionRef) c, min_len (_get_nargs_pattern a.2) ≤ c)
               (λ a, a ∈ indexed_actions p)); [apply Hst | exact HF].
    - intros [a c] [Ha Hc]. simpl in *. split; [done |]. intros HP.
      by rewrite (parser_min_len a Ha HP) in Hc. }
  assert (sum_list (zip (positionals st) counts).*2 ≤ length arg_strings - start)
    as Hsum.
  { rewrite snd_zip by done. unfold pattern, arg_strings_pattern in Hs.
    rewrite length_drop, length_map in Hs. lia. }
  pose proof (consume_each_ok _ st start Hst Hm Hsum) as H1.
  destruct (consume_each arg_strings st start _) as [[st1 stop] | e];
    cbn [mbind outcome_bind]; [| done].
  destruct H1 as ([HI HP] & ? & ? & Hp1). split; [| done].
  split; [done |]. simpl. destruct Hst as [_ HPst]. rewrite <- Hp1 in HPst.
  by apply Forall_drop.
Qed.

Lemma consume_loop_ok fuel : ∀ st start,
  state_ok st →
  match consume_loop p arg_strings tokens fuel st start with
  | Return (st', stop) =>
      state_ok st' ∧ start ≤ stop ∧ ∃ l, extras st' = extras st ++ l
  | Raise e => arg_exn e
  end.
Proof.
  assert (∀ st start, state_ok st →
    state_ok st ∧ start ≤ start ∧ ∃ l, extras st = extras st ++ l) as Hrefl.
  { intros st start Hst. split; [done |]. split; [done |].
    exists []. by rewrite app_nil_r. }
  induction fuel as [|fuel IH]; intros st start Hst; simpl.
  { destruct (_ <=? _)%Z; by apply Hrefl. }
  destruct (_ <=? _)%Z eqn:Hc; [| by apply Hrefl].
  destruct (next_option_string_index_spec tokens start Hc)
    as (j & -> & Hj & Hsome & Hmin).
  cbn [mbind outcome_bind].
  assert (∀ st1 start1, state_ok st1 → start ≤ start1 → start1 ≤ j →
    (∃ l, extras st1 = extras st ++ l) →
    match
      (let '(st2, start2) :=
         match option_tuple_at tokens start1 with
         | Some _ => (st1, start1)
         | None =>
             (add_extras st1 (take (j - start1) (drop start1 arg_strings)), j)
         end in
       consume_optional p arg_strings tokens st2 start2
       ≫= λ '(st3, start3), consume_loop p arg_strings tokens fuel st3 start3)
    with
    | Return (st', stop) =>
        state_ok st' ∧ start ≤ stop ∧ ∃ l, extras st' = extras st ++ l
    | Raise e => arg_exn e
    end) as Hopt.
  { intros st1 start1 Hst1 Hle1 Hle2 [l1 He1].
    assert (∃ st2 start2,
      match option_tuple_at tokens start1 with
      | Some _ => (st1, start1)
      | None => (add_extras st1 (take (j - start1) (drop start1 arg_strings)), j)
      end = (st2, start2)
      ∧ state_ok st2 ∧ start ≤ start2 ∧ (∃ l, extras st2 = extras st ++ l)
      ∧ is_Some (option_tuple_at tokens start2)) as (st2 & start2 & -> & Hst2 & ? & [l2 He2] & Hs2).
    { destruct (option_tuple_at tokens start1) eqn:Ho.
      - exists st1, start1. eauto 10.
      - eexists _, _. split; [done |]. split; [exact Hst1 |]. split; [lia |].
        split; [| done]. simpl. rewrite He1, <- app_assoc. by eexists. }
    pose proof (consume_optional_ok st2 start2 Hst2 Hs2) as H2.
    destruct (consume_optional p arg_strings tokens st2 start2) as [[st3 start3] | e];
      cbn [mbind outcome_bind]; [| done].
    destruct H2 as (Hst3 & ? & [l3 He3] & _).
    specialize (IH st3 start3 Hst3).
    destruct (consume_loop p arg_strings tokens fuel st3 start3) as [[st4 stop] | e];
      [| done].
    destruct IH as (? & ? & [l4 He4]). split; [done |]. split; [lia |].
    rewrite He4, He3, He2, <- !app_assoc. by eexists. }
  case_bool_decide as Hne.
  - pose proof (consume_positionals_ok st start Hst) as H1.
    destruct (consume_positionals arg_strings tokens st start) as [[st1 e1] | e];
      cbn [mbind outcome_bind]; [| done].
    destruct H1 as (Hst1 & Hle & He).
    case_bool_decide as Hlt.
    + specialize (IH st1 e1 Hst1).
      destruct (consume_loop p arg_strings tokens fuel st1 e1) as [[st4 stop] | e];
        [| done].
      destruct IH as (? & ? & [l4 He4]). split; [done |]. split; [lia |].
      rewrite He4, He. by eexists.
    + assert (e1 = start) as -> by lia.
      apply Hopt; [done | done | done |]. rewrite He. exists []. by rewrite app_nil_r.
  - apply Hopt; [done | done | lia |]. exists []. by rewrite app_nil_r.
Qed.

Lemma check_required_ok actions seen : ∀ ns,
  Forall (λ a, a ∈ indexed_actions p) actions → I ns →
  match check_required actions seen ns with
  | Return (_, ns') => I ns'
  | Raise e => arg_exn e
  end.
Proof.
  induction actions as [|[i a] actions IH]; intros ns Ha HI; simpl; [done |].
  apply Forall_cons in Ha as [Hia Ha].
  case_bool_decide; [by apply IH |].
  destruct (required a).
  - specialize (IH ns Ha HI).
    destruct (check_required actions seen ns) as [[req ns'] | e]; done.
  - apply indexed_ok in Hia as (_ & Hconv & _). simpl in Hconv.
    assert (∀ ns1, I ns1 →
      match check_required actions seen ns1 with
      | Return (_, ns') => I ns'
      | Raise e => arg_exn e
      end) as IH' by (intros; by apply IH).
    destruct (default a) as [[| | |s| | |]|] eqn:Hd; cbn [mbind outcome_bind];
      try by apply IH'.
    destruct (dest a) as [d|] eqn:Hdest; cbn [mbind outcome_bind];
      [| by apply IH'].
    destruct (ns !! d) as [v|]; cbn [mbind outcome_bind]; [| by apply IH'].
    destruct (value_eq_str v s); cbn [mbind outcome_bind]; [| by apply IH'].
    unfold _get_value. destruct (type a s) as [v'|] eqn:Ht;
      cbn [mbind outcome_bind].
    + apply IH'. by eapply Hconv.
    + right. eauto.
Qed.

End generic.

(** *** [_parse_known_args] and [parse_known_args], for any parser *)

Lemma positional_actions_indexed p :
  Forall (λ a, a ∈ indexed_actions p) (_get_positional_actions p).
Proof.
  apply Forall_forall. intros a Ha. unfold _get_positional_actions in Ha.
  by apply list_elem_of_filter in Ha as [_ ?].
Qed.

(** With actions that keep [I], [_parse_known_args] takes a namespace
    with [I] to one with [I], or leaves by an exit or an [ArgumentError]:
    none of the look-ups of the closures fails. *)
Lemma _parse_known_args_ok I p arg_strings ns :
  parser_ok I p → I ns →
  match _parse_known_args p arg_strings ns with
  | Return (ns', _) => I ns'
  | Raise e => arg_exn e
  end.
Proof.
  intros Hp HI. unfold _parse_known_args.
  destruct (classify p arg_strings) as [tokens | e] eqn:Hc;
    cbn [mbind outcome_bind].
  2: { left. right. by eapply classify_exn. }
  apply classify_inv in Hc as [Hlen Htok].
  set (st0 := {| namespace := ns; extras := []; seen_actions := [];
                 positionals := _get_positional_actions p |}).
  assert (state_ok I p st0) as Hst0.
  { split; [done | apply positional_actions_indexed]. }
  pose proof (consume_loop_ok I p Hp arg_strings tokens Hlen Htok (length arg_strings)
                st0 0 Hst0) as H1.
  destruct (consume_loop _ _ _ _ st0 0) as [[st1 start1] | e];
    cbn [mbind outcome_bind]; [| done].
  destruct H1 as (Hst1 & _ & _).
  pose proof (consume_positionals_ok I p Hp arg_strings tokens Hlen st1 start1 Hst1)
    as H2.
  destruct (consume_positionals _ _ st1 start1) as [[st2 stop] | e];
    cbn [mbind outcome_bind]; [| done].
  destruct H2 as ([HI2 _] & _ & _).
  pose proof (check_required_ok I p Hp (indexed_actions p)
                (seen_actions (add_extras st2 (drop stop arg_strings)))
                (namespace st2)) as H3.
  change (namespace (add_extras st2 (drop stop arg_strings))) with (namespace st2).
  destruct (check_required _ _ (namespace st2)) as [[req ns'] | e];
    cbn [mbind outcome_bind].
  - destruct req.
    + apply H3; [by apply Forall_forall | done].
    + left. by right.
  - apply H3; [by apply Forall_forall | done].
Qed.

(** The attribute for what a sub-parser left over is absent or a list. *)
Definition unrecognized_ok (ns : Namespace) : Prop :=
  ns !! _UNRECOGNIZED_ARGS_ATTR = None
  ∨ ∃ l, ns !! _UNRECOGNIZED_ARGS_ATTR = Some (VList l).

Lemma parse_known_args_ok I p args :
  parser_ok I p → I (default_namespace p) →
  (∀ ns, I ns → unrecognized_ok ns) →
  match parse_known_args p args with
  | Return (ns', _) =>
      ∃ ns, I ns ∧ ns' = delete _UNRECOGNIZED_ARGS_ATTR ns
  | Raise e => exits e
  end.
Proof.
  intros Hp HI Hun. unfold parse_known_args.
  pose proof (_parse_known_args_ok I p args _ Hp HI) as H1.
  destruct (_parse_known_args p args _) as [[ns1 ex1] | e];
    cbn [mbind outcome_bind].
  - destruct (Hun ns1 H1) as [Hn | [l Hl]].
    + rewrite Hn. exists ns1. by rewrite delete_id.
    + rewrite Hl. by exists ns1.
  - destruct H1 as [H1 | [m ->]]; [| by right].
    destruct H1 as [-> | ->]; cbn [mbind outcome_bind]; [by left | by right].
Qed.

(** *** An option that stores one value *)

Section store.
Context (p : ArgumentParser) (arg_strings : list string) (tokens : list token).
Context (a : ActionRef) (d : string).
Context (Hnargs : nargs a.2 = NargsNone) (Hopt : option_strings a.2 ≠ []).
Context (Hchoices : choices a.2 = None).
Context (Hcall : ∀ ns v, call a.2 ns v = Return (<[d := v]> ns)).

Lemma match_argument_one pattern : _match_argument a.2 (pA :: pattern) = Return 1.
Proof.
  unfold _match_argument, _get_nargs_pattern. rewrite Hnargs.
  by destruct (option_strings a.2).
Qed.

Lemma get_values_one ea v :
  ea ≠ "--" → type a.2 ea = Some v → _get_values a.2 [ea] = Return v.
Proof.
  intros Hea Hv. unfold _get_values. rewrite Hnargs. cbn [remove_first].
  rewrite (proj2 (String.eqb_neq _ _) Hea).
  unfold _get_value, _check_value. by rewrite Hv, Hchoices.
Qed.

Lemma take_store st ea v :
  ea ≠ "--" → type a.2 ea = Some v →
  take_action st a [ea]
  = Return (set_namespace (add_seen st a.1) (<[d := v]> (namespace st))).
Proof.
  intros Hea Hv. unfold take_action. rewrite (get_values_one ea v Hea Hv).
  cbn [mbind outcome_bind]. by rewrite Hcall.
Qed.

(** [--opt=arg] *)
Lemma consume_store_explicit st i os ea v :
  option_tuple_at tokens i = Some (Some a, os, Some ea) →
  ea ≠ "--" → type a.2 ea = Some v →
  consume_optional p arg_strings tokens st i
  = Return (set_namespace (add_seen st a.1) (<[d := v]> (namespace st)), S i).
Proof.
  intros Hi Hea Hv. unfold consume_optional. rewrite Hi.
  assert (match_explicit p arg_strings tokens i a os ea []
          = Return ([(a, [ea], os)], S i)) as ->.
  { destruct ea; simpl; by rewrite match_argument_one. }
  cbn [mbind outcome_bind take_actions]. by rewrite (take_store st ea v Hea Hv).
Qed.

(** [--opt arg] *)
Lemma consume_store_following st i os ea v :
  option_tuple_at tokens i = Some (Some a, os, None) →
  tokens !! S i = Some (pA, None) → arg_strings !! S i = Some ea →
  ea ≠ "--" → type a.2 ea = Some v →
  consume_optional p arg_strings tokens st i
  = Return (set_namespace (add_seen st a.1) (<[d := v]> (namespace st)),
            S (S i)).
Proof.
  intros Hi Htok Harg Hea Hv. unfold consume_optional. rewrite Hi.
  unfold match_following, arg_strings_pattern.
  assert (map fst tokens !! S i = Some pA) as Hpat.
  { change (map fst tokens) with (fst <$> tokens). by rewrite list_lookup_fmap, Htok. }
  rewrite (drop_S _ _ _ Hpat), match_argument_one. cbn [mbind outcome_bind].
  rewrite (drop_S _ _ _ Harg). cbn [take app take_actions].
  rewrite take_0, (take_store st ea v Hea Hv). cbn [mbind outcome_bind].
  by rewrite Nat.add_1_r.
Qed.

(** [--opt=arg] with an [arg] that [type] refuses *)
Lemma consume_store_invalid st i os ea :
  option_tuple_at tokens i = Some (Some a, os, Some ea) →
  ea ≠ "--" → type a.2 ea = None →
  consume_optional p arg_strings tokens st i
  = Raise (ArgumentError "invalid value").
Proof.
  intros Hi Hea Hv. unfold consume_optional. rewrite Hi.
  assert (match_explicit p arg_strings tokens i a os ea []
          = Return ([(a, [ea], os)], S i)) as ->.
  { destruct ea; simpl; by rewrite match_argument_one. }
  cbn [mbind outcome_bind take_actions]. unfold take_action, _get_values.
  rewrite Hnargs. cbn [remove_first].
  rewrite (proj2 (String.eqb_neq _ _) Hea). unfold _get_value. by rewrite Hv.
Qed.

End store.

(** A round of the loop at an option is [consume_optional]. *)
Lemma consume_loop_step p arg_strings tokens fuel st start t st' stop :
  option_tuple_at tokens start = Some t →
  consume_optional p arg_strings tokens st start = Return (st', stop) →
  consume_loop p arg_strings tokens (S fuel) st start
  = consume_loop p arg_strings tokens fuel st' stop.
Proof.
  intros Ht Hco. cbn [consume_loop].
  assert ((Z.of_nat start <=? max_option_string_index tokens)%Z = true) as Hc.
  { apply max_option_string_index_spec. by exists start, t. }
  rewrite Hc.
  destruct (next_option_string_index_spec tokens start Hc)
    as (j & -> & Hj & _ & Hmin).
  assert (j = start) as -> by (pose proof (Hmin start t ltac:(lia) Ht); lia).
  cbn [mbind outcome_bind]. rewrite bool_decide_eq_false_2 by auto.
  cbn [mbind outcome_bind]. rewrite Ht, Hco. reflexivity.
Qed.

Lemma consume_loop_step_raise p arg_strings tokens fuel st start t e :
  option_tuple_at tokens start = Some t →
  consume_optional p arg_strings tokens st start = Raise e →
  consume_loop p arg_strings tokens (S fuel) st start = Raise e.
Proof.
  intros Ht Hco. cbn [consume_loop].
  assert ((Z.of_nat start <=? max_option_string_index tokens)%Z = true) as Hc.
  { apply max_option_string_index_spec. by exists start, t. }
  rewrite Hc.
  destruct (next_option_string_index_spec tokens start Hc)
    as (j & -> & Hj & _ & Hmin).
  assert (j = start) as -> by (pose proof (Hmin start t ltac:(lia) Ht); lia).
  cbn [mbind outcome_bind]. rewrite bool_decide_eq_false_2 by auto.
  cbn [mbind outcome_bind]. rewrite Ht, Hco. reflexivity.
Qed.

(** Without positionals left, [consume_positionals] consumes nothing. *)
Lemma consume_positionals_none arg_strings tokens st start :
  positionals st = [] →
  consume_positionals arg_strings tokens st start = Return (st, start).
Proof.
  intros Hp. unfold consume_positionals. rewrite Hp. simpl.
  destruct st. simpl in Hp. by subst.
Qed.

End argparse_facts.

(** ** The parsers of [parse_args] *)

Module parser_facts.
Import argparse argparse_facts.

(** The action [add_subparsers] put into [parser]. *)
Definition sub : Action :=
  _SubParsersAction (Some "mode") true [("server", srv); ("client", cli)].

(** The namespaces of a sub-parser: exactly a host and a port. *)
Definition host_port (ns : Namespace) : Prop := dom ns = {["host"; "port"]}.

Lemma host_port_insert ns d v :
  d = "host" ∨ d = "port" → host_port ns → host_port (<[d := v]> ns).
Proof.
  unfold host_port. intros Hd Hns. rewrite dom_insert_L, Hns.
  destruct Hd as [-> | ->]; apply set_eq; intros x;
    rewrite !elem_of_union, !elem_of_singleton; tauto.
Qed.

Lemma store_ok option_string d type default :
  d = "host" ∨ d = "port" →
  action_ok host_port (_StoreAction [option_string] d type default).
Proof.
  intros Hd. split; [| split]; simpl.
  - intros ns args v Hns _. by apply host_port_insert.
  - intros ns d' s v Hns [= <-] _ _. by apply host_port_insert.
  - done.
Qed.

Lemma help_ok I : action_ok I _HelpAction.
Proof.
  split; [| split]; simpl; [| done | done].
  intros ns args v _ _. left. by left.
Qed.

Lemma srv_ok : parser_ok host_port srv.
Proof.
  unfold parser_ok, srv, add_argument, ArgumentParser_new. simpl.
  apply Forall_cons. split; [apply help_ok |].
  apply Forall_cons. split; [apply store_ok; auto |].
  apply Forall_cons. split; [apply store_ok; auto |].
  apply Forall_nil. done.
Qed.

Lemma cli_ok : parser_ok host_port cli.
Proof.
  unfold parser_ok, cli, add_argument, ArgumentParser_new. simpl.
  apply Forall_cons. split; [apply help_ok |].
  apply Forall_cons. split; [apply store_ok; auto |].
  apply Forall_cons. split; [apply store_ok; auto |].
  apply Forall_nil. done.
Qed.

Lemma srv_default : host_port (default_namespace srv).
Proof. unfold host_port. vm_compute. reflexivity. Qed.

Lemma cli_default : host_port (default_namespace cli).
Proof. unfold host_port. vm_compute. reflexivity. Qed.

Lemma host_port_unrecognized ns : host_port ns → ns !! _UNRECOGNIZED_ARGS_ATTR = None.
Proof.
  unfold host_port. intros Hd. apply not_elem_of_dom. rewrite Hd.
  rewrite elem_of_union, !elem_of_singleton. by intros [? | ?].
Qed.

Lemma host_port_mode ns : host_port ns → ns !! "mode" = None.
Proof.
  unfold host_port. intros Hd. apply not_elem_of_dom. rewrite Hd.
  rewrite elem_of_union, !elem_of_singleton. by intros [? | ?].
Qed.

Lemma host_port_lookup ns :
  host_port ns → is_Some (ns !! "host") ∧ is_Some (ns !! "port").
Proof.
  unfold host_port. intros Hd. split; apply elem_of_dom; rewrite Hd;
    rewrite elem_of_union, !elem_of_singleton; auto.
Qed.

(** A sub-parser returns a namespace with exactly a host and a port, or
    exits. *)
Lemma sub_parser_result sp args :
  sp = srv ∨ sp = cli →
  match parse_known_args sp args with
  | Return (ns, _) => host_port ns
  | Raise e => exits e
  end.
Proof.
  intros Hsp.
  assert (parser_ok host_port sp ∧ host_port (default_namespace sp)) as [Hok Hd].
  { destruct Hsp as [-> | ->];
      [split; [apply srv_ok | apply srv_default]
      | split; [apply cli_ok | apply cli_default]]. }
  pose proof (parse_known_args_ok host_port sp args Hok Hd) as H.
  destruct (parse_known_args sp args) as [[ns ex] | e].
  - destruct H as (ns1 & H1 & ->).
    + intros ns' Hns'. left. by apply host_port_unrecognized.
    + rewrite delete_id; [done | by apply host_port_unrecognized].
  - apply H. intros ns' Hns'. left. by apply host_port_unrecognized.
Qed.

Lemma mapM_get_value_sub args :
  mapM (_get_value sub) args = Return (map VStr args).
Proof.
  induction args as [|a args IH]; [done |].
  simpl. rewrite IH. reflexivity.
Qed.

(** What reaches the call of [sub]: the name of a sub-command and the
    strings after it. *)
Lemma get_values_sub args v :
  _get_values sub args = Return v →
  ∃ name rest, args = name :: rest ∧ (name = "server" ∨ name = "client")
               ∧ v = VList (VStr name :: map VStr rest).
Proof.
  unfold _get_values. cbn [nargs sub _SubParsersAction].
  rewrite mapM_get_value_sub. cbn [mbind outcome_bind].
  destruct args as [|name rest]; [done |]. simpl map.
  unfold _check_value. cbn [choices sub _SubParsersAction map fst existsb orb].
  destruct (String.eqb_spec name "server") as [-> | Hs].
  { intros [= <-]. eauto 10. }
  destruct (String.eqb_spec name "client") as [-> | Hc].
  { intros [= <-]. eauto 10. }
  done.
Qed.

Lemma strings_of_map rest : strings_of (map VStr rest) = Return rest.
Proof. induction rest as [|a rest IH]; [done |]. simpl. by rewrite IH. Qed.

(** The parser of a sub-command. *)
Definition sub_parser (name : string) : ArgumentParser :=
  if String.eqb name "server" then srv else cli.

(** The call of [sub] on a sub-command and the strings after it: the
    sub-parser's namespace, over the namespace with [mode] set. *)
Lemma sub_call ns name rest :
  name = "server" ∨ name = "client" →
  call sub ns (VList (VStr name :: map VStr rest))
  = ('(subns, ex) ← parse_known_args (sub_parser name) rest;
     let ns' : Namespace := subns ∪ <["mode" := VStr name]> ns in
     match ex with
     | [] => Return ns'
     | _ :: _ =>
         match ns' !! _UNRECOGNIZED_ARGS_ATTR with
         | None => Return (<[_UNRECOGNIZED_ARGS_ATTR := VList ex]> ns')
         | Some (VList l) =>
             Return (<[_UNRECOGNIZED_ARGS_ATTR := VList (l ++ ex)]> ns')
         | Some _ => Raise (AttributeError "extend")
         end
     end).
Proof.
  intros [-> | ->]; cbn [call sub _SubParsersAction lookup_str String.eqb
    Ascii.eqb Bool.eqb sub_parser]; rewrite strings_of_map; reflexivity.
Qed.

Lemma sub_ok : action_ok unrecognized_ok sub.
Proof.
  split; [| split]; [| done | done].
  intros ns args v Hns Hv.
  apply get_values_sub in Hv as (name & rest & -> & Hname & ->).
  rewrite (sub_call ns name rest Hname).
  pose proof (sub_parser_result (sub_parser name) rest) as Hsub.
  destruct (parse_known_args (sub_parser name) rest) as [[subns ex] | e];
    cbn [mbind outcome_bind].
  2: { left. apply Hsub. unfold sub_parser. destruct Hname as [-> | ->]; auto. }
  assert (host_port subns) as Hhp.
  { apply Hsub. unfold sub_parser. destruct Hname as [-> | ->]; auto. }
  assert ((subns ∪ <["mode" := VStr name]> ns) !! _UNRECOGNIZED_ARGS_ATTR
          = ns !! _UNRECOGNIZED_ARGS_ATTR) as Hu.
  { rewrite lookup_union_r by (by apply host_port_unrecognized).
    by rewrite lookup_insert_ne. }
  destruct ex as [|x ex].
  - unfold unrecognized_ok. by rewrite Hu.
  - cbv zeta. rewrite Hu. destruct Hns as [-> | [l ->]];
      right; eexists; apply lookup_insert_eq.
Qed.

Lemma parser_ok_top : parser_ok unrecognized_ok parser.
Proof.
  unfold parser_ok, parser, add_subparsers, ArgumentParser_new. simpl.
  apply Forall_cons. split; [apply help_ok |].
  apply Forall_cons. split; [apply sub_ok |].
  apply Forall_nil. done.
Qed.


(** *** The top-level parser *)

Lemma parser_actions : _actions parser = [_HelpAction; sub].
Proof. reflexivity. Qed.

Lemma parser_option_strings :
  _option_string_actions parser
  = [("-h", (0, _HelpAction)); ("--help", (0, _HelpAction))].
Proof. reflexivity. Qed.

Lemma parser_positionals : _get_positional_actions parser = [(1, sub)].
Proof. reflexivity. Qed.

Lemma parser_default : default_namespace parser = {["mode" := VNone]}.
Proof. reflexivity. Qed.

Lemma known_help a : known parser a → a = (0, _HelpAction).
Proof.
  intros [s Hs]. rewrite parser_option_strings in Hs.
  apply elem_of_cons in Hs as [[= _ ->] | Hs]; [done |].
  apply elem_of_cons in Hs as [[= _ ->] | Hs]; [done |].
  by apply elem_of_nil in Hs.
Qed.

Lemma mapM_help_values args :
  mapM (_get_value _HelpAction) args = Return (map VStr args).
Proof. induction args as [|a args IH]; [done |]. simpl. by rewrite IH. Qed.

Lemma mapM_help_check vs :
  ∃ us, mapM (_check_value _HelpAction) vs = Return us.
Proof.
  induction vs as [|v vs [us IH]]; [by eexists |]. simpl. rewrite IH. by eexists.
Qed.

(** The help action, once taken, exits with status 0. *)
Lemma take_help st args :
  take_action st (0, _HelpAction) args = Raise (SystemExit 0).
Proof.
  unfold take_action, _get_values. cbn [snd nargs _HelpAction].
  assert (∀ l, (vs ← mapM (_get_value _HelpAction) l;
                mapM (_check_value _HelpAction) vs;; Return (VList vs))
               = Return (VList (map VStr l))) as Hl.
  { intros l. rewrite mapM_help_values. cbn [mbind outcome_bind].
    destruct (mapM_help_check (map VStr l)) as [us ->]. done. }
  rewrite Hl. reflexivity.
Qed.

Lemma Return_inj {A} (x y : A) : Return x = Return y → x = y.
Proof. by intros [= ->]. Qed.

Lemma omap_pair_length {A B} (f : A → option B) x y :
  f x = None ∨ f y = None → length (omap f [x; y]) ≤ 1.
Proof.
  intros H. cbn [omap list_omap].
  destruct (f x), (f y); simpl; destruct H; first [lia | discriminate].
Qed.

Lemma split1_dashes r :
  split1 "=" (String "-" (String "-" r))
  = match split1 "=" r with
    | Some (a, b) => Some (String "-" (String "-" a), b)
    | None => None
    end.
Proof. simpl. by destruct (split1 "=" r) as [[a b]|]. Qed.

(** At the top level a string is at most one option: [-h], [--help] or
    an abbreviation of [--help]; no string is ambiguous. *)
Lemma top_tuples c1 r ts :
  _get_option_tuples parser (String "-" (String c1 r)) = Return ts →
  length ts ≤ 1.
Proof.
  unfold _get_option_tuples. rewrite parser_option_strings.
  replace (is_prefix_char "-") with true by reflexivity.
  destruct (is_prefix_char c1) eqn:Hc1; cbn [andb negb].
  - apply is_prefix_char_dash in Hc1 as ->. rewrite split1_dashes.
    destruct (split1 "=" r) as [[a b]|]; intros H; apply Return_inj in H;
      subst ts; apply omap_pair_length; left; reflexivity.
  - unfold is_prefix_char in Hc1. intros H. apply Return_inj in H. subst ts.
    apply omap_pair_length. right. cbv beta iota.
    assert (String.eqb "--help" (String "-" (String c1 "")) = false) as ->.
    { apply String.eqb_neq. intros [= <-]. }
    assert (startswith "--help" (String "-" (String c1 r)) = false) as ->.
    { unfold startswith. simpl. destruct (ascii_dec c1 "-") as [-> | ?]; [| done].
      by rewrite Ascii.eqb_refl in Hc1. }
    done.
Qed.

Lemma parse_optional_top s : ∃ r, _parse_optional parser s = Return r.
Proof.
  unfold _parse_optional. destruct s as [|c0 r]; [by eexists |].
  destruct (is_prefix_char c0) eqn:Hc0; cbn [negb]; [| by eexists].
  apply is_prefix_char_dash in Hc0 as ->.
  destruct (lookup_str (String "-" r) _) as [a|]; [by eexists |].
  destruct r as [|c1 r]; [by eexists |].
  replace (String.length (String "-" (String c1 r)) =? 1) with false by done.
  destruct (get_option_tuples_return parser c1 r) as [ts Hts].
  pose proof (top_tuples c1 r ts Hts) as Hlen.
  destruct (split1 "=" (String "-" (String c1 r))) as [[os ea]|].
  - destruct (lookup_str os _) as [a|]; [by eexists |].
    rewrite Hts. cbn [mbind outcome_bind]. destruct ts as [|t1 [|t2 ts]].
    + repeat case_match; by eexists.
    + by eexists.
    + simpl in Hlen. lia.
  - rewrite Hts. cbn [mbind outcome_bind]. destruct ts as [|t1 [|t2 ts]].
    + repeat case_match; by eexists.
    + by eexists.
    + simpl in Hlen. lia.
Qed.

Lemma classify_top args : ∃ tokens, classify parser args = Return tokens.
Proof.
  induction args as [|a args [toks IH]]; [by eexists |]. simpl.
  destruct (String.eqb a "--"); [by eexists |].
  destruct (parse_optional_top a) as [r ->]. rewrite IH. by eexists.
Qed.

Lemma take_action_inv st (a : ActionRef) args st1 :
  take_action st a args = Return st1 →
  ∃ v ns', _get_values a.2 args = Return v
           ∧ call a.2 (namespace st) v = Return ns'
           ∧ st1 = set_namespace (add_seen st a.1) ns'.
Proof.
  unfold take_action. destruct (_get_values a.2 args) as [v|] eqn:Hv; [| done].
  cbn [mbind outcome_bind]. change (namespace (add_seen st a.1)) with (namespace st).
  destruct (call a.2 (namespace st) v) as [ns'|] eqn:Hcall; [| done].
  cbn [mbind outcome_bind]. intros [= <-]. by exists v, ns'.
Qed.

Lemma all_in_class (s : list pat) :
  Forall (λ c, in_class c [pDash; pA; pO] = true) s.
Proof. apply Forall_forall. by intros []. Qed.

(** The pattern of [sub] takes an argument and all that follows. *)
Lemma sub_pattern_A s :
  match_groups [_get_nargs_pattern sub] (pA :: s) = Some [S (length s)].
Proof.
  change (_get_nargs_pattern sub)
    with [Star [pDash]; One [pA]; Star [pDash; pA; pO]].
  cbn [match_groups match_atoms match_star in_class existsb pat_eqb orb].
  apply match_star_all; [apply all_in_class |]. done.
Qed.

(** The state [_parse_known_args] starts from. *)
Definition st_init (ns : Namespace) : state :=
  {| namespace := ns; extras := []; seen_actions := [];
     positionals := [(1, sub)] |}.

(** The state after [sub] has been taken from [st_init ns]. *)
Definition st_sub (ns' : Namespace) : state :=
  {| namespace := ns'; extras := []; seen_actions := [1]; positionals := [] |}.

Section first_argument.
Context (ns : Namespace) (a : string) (rest : list string) (toks : list token).
Context (Hlen : length toks = length rest).

Let tokens : list token := (pA, None) :: toks.

(** With an argument first, the positionals take everything. *)
Lemma positional_first :
  consume_positionals (a :: rest) tokens (st_init ns) 0
  = (st1 ← take_action (st_init ns) (1, sub) (a :: rest);
     Return (st_sub (namespace st1), S (length rest))).
Proof.
  unfold consume_positionals, _match_arguments_partial.
  cbn [positionals st_init length _match_arguments_partial_upto take map snd].
  change (drop 0 (arg_strings_pattern tokens)) with (pA :: map fst toks).
  rewrite sub_pattern_A, length_map, Hlen.
  cbn [zip zip_with consume_each drop].
  replace (take (S (length rest)) (a :: rest)) with (a :: rest)
    by (rewrite take_ge; [done | simpl; lia]).
  destruct (take_action (st_init ns) (1, sub) (a :: rest)) as [st1|e] eqn:Hta;
    cbn [mbind outcome_bind]; [| done].
  apply take_action_inv in Hta as (v & ns' & _ & _ & ->). reflexivity.
Qed.

Lemma no_option_first : option_tuple_at tokens 0 = None.
Proof. reflexivity. Qed.

(** ... in the loop, when an option follows, or after it. *)
Lemma subcommand_loop :
  consume_loop parser (a :: rest) tokens (length (a :: rest)) (st_init ns) 0
  ≫= (λ '(st, start_index),
        consume_positionals (a :: rest) tokens st start_index)
  = (st1 ← take_action (st_init ns) (1, sub) (a :: rest);
     Return (st_sub (namespace st1), S (length rest))).
Proof.
  cbn [length consume_loop].
  destruct (_ <=? _)%Z eqn:Hc; cbn [mbind outcome_bind].
  2: { apply positional_first. }
  destruct (next_option_string_index_spec tokens 0 Hc)
    as (j & -> & _ & Hsome & _).
  cbn [mbind outcome_bind].
  rewrite bool_decide_eq_true_2.
  2: { intros <-. rewrite no_option_first in Hsome. by destruct Hsome. }
  rewrite positional_first.
  destruct (take_action (st_init ns) (1, sub) (a :: rest)) as [st1|e];
    cbn [mbind outcome_bind]; [| done].
  rewrite bool_decide_eq_true_2 by lia.
  rewrite consume_loop_past_end by (simpl; lia).
  cbn [mbind outcome_bind]. reflexivity.
Qed.

(** With an argument first, [_parse_known_args] is the action of [sub] on
    the whole argument list. *)
Lemma subcommand_first :
  classify parser (a :: rest) = Return tokens →
  _parse_known_args parser (a :: rest) ns
  = (st1 ← take_action (st_init ns) (1, sub) (a :: rest);
     Return (namespace st1, [])).
Proof.
  intros Hc. unfold _parse_known_args. rewrite Hc. cbn [mbind outcome_bind].
  rewrite parser_positionals. fold (st_init ns).
  pose proof subcommand_loop as Hloop.
  destruct (consume_loop parser (a :: rest) tokens (length (a :: rest))
              (st_init ns) 0) as [[st start]|e] eqn:Hl;
    cbn [mbind outcome_bind] in Hloop |- *.
  - rewrite Hloop. clear Hloop.
    destruct (take_action (st_init ns) (1, sub) (a :: rest)) as [st1|e];
      cbn [mbind outcome_bind]; [| done].
    change (drop (S (length rest)) (a :: rest)) with (drop (length rest) rest).
    rewrite drop_all. reflexivity.
  - destruct (take_action (st_init ns) (1, sub) (a :: rest)) as [st1|e'];
      cbn [mbind outcome_bind] in Hloop |- *; [done | by injection Hloop as ->].
Qed.

End first_argument.

(** *** A sub-command first *)

Lemma classify_subcommand name rest :
  name = "server" ∨ name = "client" →
  ∃ toks, classify parser (name :: rest) = Return ((pA, None) :: toks)
          ∧ length toks = length rest.
Proof.
  intros Hname. destruct (classify_top rest) as [toks Hc].
  exists toks. split; [| by apply classify_inv in Hc as [? _]].
  destruct Hname as [-> | ->]; simpl; by rewrite Hc.
Qed.

Lemma get_values_subcommand name rest :
  name = "server" ∨ name = "client" →
  _get_values sub (name :: rest) = Return (VList (VStr name :: map VStr rest)).
Proof.
  intros Hname. unfold _get_values. cbn [nargs sub _SubParsersAction].
  rewrite mapM_get_value_sub. by destruct Hname as [-> | ->].
Qed.

(** With a sub-command first, the top-level parser returns what the
    sub-parser returns on the rest, with [mode] added. *)
Lemma parse_known_args_subcommand name rest :
  name = "server" ∨ name = "client" →
  parse_known_args parser (name :: rest)
  = ('(subns, ex) ← parse_known_args (sub_parser name) rest;
     Return (subns ∪ {["mode" := VStr name]}, ex)).
Proof.
  intros Hname. unfold parse_known_args at 1. rewrite parser_default.
  destruct (classify_subcommand name rest Hname) as (toks & Hc & Hlen).
  rewrite (subcommand_first _ name rest toks Hlen Hc).
  unfold take_action. cbn [snd fst]. rewrite (get_values_subcommand _ _ Hname).
  cbn [mbind outcome_bind]. rewrite (sub_call _ name rest Hname).
  pose proof (sub_parser_result (sub_parser name) rest) as Hsub.
  destruct (parse_known_args (sub_parser name) rest) as [[subns ex] | e];
    cbn [mbind outcome_bind].
  2: { destruct Hsub as [-> | ->]; [| done | done].
       unfold sub_parser. destruct Hname as [-> | ->]; auto. }
  assert (host_port subns) as Hhp.
  { apply Hsub. unfold sub_parser. destruct Hname as [-> | ->]; auto. }
  change (namespace (add_seen (st_init {["mode" := VNone]}) 1))
    with ({["mode" := VNone]} : Namespace).
  rewrite insert_singleton_eq.
  assert ((subns ∪ {["mode" := VStr name]}) !! _UNRECOGNIZED_ARGS_ATTR = None)
    as Hu.
  { rewrite lookup_union_r by (by apply host_port_unrecognized). done. }
  destruct ex as [|x ex]; cbv zeta; cbn [mbind outcome_bind namespace set_namespace].
  - by rewrite Hu.
  - rewrite Hu. cbn [mbind outcome_bind namespace set_namespace].
    rewrite lookup_insert_eq, delete_insert_eq, delete_id by done. done.
Qed.

Lemma parse_args_subcommand sys_argv name rest :
  name = "server" ∨ name = "client" →
  parse_args parser sys_argv (Some (name :: rest))
  = ('(subns, ex) ← parse_known_args (sub_parser name) rest;
     match ex with
     | [] => Return (subns ∪ {["mode" := VStr name]})
     | _ :: _ => Raise (SystemExit 2)
     end).
Proof.
  intros Hname. unfold parse_args. rewrite (parse_known_args_subcommand _ _ Hname).
  destruct (parse_known_args (sub_parser name) rest) as [[subns ex] | e];
    [| done].
  by destruct ex.
Qed.

(** *** Anything else first *)

Lemma no_options tokens start :
  Forall (λ t : token, t.2 = None) tokens →
  (Z.of_nat start <=? max_option_string_index tokens)%Z = false.
Proof.
  intros Hn. apply not_true_is_false.
  intros (j & t & _ & Ht)%max_option_string_index_spec.
  unfold option_tuple_at in Ht. destruct (tokens !! j) as [tok|] eqn:Hj; [| done].
  eapply Forall_lookup_1 in Hn; [| exact Hj]. simpl in Ht. congruence.
Qed.

Lemma sub_pattern_dash s :
  match_groups [_get_nargs_pattern sub] (pDash :: pA :: s)
  = Some [S (S (length s))].
Proof.
  change (_get_nargs_pattern sub)
    with [Star [pDash]; One [pA]; Star [pDash; pA; pO]].
  cbn [match_groups match_atoms match_star in_class existsb pat_eqb orb].
  rewrite (match_star_all _ s 2 _ [S (S (length s))]); [done | apply all_in_class | done].
Qed.

(** The separator first: no sub-command is selected. *)
Lemma separator_first ns rest r :
  _parse_known_args parser ("--" :: rest) ns ≠ Return r.
Proof.
  unfold _parse_known_args. cbn [classify String.eqb Ascii.eqb Bool.eqb].
  cbn [mbind outcome_bind]. rewrite parser_positionals. fold (st_init ns).
  set (tokens := (pDash, None) :: map (λ _, (pA, None)) rest).
  assert (Forall (λ t : token, t.2 = None) tokens) as Hn.
  { constructor; [done |]. apply Forall_forall. intros t Ht.
    by apply list_elem_of_fmap in Ht as (x & -> & _). }
  cbn [length consume_loop]. rewrite (no_options _ _ Hn).
  cbn [mbind outcome_bind].
  destruct rest as [|b rest].
  - vm_compute. discriminate.
  - unfold consume_positionals, _match_arguments_partial.
    cbn [positionals st_init length _match_arguments_partial_upto take map snd].
    change (drop 0 (arg_strings_pattern tokens))
      with (pDash :: pA :: map fst (map (λ _ : string, (pA, None : option option_tuple)) rest)).
    rewrite sub_pattern_dash. cbn [zip zip_with consume_each drop].
    unfold take_action at 1. unfold _get_values.
    cbn [snd nargs sub _SubParsersAction]. rewrite mapM_get_value_sub.
    discriminate.
Qed.

Lemma match_following_nonempty arg_strings tokens i a os ts ts' stop :
  match_following arg_strings tokens i a os ts = Return (ts', stop) → ts' ≠ [].
Proof.
  unfold match_following. destruct (_match_argument _ _); [| done].
  cbn [mbind outcome_bind]. intros [= <- <-]. by destruct ts.
Qed.

Lemma match_explicit_nonempty p arg_strings tokens ea : ∀ i a os ts ts' stop,
  match_explicit p arg_strings tokens i a os ea ts = Return (ts', stop) →
  ts' ≠ [].
Proof.
  induction ea as [|c ea IH]; intros i a os ts ts' stop; simpl.
  - destruct (_match_argument _ _) as [n|]; [| done]. cbn [mbind outcome_bind].
    destruct (n =? 1); [| done]. intros [= <- <-]. by destruct ts.
  - destruct (_match_argument _ _) as [n|]; [| done]. cbn [mbind outcome_bind].
    destruct ((n =? 0) && _).
    + destruct (lookup_str _ _) as [a'|]; [| done].
      destruct ea; [apply match_following_nonempty | apply IH].
    + destruct (n =? 1); [| done]. intros [= <- <-]. by destruct ts.
Qed.

(** An option of the top-level parser is the help: consuming it exits. *)
Lemma consume_help arg_strings tokens st i a os ea r :
  length tokens = length arg_strings →
  Forall (token_ok parser) tokens →
  option_tuple_at tokens i = Some (Some a, os, ea) →
  consume_optional parser arg_strings tokens st i ≠ Return r.
Proof.
  intros Hlen Htok Hi. unfold consume_optional. rewrite Hi.
  pose proof (option_tuple_at_known parser tokens Htok i a os ea Hi) as Ha.
  assert (tuples_known parser []) as Hnil by constructor.
  pose proof (match_explicit_ok parser arg_strings tokens Hlen) as Hex.
  pose proof (match_following_ok parser arg_strings tokens Hlen i a os [] Ha Hnil)
    as Hfo.
  destruct (match ea with Some _ => _ | None => _ end) as [[ts stop]|] eqn:Hm;
    cbn [mbind outcome_bind]; [| done].
  assert (ts ≠ [] ∧ tuples_known parser ts) as [Hne Hts].
  { destruct ea as [ea|].
    - split; [by eapply match_explicit_nonempty |].
      specialize (Hex ea i a os [] Ha Hnil). rewrite Hm in Hex. apply Hex.
    - split; [by eapply match_following_nonempty |].
      rewrite Hm in Hfo. apply Hfo. }
  destruct ts as [|[[a1 args1] os1] ts]; [done |].
  apply Forall_cons in Hts as [Ha1 _]. apply known_help in Ha1. simpl in Ha1.
  subst a1. cbn [take_actions]. rewrite take_help. done.
Qed.

(** An option first: it is the help, or it is left over. *)
Lemma option_first ns a rest t toks ns' :
  unrecognized_ok ns →
  classify parser (a :: rest) = Return ((pO, Some t) :: toks) →
  _parse_known_args parser (a :: rest) ns ≠ Return (ns', []).
Proof.
  intros Hns Hc. unfold _parse_known_args. rewrite Hc. cbn [mbind outcome_bind].
  apply classify_inv in Hc as [Hlen Htok].
  rewrite parser_positionals. fold (st_init ns).
  set (tokens := (pO, Some t) :: toks) in *.
  assert (option_tuple_at tokens 0 = Some t) as H0 by done.
  assert ((0 <=? max_option_string_index tokens)%Z = true) as Hcond.
  { apply (max_option_string_index_spec tokens 0). by exists 0, t. }
  cbn [length consume_loop]. change (Z.of_nat 0) with 0%Z. rewrite Hcond.
  destruct (next_option_string_index_spec tokens 0 Hcond)
    as (j & -> & _ & _ & Hmin).
  assert (j = 0) as -> by (pose proof (Hmin 0 t ltac:(lia) H0); lia).
  cbn [mbind outcome_bind]. rewrite bool_decide_eq_false_2 by lia.
  cbn [mbind outcome_bind]. rewrite H0.
  destruct t as [[[act|] os] ea].
  { pose proof (consume_help (a :: rest) tokens (st_init ns) 0 act os ea) as Hh.
    destruct (consume_optional parser (a :: rest) tokens (st_init ns) 0) as [r|];
      [| done].
    by destruct (Hh r Hlen Htok H0). }
  unfold consume_optional at 1. rewrite H0. cbn [mbind outcome_bind].
  set (st1 := add_extras (st_init ns) (take 1 (drop 0 (a :: rest)))).
  assert (state_ok unrecognized_ok parser st1) as Hst1.
  { split; [done |]. exact (positional_actions_indexed parser). }
  pose proof (consume_loop_ok unrecognized_ok parser parser_ok_top (a :: rest)
                tokens Hlen Htok (length rest) st1 1 Hst1) as H1.
  destruct (consume_loop parser (a :: rest) tokens (length rest) st1 1)
    as [[st2 start2]|]; cbn [mbind outcome_bind]; [| done].
  destruct H1 as (Hst2 & _ & [l He2]).
  pose proof (consume_positionals_ok unrecognized_ok parser parser_ok_top
                (a :: rest) tokens Hlen st2 start2 Hst2) as H2.
  destruct (consume_positionals (a :: rest) tokens st2 start2) as [[st3 stop]|];
    cbn [mbind outcome_bind]; [| done].
  destruct H2 as (_ & _ & He3).
  destruct (check_required _ _ _) as [[req ns1]|]; cbn [mbind outcome_bind];
    [| done].
  destruct req; [| done]. intros [= _ He]. simpl in He.
  rewrite He3, He2 in He. done.
Qed.

(** [parse_args] returns only when the first string is a sub-command. *)
Lemma parse_args_return sys_argv argv ns :
  parse_args parser sys_argv (Some argv) = Return ns →
  ∃ name rest, argv = name :: rest ∧ (name = "server" ∨ name = "client").
Proof.
  unfold parse_args, parse_known_args. rewrite parser_default.
  assert (unrecognized_ok ({["mode" := VNone]} : Namespace)) as Hns by (by left).
  pose proof (_parse_known_args_ok unrecognized_ok parser argv _ parser_ok_top Hns)
    as Hok.
  destruct argv as [|a rest].
  { vm_compute. discriminate. }
  intros Hret. exists a, rest. split; [done |].
  destruct (_parse_known_args parser (a :: rest) {["mode" := VNone]})
    as [[ns1 ex1]|e] eqn:Hp; cbn [mbind outcome_bind] in Hret.
  2: { destruct e; done. }
  assert (ex1 = []) as ->.
  { destruct (ns1 !! _UNRECOGNIZED_ARGS_ATTR) as [[]|]; try done;
      cbn [mbind outcome_bind] in Hret.
    - destruct ex1; [| done]. done.
    - by destruct ex1. }
  destruct (String.eqb_spec a "--") as [-> | Hsep].
  { by apply separator_first in Hp. }
  destruct (classify_top (a :: rest)) as [tokens Hc].
  pose proof Hc as Hc'. simpl in Hc'. rewrite (proj2 (String.eqb_neq _ _) Hsep) in Hc'.
  destruct (parse_optional_top a) as [[t|] Ha]; rewrite Ha in Hc';
    destruct (classify_top rest) as [toks Hr]; rewrite Hr in Hc';
    cbn [mbind outcome_bind] in Hc'; injection Hc' as <-.
  { by eapply option_first in Hp. }
  pose proof Hr as [Hlen _]%classify_inv.
  rewrite (subcommand_first _ a rest toks Hlen Hc) in Hp.
  destruct (take_action _ _ _) as [st1|] eqn:Hta; [| done].
  apply take_action_inv in Hta as (v & ns' & Hv & _ & _).
  by apply get_values_sub in Hv as (name & rest' & [= -> ->] & Hname & _).
Qed.

(** *** Options of a sub-command *)

Definition host_action (d : string) : Action :=
  _StoreAction ["--host"] "host" (λ s, Some (VStr s)) (VStr d).

Definition port_action : Action :=
  _StoreAction ["--port"] "port" int (VInt 9000).

(** A sub-parser whose default host is [d]. *)
Definition sub_with (d : string) : ArgumentParser :=
  {| _actions := [_HelpAction; host_action d; port_action] |}.

Definition host_default (name : string) : string :=
  if String.eqb name "server" then "0.0.0.0" else "127.0.0.1".

Lemma sub_parser_with name : sub_parser name = sub_with (host_default name).
Proof. unfold sub_parser, host_default. by destruct (String.eqb name "server"). Qed.

Lemma py_int_separator s n : py_int s = Some n → s ≠ "--".
Proof. by intros H ->. Qed.

Section explicit.
Context (d h s : string) (n : Z).
Context (Hh : h ≠ "--") (Hs : py_int s = Some n).

Let args : list string := [String.append "--host=" h; String.append "--port=" s].

Let tokens : list token :=
  [(pO, Some (Some (1, host_action d), "--host", Some h));
   (pO, Some (Some (2, port_action), "--port", Some s))].

Lemma classify_explicit : classify (sub_with d) args = Return tokens.
Proof. reflexivity. Qed.

(** [--host=h --port=s]: both values are stored. *)
Lemma sub_explicit :
  parse_known_args (sub_with d) args
  = Return ({["host" := VStr h; "port" := VInt n]}, []).
Proof.
  unfold parse_known_args, _parse_known_args. rewrite classify_explicit.
  cbn [mbind outcome_bind].
  set (st0 := {| namespace := default_namespace (sub_with d); extras := [];
                 seen_actions := [];
                 positionals := _get_positional_actions (sub_with d) |}).
  change (length args) with 2.
  erewrite (consume_loop_step _ _ tokens 1 st0 0); [| reflexivity |].
  2: { by apply (consume_store_explicit _ _ tokens (1, host_action d) "host")
         with (os := "--host") (ea := h) (v := VStr h). }
  erewrite (consume_loop_step _ _ tokens 0 _ 1); [| reflexivity |].
  2: { apply (consume_store_explicit _ _ tokens (2, port_action) "port")
         with (os := "--port") (ea := s) (v := VInt n); try done.
       - by eapply py_int_separator.
       - simpl. unfold int. by rewrite Hs. }
  rewrite consume_loop_past_end by (simpl; lia).
  cbn [mbind outcome_bind]. rewrite consume_positionals_none by reflexivity.
  cbn [mbind outcome_bind]. vm_compute. reflexivity.
Qed.

End explicit.

(** A string that does not start with a dash is an argument. *)
Lemma parse_optional_argument p arg_string :
  startswith arg_string "-" = false → _parse_optional p arg_string = Return None.
Proof.
  destruct arg_string as [| c0 rest]; [done |]. intros H.
  unfold _parse_optional. replace (is_prefix_char c0) with false; [done |].
  unfold startswith in H. cbn [String.prefix] in H. unfold is_prefix_char.
  destruct (ascii_dec "-" c0) as [<- | Hc]; [by destruct rest |].
  symmetry. apply Ascii.eqb_neq. congruence.
Qed.

Lemma argument_not_separator arg_string :
  startswith arg_string "-" = false → arg_string ≠ "--".
Proof. by intros H ->. Qed.

Section following.
Context (d h s : string) (n : Z).
Context (Hh : startswith h "-" = false).
Context (Hs : startswith s "-" = false) (Hn : py_int s = Some n).

Let args : list string := ["--host"; h; "--port"; s].

Let tokens : list token :=
  [(pO, Some (Some (1, host_action d), "--host", None)); (pA, None);
   (pO, Some (Some (2, port_action), "--port", None)); (pA, None)].

Lemma classify_following : classify (sub_with d) args = Return tokens.
Proof.
  unfold args. cbn [classify].
  rewrite (proj2 (String.eqb_neq h "--")) by by apply argument_not_separator.
  rewrite (proj2 (String.eqb_neq s "--")) by by apply argument_not_separator.
  by rewrite (parse_optional_argument _ h Hh), (parse_optional_argument _ s Hs).
Qed.

(** [--host h --port s]: both values are stored. *)
Lemma sub_following :
  parse_known_args (sub_with d) args
  = Return ({["host" := VStr h; "port" := VInt n]}, []).
Proof.
  unfold parse_known_args, _parse_known_args. rewrite classify_following.
  cbn [mbind outcome_bind].
  set (st0 := {| namespace := default_namespace (sub_with d); extras := [];
                 seen_actions := [];
                 positionals := _get_positional_actions (sub_with d) |}).
  change (length args) with 4.
  erewrite (consume_loop_step _ _ tokens 3 st0 0); [| reflexivity |].
  2: { apply (consume_store_following _ args tokens (1, host_action d) "host")
         with (os := "--host") (ea := h) (v := VStr h); try done.
       by apply argument_not_separator. }
  erewrite (consume_loop_step _ _ tokens 2 _ 2); [| reflexivity |].
  2: { apply (consume_store_following _ args tokens (2, port_action) "port")
         with (os := "--port") (ea := s) (v := VInt n); try done.
       - by apply argument_not_separator.
       - simpl. unfold int. by rewrite Hn. }
  rewrite consume_loop_past_end by (simpl; lia).
  cbn [mbind outcome_bind]. rewrite consume_positionals_none by reflexivity.
  cbn [mbind outcome_bind]. vm_compute. reflexivity.
Qed.

End following.

(** No option of a sub-parser is required, and converting the default
    of an option that was not given leaves the namespace as it is. *)
Lemma check_required_cons i action rest seen ns :
  check_required ((i, action) :: rest) seen ns
  = if bool_decide (i ∈ seen) then check_required rest seen ns
    else if required action then
      '(required_actions, ns) ← check_required rest seen ns;
      Return (i :: required_actions, ns)
    else
      ns ← match default action, dest action with
           | Some (VStr s), Some d =>
               match ns !! d with
               | Some v =>
                   if value_eq_str v s then
                     v ← _get_value action s; Return (<[d := v]> ns)
                   else Return ns
               | None => Return ns
               end
           | _, _ => Return ns
           end;
      check_required rest seen ns.
Proof. reflexivity. Qed.

Lemma check_required_sub d seen ns :
  check_required (indexed_actions (sub_with d)) seen ns = Return ([], ns).
Proof.
  change (indexed_actions (sub_with d))
    with [(0, _HelpAction); (1, host_action d); (2, port_action)].
  assert (∀ ns', check_required [(2, port_action)] seen ns' = Return ([], ns'))
    as Hport.
  { intros ns'. rewrite check_required_cons.
    by destruct (bool_decide (2 ∈ seen)). }
  assert (check_required [(1, host_action d); (2, port_action)] seen ns
          = Return ([], ns)) as Hhost.
  { rewrite check_required_cons.
    destruct (bool_decide (1 ∈ seen)); [apply Hport |].
    cbn [required host_action _StoreAction default dest].
    destruct (ns !! "host") as [v|] eqn:Hv; cbn [mbind outcome_bind];
      [| apply Hport].
    destruct v; cbn [value_eq_str mbind outcome_bind]; try apply Hport.
    destruct (String.eqb_spec s d) as [-> | Hne]; cbn [mbind outcome_bind];
      [| apply Hport].
    unfold _get_value. cbn [type host_action _StoreAction mbind outcome_bind].
    rewrite insert_id by done. apply Hport. }
  rewrite check_required_cons.
  destruct (bool_decide (0 ∈ seen)); [apply Hhost |].
  cbn [required _HelpAction default dest mbind outcome_bind]. apply Hhost.
Qed.

Section one_option.
Context (d h s : string).

Let st0 : state :=
  {| namespace := default_namespace (sub_with d); extras := [];
     seen_actions := []; positionals := _get_positional_actions (sub_with d) |}.

(** [--host=h] alone: the port keeps its default. *)
Lemma sub_host_only :
  h ≠ "--" →
  parse_known_args (sub_with d) [String.append "--host=" h]
  = Return ({["host" := VStr h; "port" := VInt 9000]}, []).
Proof.
  intros Hh. unfold parse_known_args, _parse_known_args.
  set (tokens := [(pO, Some (Some (1, host_action d), "--host", Some h))]).
  change (classify _ _) with (Return tokens : outcome (list token)).
  cbn [mbind outcome_bind]. fold st0. cbn [length].
  erewrite (consume_loop_step _ _ tokens 0 st0 0); [| reflexivity |].
  2: { by apply (consume_store_explicit _ _ tokens (1, host_action d) "host")
         with (os := "--host") (ea := h) (v := VStr h). }
  rewrite consume_loop_past_end by (simpl; lia).
  cbn [mbind outcome_bind]. rewrite consume_positionals_none by reflexivity.
  cbn [mbind outcome_bind]. vm_compute. reflexivity.
Qed.

(** [--port=s] alone: the host keeps its default. *)
Lemma sub_port_only n :
  py_int s = Some n →
  parse_known_args (sub_with d) [String.append "--port=" s]
  = Return ({["host" := VStr d; "port" := VInt n]}, []).
Proof.
  intros Hs. unfold parse_known_args, _parse_known_args.
  set (tokens := [(pO, Some (Some (2, port_action), "--port", Some s))]).
  change (classify _ _) with (Return tokens : outcome (list token)).
  cbn [mbind outcome_bind]. fold st0. cbn [length].
  erewrite (consume_loop_step _ _ tokens 0 st0 0); [| reflexivity |].
  2: { apply (consume_store_explicit _ _ tokens (2, port_action) "port")
         with (os := "--port") (ea := s) (v := VInt n); try done.
       - by eapply py_int_separator.
       - simpl. unfold int. by rewrite Hs. }
  rewrite consume_loop_past_end by (simpl; lia).
  cbn [mbind outcome_bind]. rewrite consume_positionals_none by reflexivity.
  cbn [mbind outcome_bind]. rewrite check_required_sub.
  vm_compute. reflexivity.
Qed.

(** [--port=s] with an [s] that [int] refuses: [parser.error]. *)
Lemma sub_port_invalid :
  s ≠ "--" → py_int s = None →
  parse_known_args (sub_with d) [String.append "--port=" s]
  = Raise (SystemExit 2).
Proof.
  intros Hsep Hs. unfold parse_known_args, _parse_known_args.
  set (tokens := [(pO, Some (Some (2, port_action), "--port", Some s))]).
  change (classify _ _) with (Return tokens : outcome (list token)).
  cbn [mbind outcome_bind]. fold st0. cbn [length].
  rewrite (consume_loop_step_raise _ _ tokens 0 st0 0
             (Some (2, port_action), "--port", Some s)
             (ArgumentError "invalid value")); [done | reflexivity |].
  apply (consume_store_invalid _ _ tokens (2, port_action))
    with (os := "--port") (ea := s); try done.
  simpl. unfold int. by rewrite Hs.
Qed.

End one_option.

(** *** What [parse_args] returns, and when it exits *)

Lemma parse_args_namespace sys_argv argv ns :
  parse_args parser sys_argv (Some argv) = Return ns →
  ∃ name rest subns,
    argv = name :: rest ∧ (name = "server" ∨ name = "client")
    ∧ host_port subns ∧ ns = subns ∪ {["mode" := VStr name]}.
Proof.
  intros Hp. destruct (parse_args_return _ _ _ Hp) as (name & rest & -> & Hname).
  rewrite (parse_args_subcommand _ _ _ Hname) in Hp.
  pose proof (sub_parser_result (sub_parser name) rest) as Hsub.
  destruct (parse_known_args (sub_parser name) rest) as [[subns ex] | e];
    [| done].
  destruct ex; [| done]. injection Hp as <-.
  exists name, rest, subns. repeat split; try done.
  apply Hsub. unfold sub_parser. destruct Hname as [-> | ->]; auto.
Qed.

Lemma namespace_mode subns name :
  host_port subns → (subns ∪ {["mode" := VStr name]}) !! "mode" = Some (VStr name).
Proof.
  intros Hhp. rewrite lookup_union_r by (by apply host_port_mode).
  apply lookup_singleton_eq.
Qed.

Lemma namespace_dom subns (name : string) :
  host_port subns →
  dom (subns ∪ {["mode" := VStr name]} : Namespace) = {["mode"; "host"; "port"]}.
Proof.
  unfold host_port. intros Hhp. rewrite dom_union_L, Hhp, dom_singleton_L.
  set_solver.
Qed.



Lemma parse_args_fields sys_argv argv ns :
  parse_args parser sys_argv (Some argv) = Return ns →
  ∃ name rest host port,
    argv = name :: rest ∧ (name = "server" ∨ name = "client")
    ∧ ns !! "mode" = Some (VStr name)
    ∧ ns !! "host" = Some host ∧ ns !! "port" = Some port
    ∧ dom ns = {["mode"; "host"; "port"]}.
Proof.
  intros (name & rest & subns & -> & Hname & Hhp & ->)%parse_args_namespace.
  destruct (host_port_lookup subns Hhp) as [[host Hhost] [port Hport]].
  exists name, rest, host, port. repeat split; try done.
  - by apply namespace_mode.
  - by apply lookup_union_Some_l.
  - by apply lookup_union_Some_l.
  - by apply namespace_dom.
Qed.

(** A sub-command and what its parser makes of the rest. *)
Lemma parse_args_sub sys_argv name rest subns :
  name = "server" ∨ name = "client" →
  parse_known_args (sub_with (host_default name)) rest = Return (subns, []) →
  parse_args parser sys_argv (Some (name :: rest))
  = Return (subns ∪ {["mode" := VStr name]}).
Proof.
  intros Hname Hsub. rewrite (parse_args_subcommand _ _ _ Hname).
  by rewrite sub_parser_with, Hsub.
Qed.

Lemma parse_args_sub_exit sys_argv name rest e :
  name = "server" ∨ name = "client" →
  parse_known_args (sub_with (host_default name)) rest = Raise e →
  parse_args parser sys_argv (Some (name :: rest)) = Raise e.
Proof.
  intros Hname Hsub. rewrite (parse_args_subcommand _ _ _ Hname).
  by rewrite sub_parser_with, Hsub.
Qed.

End parser_facts.

(** ** The command line *)

(** [parse_args] in a process with a program name: the parser is built
    and parses. *)
Lemma parse_args_result argv w :
  sys_argv w ≠ [] →
  (parse_args argv w).2 = argparse.parse_args parser (sys_argv w) (Some (given w argv)).
Proof.
  intros Hne. unfold parse_args, call. cbn [snd sys_argv set_trace].
  unfold given. destruct (sys_argv w) as [|prog args]; [done |]. by destruct argv.
Qed.

(** Without one, [ArgumentParser()] fails. *)
Lemma parse_args_no_program argv w :
  sys_argv w = [] → (parse_args argv w).2 = Raise IndexError.
Proof.
  intros He. unfold parse_args, call. cbn [snd sys_argv set_trace].
  by rewrite He.
Qed.

Lemma parse_args_Return argv w ns :
  (parse_args argv w).2 = Return ns →
  sys_argv w ≠ []
  ∧ argparse.parse_args parser (sys_argv w) (Some (given w argv)) = Return ns.
Proof.
  intros Hp. destruct (decide (sys_argv w = [])) as [He | Hne].
  - by rewrite (parse_args_no_program _ _ He) in Hp.
  - by rewrite (parse_args_result _ _ Hne) in Hp.
Qed.


Lemma namespace_of_union name h n :
  ({["host" := VStr h; "port" := VInt n]} ∪ {["mode" := VStr name]}
   : argparse.Namespace)
  = namespace_of name h n.
Proof. vm_compute. reflexivity. Qed.

Lemma parse_args_options w name rest h n :
  sys_argv w ≠ [] →
  name = "server" ∨ name = "client" →
  argparse.parse_known_args (parser_facts.sub_with (parser_facts.host_default name)) rest
  = Return ({["host" := VStr h; "port" := VInt n]}, []) →
  (parse_args (Some (name :: rest)) w).2 = Return (namespace_of name h n).
Proof.
  intros Hw Hname Hsub. rewrite parse_args_result by done. cbn [given].
  rewrite (parser_facts.parse_args_sub _ _ _ _ Hname Hsub).
  by rewrite namespace_of_union.
Qed.

(** C2: in a process with a program name ([sys.argv] not empty),
    [parse_args] accepts the sub-commands [server] and [client] and no
    other: alone they give the defaults (host 0.0.0.0 or 127.0.0.1, port
    9000); [--host] and [--port], as [--opt=value] or [--opt value], together
    or alone, replace the defaults, the port converted by [int] (an ASCII
    string [int] refuses is an error); and a namespace is returned only when
    the first argument string is one of the two sub-commands, and then has
    exactly the fields mode, host and port, mode being the sub-command.
    The port's text is [short], so that no setting of [int]'s digit limit
    bears on it. *)
Theorem parse_args_sub_commands (w : World) :
  sys_argv w ≠ [] →
  (parse_args (Some ["server"]) w).2
  = Return (namespace_of "server" "0.0.0.0" 9000)
  ∧ (parse_args (Some ["client"]) w).2
    = Return (namespace_of "client" "127.0.0.1" 9000)
  ∧ (∀ name h s n,
       name = "server" ∨ name = "client" → h ≠ "--" →
       short s = true → py_int s = Some n →
       (parse_args (Some [name; String.append "--host=" h;
                          String.append "--port=" s]) w).2
       = Return (namespace_of name h n))
  ∧ (∀ name h s n,
       name = "server" ∨ name = "client" →
       startswith h "-" = false → startswith s "-" = false →
       short s = true → py_int s = Some n →
       (parse_args (Some [name; "--host"; h; "--port"; s]) w).2
       = Return (namespace_of name h n))
  ∧ (∀ name h,
       name = "server" ∨ name = "client" → h ≠ "--" →
       (parse_args (Some [name; String.append "--host=" h]) w).2
       = Return (namespace_of name h 9000))
  ∧ (∀ name s n,
       name = "server" ∨ name = "client" →
       short s = true → py_int s = Some n →
       (parse_args (Some [name; String.append "--port=" s]) w).2
       = Return (namespace_of name (parser_facts.host_default name) n))
  ∧ (∀ name s,
       name = "server" ∨ name = "client" → s ≠ "--" →
       is_ascii s = true → short s = true → py_int s = None →
       (parse_args (Some [name; String.append "--port=" s]) w).2
       = Raise (SystemExit 2))
  ∧ (∀ argv ns,
       (parse_args argv w).2 = Return ns →
       ∃ name rest,
         given w argv = name :: rest ∧ (name = "server" ∨ name = "client")
         ∧ ns !! "mode" = Some (VStr name)
         ∧ dom ns = {["mode"; "host"; "port"]}).
Proof.
  intros Hw.
  split; [by apply (parse_args_options w "server" [] "0.0.0.0" 9000); auto |].
  split; [by apply (parse_args_options w "client" [] "127.0.0.1" 9000); auto |].
  split; [| split; [| split; [| split; [| split]]]].
  - intros name h s n Hname Hh _ Hs. apply parse_args_options; [done | done |].
    by apply parser_facts.sub_explicit.
  - intros name h s n Hname Hh Hs _ Hn. apply parse_args_options; [done | done |].
    by apply parser_facts.sub_following.
  - intros name h Hname Hh. apply parse_args_options; [done | done |].
    by apply parser_facts.sub_host_only.
  - intros name s n Hname _ Hs. apply parse_args_options; [done | done |].
    by apply parser_facts.sub_port_only.
  - intros name s Hname Hsep _ _ Hs. rewrite parse_args_result by done.
    cbn [given]. apply parser_facts.parse_args_sub_exit; [done |].
    by apply parser_facts.sub_port_invalid.
  - intros argv ns [_ Hp]%parse_args_Return.
    apply parser_facts.parse_args_fields in Hp
      as (name & rest & host & port & Hargv & Hname & Hmode & _ & _ & Hdom).
    by exists name, rest.
Qed.

Lemma parse_args_sub_commands_witness :
  (parse_args (Some ["server"; "--host"; "10.0.0.5"; "--port"; "8080"])
     (start main_py [])).2
  = Return (namespace_of "server" "10.0.0.5" 8080).
Proof.
  apply (proj1 (proj2 (proj2 (proj2 (parse_args_sub_commands (start main_py [])
                                       ltac:(done))))));
    [by left | reflexivity | reflexivity | reflexivity | reflexivity].
Defined.

(** C3: [run_server] raises [NotImplementedError] from
    [SQLiteDatabase.initialize]: the database is the only object made and
    [FinanceServer.start] is not among the calls; [run_client] raises it from
    [FinanceClient.connect]: the client is the only object made, no
    [ClientUI]; [main] calls [run_server] with the host and port of the
    parsed arguments when their mode is [server] and [run_client] when it is
    [client], the parsed arguments always have one of the two modes, a host
    and a port, and [main] returns no value. *)
Theorem main_dispatch :
  (∀ host port w,
     run_server host port w
     = ({| heap := heap w ++ [{| cls := "SQLiteDatabase";
                                 attrs := <["path" := VPath (DB_PATH w)]> ∅ |}];
           trace := trace w ++
                    [Call "run_server" [host; port];
                     Call "SQLiteDatabase.__init__"
                          [VRef (length (heap w)); VPath (DB_PATH w)];
                     Call "SQLiteDatabase.initialize" [VRef (length (heap w))]];
           sys_argv := sys_argv w; __file__ := __file__ w |},
        Raise (NotImplementedError (Some "创建 users 与 transactions 两张表"))))
  ∧ (∀ host port w,
       run_client host port w
       = ({| heap := heap w ++ [{| cls := "FinanceClient";
                                   attrs := <["port" := port]>
                                              (<["host" := host]> ∅) |}];
             trace := trace w ++
                      [Call "run_client" [host; port];
                       Call "FinanceClient.__init__"
                            [VRef (length (heap w)); host; port];
                       Call "FinanceClient.connect" [VRef (length (heap w))]];
             sys_argv := sys_argv w; __file__ := __file__ w |},
          Raise (NotImplementedError (Some "建立 TCP/HTTP 连接"))))
  ∧ (∀ argv w args host port,
       (parse_args argv w).2 = Return args →
       args !! "mode" = Some (VStr "server") →
       args !! "host" = Some host → args !! "port" = Some port →
       main argv w = run_server host port (parsed w argv))
  ∧ (∀ argv w args host port,
       (parse_args argv w).2 = Return args →
       args !! "mode" = Some (VStr "client") →
       args !! "host" = Some host → args !! "port" = Some port →
       main argv w = run_client host port (parsed w argv))
  ∧ (∀ argv w args,
       (parse_args argv w).2 = Return args →
       (args !! "mode" = Some (VStr "server")
        ∨ args !! "mode" = Some (VStr "client"))
       ∧ is_Some (args !! "host") ∧ is_Some (args !! "port"))
  ∧ (∀ argv w e,
       (parse_args argv w).2 = Raise e → main argv w = (parsed w argv, Raise e))
  ∧ (∀ argv w result, (main argv w).2 ≠ Return result).
Proof.
  split; [exact run_server_spec |]. split; [exact run_client_spec |].
  split; [| split; [| split; [| split]]].
  - intros argv w args host port Hp Hmode Hhost Hport.
    rewrite (main_parsed argv w args) by exact Hp.
    unfold getattr, mbind, M_bind. rewrite Hmode. cbn.
    rewrite Hhost. cbn. rewrite Hport. reflexivity.
  - intros argv w args host port Hp Hmode Hhost Hport.
    rewrite (main_parsed argv w args) by exact Hp.
    unfold getattr, mbind, M_bind. rewrite Hmode. cbn.
    rewrite Hhost. cbn. rewrite Hport. reflexivity.
  - intros argv w args [_ Hp]%parse_args_Return.
    apply parser_facts.parse_args_fields in Hp
      as (name & rest & host & port & _ & Hname & Hmode & Hhost & Hport & _).
    split; [| by rewrite Hhost, Hport].
    destruct Hname as [-> | ->]; auto.
  - intros argv w e Hp. unfold main, call. unfold mbind at 1, M_bind.
    unfold parse_args, call in Hp |- *. cbn [fst snd] in Hp |- *.
    cbn [sys_argv set_trace] in Hp |- *. rewrite Hp.
    unfold parsed, set_trace. cbn [heap trace sys_argv __file__].
    by rewrite <- app_assoc.
  - exact main_no_return.
Qed.

Lemma main_dispatch_witness :
  main (Some ["server"]) (start main_py [])
  = run_server (VStr "0.0.0.0") (VInt 9000)
      (parsed (start main_py []) (Some ["server"]))
  ∧ main (Some ["client"; "--port=8080"]) (start main_py [])
    = run_client (VStr "127.0.0.1") (VInt 8080)
        (parsed (start main_py []) (Some ["client"; "--port=8080"])).
Proof.
  split.
  - apply (proj1 (proj2 (proj2 main_dispatch)) (Some ["server"])
             (start main_py []) (namespace_of "server" "0.0.0.0" 9000));
      reflexivity.
  - apply (proj1 (proj2 (proj2 (proj2 main_dispatch)))
             (Some ["client"; "--port=8080"])
             (start main_py []) (namespace_of "client" "127.0.0.1" 8080));
      reflexivity.
Defined.




(** ** Further properties: the texts [int] and the negative-number
    pattern take are ASCII *)

Lemma is_space_ascii c : is_space c = true → (nat_of_ascii c <? 128) = true.
Proof.
  unfold is_space. intros H. apply Nat.ltb_lt.
  apply orb_true_iff in H as [[_ H%Nat.leb_le]%andb_true_iff | H%Nat.eqb_eq]; lia.
Qed.

Lemma is_digit_ascii c : is_digit c = true → (nat_of_ascii c <? 128) = true.
Proof.
  unfold is_digit. intros [_ H%Nat.leb_le]%andb_true_iff.
  apply Nat.ltb_lt. lia.
Qed.

Lemma all_space_ascii s : all_space s = true → is_ascii s = true.
Proof.
  induction s as [|c s IH]; [done |]. cbn [all_space is_ascii].
  intros [Hc Hs]%andb_true_iff. by rewrite (is_space_ascii _ Hc), (IH Hs).
Qed.

Lemma lstrip_ascii s : is_ascii (lstrip s) = true → is_ascii s = true.
Proof.
  induction s as [|c s IH]; [done |]. cbn [lstrip].
  destruct (is_space c) eqn:Hc; [| done].
  intros H. cbn [is_ascii]. by rewrite (is_space_ascii _ Hc), (IH H).
Qed.

Lemma int_digits_ascii s : ∀ prev acc count r,
  int_digits s prev acc count = Some r → is_ascii s = true.
Proof.
  induction s as [|c s IH]; intros prev acc count r; [done |].
  cbn [int_digits is_ascii].
  destruct (is_digit c) eqn:Hd.
  { intros H. by rewrite (is_digit_ascii _ Hd), (IH _ _ _ _ H). }
  destruct (Ascii.eqb c "_") eqn:Hu.
  { apply Ascii.eqb_eq in Hu as ->. destruct prev; [| done].
    intros H. by rewrite (IH _ _ _ _ H). }
  destruct (is_space c) eqn:Hc; [| done]. destruct prev; [| done].
  destruct (all_space s) eqn:Hs; [| done].
  intros _. by rewrite (is_space_ascii _ Hc), (all_space_ascii _ Hs).
Qed.

(** What [int] converts is an ASCII text. *)
Lemma py_int_ascii s n : py_int s = Some n → is_ascii s = true.
Proof.
  unfold py_int. intros H. apply lstrip_ascii.
  destruct (lstrip s) as [|c body]; [done |].
  assert (∀ sign b,
            match int_digits b false 0%Z 0 with
            | Some (m, count) =>
                if (int_max_str_digits <? count)%nat then None
                else Some (sign * m)%Z
            | None => None
            end = Some n → is_ascii b = true) as Hbody.
  { intros sign b Hb.
    destruct (int_digits b false 0%Z 0) as [r|] eqn:Hr; [| done].
    by apply int_digits_ascii in Hr. }
  destruct (ascii_dec c "-") as [-> | Hm]; [exact (Hbody _ _ H) |].
  destruct (ascii_dec c "+") as [-> | Hp]; [exact (Hbody _ _ H) |].
  apply (Hbody 1%Z).
  destruct c as [[] [] [] [] [] [] [] []]; try exact H; done.
Qed.

Lemma span_digits_ascii s : ∀ n r,
  argparse.span_digits s = (n, r) → is_ascii r = true → is_ascii s = true.
Proof.
  induction s as [|c s IH]; intros n r; cbn [argparse.span_digits].
  { by intros [= <- <-]. }
  destruct (is_digit c) eqn:Hc; [| by intros [= <- <-]].
  destruct (argparse.span_digits s) as [m r'] eqn:Hs. intros [= <- <-] Hr.
  cbn [is_ascii]. by rewrite (is_digit_ascii _ Hc), (IH _ _ eq_refl Hr).
Qed.

Lemma at_end_ascii s : argparse.at_end s = true → is_ascii s = true.
Proof.
  destruct s as [|c [|c' s]]; [done | | done]. cbn [argparse.at_end].
  by intros ->%Ascii.eqb_eq.
Qed.

(** What the negative-number pattern matches is an ASCII text. *)
Lemma negative_number_ascii s :
  argparse._negative_number_matcher s = true → is_ascii s = true.
Proof.
  destruct s as [|c r]; [done |].
  destruct (ascii_dec c "-") as [-> | Hc];
    [| by destruct c as [[] [] [] [] [] [] [] []]].
  cbn [argparse._negative_number_matcher is_ascii].
  destruct (argparse.span_digits r) as [n r1] eqn:Hs.
  intros H. apply (span_digits_ascii _ _ _ Hs).
  apply orb_true_iff in H as [[_ H]%andb_true_iff | H].
  { by apply at_end_ascii. }
  destruct r1 as [|c2 r2]; [done |].
  destruct (ascii_dec c2 ".") as [-> | Hc2];
    [| by destruct c2 as [[] [] [] [] [] [] [] []]].
  destruct (argparse.span_digits r2) as [m r3] eqn:Hs2.
  apply andb_true_iff in H as [_ H]. cbn [is_ascii].
  exact (span_digits_ascii _ _ _ Hs2 (at_end_ascii _ H)).
Qed.

(** ** Further properties: the options of a sub-command *)

Module options.
Import argparse argparse_facts parser_facts.

(** The two options of a sub-command. *)
Inductive Opt := Host | Port.

Definition full (o : Opt) : string :=
  match o with Host => "--host" | Port => "--port" end.

(** The strings argparse takes for the option: the option string and its
    prefixes that no other option string of the sub-parser ([-h],
    [--help], [--host], [--port]) starts with. *)
Definition spellings (o : Opt) : list string :=
  match o with
  | Host => ["--ho"; "--hos"; "--host"]
  | Port => ["--p"; "--po"; "--por"; "--port"]
  end.

Definition dest_of (o : Opt) : string :=
  match o with Host => "host" | Port => "port" end.

Definition action_of (d : string) (o : Opt) : ActionRef :=
  match o with Host => (1, host_action d) | Port => (2, port_action) end.

(** An option as written on the command line: [spelled=text], or
    [spelled text] in two strings. *)
Record given_option := {
  which : Opt;
  spelled : string;
  separate : bool;
  text : string;
}.

Definition render (g : given_option) : list string :=
  if separate g then [spelled g; text g]
  else [String.append (spelled g) (String "=" (text g))].

(** What the option's [type] makes of the text. *)
Definition converted (g : given_option) : option value :=
  type (action_of "" (which g)).2 (text g).

(** The option is spelled as argparse takes it, and its text is one
    argument: in two strings, a text that does not start with a dash or is
    a negative number; after [=], any text but the bare separator. *)
Definition well_formed (g : given_option) : bool :=
  bool_decide (spelled g ∈ spellings (which g))
  && (if separate g
      then negb (startswith (text g) "-") || _negative_number_matcher (text g)
      else negb (String.eqb (text g) "--")).

(** ... and its text is converted: any text for the host; for the port
    a text [int] takes, [short] so that no setting of the digit limit
    bears on it (and ASCII, as [py_int] takes no other). *)
Definition accepted (g : given_option) : bool :=
  well_formed g
  && match which g with Host => true | Port => short (text g) end
  && bool_decide (is_Some (converted g)).

Definition tokens_of (d : string) (g : given_option) : list token :=
  let t explicit_arg :=
    (pO, Some (Some (action_of d (which g)), full (which g), explicit_arg)) in
  if separate g then [t None; (pA, None)] else [t (Some (text g))].

(** The state after the option has been taken. *)
Definition step (d : string) (st : state) (g : given_option) : state :=
  match converted g with
  | Some v =>
      set_namespace (add_seen st (action_of d (which g)).1)
                    (<[dest_of (which g) := v]> (namespace st))
  | None => st
  end.

Definition store (ns : Namespace) (g : given_option) : Namespace :=
  match converted g with
  | Some v => <[dest_of (which g) := v]> ns
  | None => ns
  end.

Lemma converted_type d g : type (action_of d (which g)).2 (text g) = converted g.
Proof. unfold converted. by destruct (which g). Qed.

Lemma well_formed_spelled g :
  well_formed g = true → spelled g ∈ spellings (which g).
Proof.
  unfold well_formed. intros [H _]%andb_true_iff. by apply bool_decide_eq_true in H.
Qed.

(** A negative number is an argument for the sub-parsers: none of their
    option strings looks like one. *)
Lemma span_digits_split1 s : ∀ n r,
  span_digits s = (n, r) → split1 "=" r = None → split1 "=" s = None.
Proof.
  induction s as [|c s IH]; intros n r; cbn [span_digits].
  { by intros [= <- <-]. }
  destruct (is_digit c) eqn:Hc; [| by intros [= <- <-]].
  destruct (span_digits s) as [m r'] eqn:Hs. intros [= <- <-] Hr.
  cbn [split1]. rewrite (IH _ _ eq_refl Hr).
  replace (Ascii.eqb c "=") with false; [done |].
  symmetry. apply Ascii.eqb_neq. by intros ->.
Qed.

Lemma at_end_split1 s : at_end s = true → split1 "=" s = None.
Proof.
  destruct s as [|c [|c' s]]; [done | | done]. cbn [at_end].
  intros ->%Ascii.eqb_eq. reflexivity.
Qed.

Lemma split1_cons_None c s :
  Ascii.eqb c "=" = false → split1 "=" s = None → split1 "=" (String c s) = None.
Proof. intros Hc Hs. cbn [split1]. by rewrite Hc, Hs. Qed.

Lemma negative_number_inv s :
  _negative_number_matcher s = true →
  ∃ c1 r, s = String "-" (String c1 r)
          ∧ c1 ≠ "h"%char ∧ c1 ≠ "-"%char ∧ split1 "=" s = None.
Proof.
  destruct s as [|c r]; [done |].
  destruct c as [[] [] [] [] [] [] [] []]; try done.
  destruct r as [|c1 r]; [done |]. intros H. exists c1, r.
  split; [done |]. cbn [_negative_number_matcher span_digits] in H.
  destruct (is_digit c1) eqn:Hd.
  - split; [by intros -> |]. split; [by intros -> |].
    destruct (span_digits r) as [n r1] eqn:Hs.
    assert (split1 "=" (String c1 r) = None) as Hr.
    { apply (span_digits_split1 _ (S n) r1); [cbn [span_digits]; by rewrite Hd, Hs |].
      apply orb_true_iff in H as [[_ H]%andb_true_iff | H].
      - by apply at_end_split1.
      - destruct r1 as [|c2 r2]; [done |].
        destruct c2 as [[] [] [] [] [] [] [] []]; try done.
        destruct (span_digits r2) as [m r3] eqn:Hs2.
        apply andb_true_iff in H as [_ H]. apply split1_cons_None; [done |].
        exact (span_digits_split1 _ _ _ Hs2 (at_end_split1 _ H)). }
    by apply split1_cons_None.
  - cbn [Nat.ltb Nat.leb andb orb] in H.
    destruct c1 as [[] [] [] [] [] [] [] []]; try done.
    split; [done |]. split; [done |].
    destruct (span_digits r) as [m r3] eqn:Hs2.
    apply andb_true_iff in H as [_ H].
    apply split1_cons_None; [done |]. apply split1_cons_None; [done |].
    exact (span_digits_split1 _ _ _ Hs2 (at_end_split1 _ H)).
Qed.

Lemma parse_optional_negative d s :
  _negative_number_matcher s = true →
  _parse_optional (sub_with d) s = Return None.
Proof.
  intros Hm. destruct (negative_number_inv s Hm) as (c1 & r & -> & Hh & Hd & Hsp).
  assert (Ascii.eqb c1 "-" = false) as Hd' by (by apply Ascii.eqb_neq).
  assert (∀ k, Ascii.eqb k c1 = false → ∀ k' r',
            String.eqb (String "-" (String k k')) (String "-" (String c1 r'))
            = false) as Heq.
  { intros k Hk k' r'. cbn [String.eqb Ascii.eqb Bool.eqb]. by rewrite Hk. }
  assert (Ascii.eqb "h" c1 = false) as Hh1
    by (apply Ascii.eqb_neq; congruence).
  assert (Ascii.eqb "-" c1 = false) as Hd1
    by (apply Ascii.eqb_neq; congruence).
  assert (∀ k, k ≠ c1 → ∀ k' r',
            startswith (String "-" (String k k')) (String "-" (String c1 r'))
            = false) as Hpre.
  { intros k Hk k' r'. unfold startswith. cbn [String.prefix].
    destruct (ascii_dec "-" "-"); [| done].
    destruct (ascii_dec c1 k); [congruence | done]. }
  unfold _parse_optional. change (is_prefix_char "-") with true. cbn [negb].
  change (_option_string_actions (sub_with d))
    with [("-h", (0, _HelpAction)); ("--help", (0, _HelpAction));
          ("--host", (1, host_action d)); ("--port", (2, port_action))].
  cbn [lookup_str]. rewrite !Heq by done.
  replace (String.length (String "-" (String c1 r)) =? 1) with false by done.
  rewrite Hsp. unfold _get_option_tuples.
  change (is_prefix_char "-") with true. unfold is_prefix_char. rewrite Hd'.
  change (_option_string_actions (sub_with d))
    with [("-h", (0, _HelpAction)); ("--help", (0, _HelpAction));
          ("--host", (1, host_action d)); ("--port", (2, port_action))].
  cbn [andb negb omap list_omap fst snd]. rewrite !Heq by done.
  rewrite !Hpre by congruence.
  cbn [option_bind mbind outcome_bind]. rewrite Hm.
  reflexivity.
Qed.

Lemma negative_number_not_separator s :
  _negative_number_matcher s = true → s ≠ "--".
Proof. by intros H ->. Qed.

Lemma well_formed_text g :
  well_formed g = true →
  text g ≠ "--"
  ∧ (separate g = true →
     ∀ d, _parse_optional (sub_with d) (text g) = Return None).
Proof.
  unfold well_formed. intros [_ H]%andb_true_iff.
  destruct (separate g).
  - apply orb_true_iff in H as [H%negb_true_iff | H].
    + split; [by apply argument_not_separator |].
      intros _ d. by apply parse_optional_argument.
    + split; [by apply negative_number_not_separator |].
      intros _ d. by apply parse_optional_negative.
  - apply negb_true_iff, String.eqb_neq in H. done.
Qed.

Lemma accepted_inv g :
  accepted g = true → well_formed g = true ∧ ∃ v, converted g = Some v.
Proof.
  unfold accepted. intros [[Hw _]%andb_true_iff Hc]%andb_true_iff.
  split; [done |]. by apply bool_decide_eq_true in Hc as [v Hv]; exists v.
Qed.

Lemma render_length g : 1 ≤ length (render g).
Proof. unfold render. destruct (separate g); simpl; lia. Qed.

Lemma tokens_of_length d g : length (tokens_of d g) = length (render g).
Proof. unfold tokens_of, render. by destruct (separate g). Qed.

Lemma concat_render_length gs : length gs ≤ length (concat (map render gs)).
Proof.
  induction gs as [|g gs IH]; [done |]. simpl. rewrite length_app.
  pose proof (render_length g). lia.
Qed.

Lemma concat_tokens_length d gs :
  length (concat (map (tokens_of d) gs)) = length (concat (map render gs)).
Proof.
  induction gs as [|g gs IH]; [done |]. simpl.
  by rewrite !length_app, IH, tokens_of_length.
Qed.

(** *** Recognising the options *)

Lemma classify_cons p a rest :
  a ≠ "--" →
  classify p (a :: rest)
  = (option_tuple ← _parse_optional p a;
     tokens ← classify p rest;
     Return (match option_tuple with
             | None => (pA, None)
             | Some t => (pO, Some t)
             end :: tokens)).
Proof. intros Ha. cbn [classify]. by rewrite (proj2 (String.eqb_neq a "--")). Qed.

Lemma spelled_not_separator o sp tx :
  sp ∈ spellings o →
  sp ≠ "--" ∧ String.append sp (String "=" tx) ≠ "--".
Proof.
  intros Hsp. destruct o; cbn [spellings] in Hsp;
    repeat (apply elem_of_cons in Hsp as [-> | Hsp]; [by split |]);
    by apply elem_of_nil in Hsp.
Qed.

Lemma parse_optional_spelled d o sp :
  sp ∈ spellings o →
  _parse_optional (sub_with d) sp
  = Return (Some (Some (action_of d o), full o, None)).
Proof.
  intros Hsp. destruct o; cbn [spellings] in Hsp;
    repeat (apply elem_of_cons in Hsp as [-> | Hsp]; [reflexivity |]);
    by apply elem_of_nil in Hsp.
Qed.

Lemma parse_optional_explicit d o sp tx :
  sp ∈ spellings o →
  _parse_optional (sub_with d) (String.append sp (String "=" tx))
  = Return (Some (Some (action_of d o), full o, Some tx)).
Proof.
  intros Hsp. destruct o; cbn [spellings] in Hsp;
    repeat (apply elem_of_cons in Hsp as [-> | Hsp]; [reflexivity |]);
    by apply elem_of_nil in Hsp.
Qed.

Lemma classify_option d g rest :
  well_formed g = true →
  classify (sub_with d) (render g ++ rest)
  = (tokens ← classify (sub_with d) rest; Return (tokens_of d g ++ tokens)).
Proof.
  intros Hw. pose proof (well_formed_spelled g Hw) as Hsp.
  destruct (well_formed_text g Hw) as [Hsep Hdash].
  destruct (spelled_not_separator _ _ (text g) Hsp) as [Hn1 Hn2].
  unfold render, tokens_of. destruct (separate g); cbn [app].
  - rewrite (classify_cons _ _ _ Hn1), (parse_optional_spelled d _ _ Hsp).
    cbn [mbind outcome_bind].
    rewrite (classify_cons _ _ _ Hsep), (Hdash eq_refl d).
    cbn [mbind outcome_bind]. by destruct (classify (sub_with d) rest).
  - rewrite (classify_cons _ _ _ Hn2), (parse_optional_explicit d _ _ _ Hsp).
    cbn [mbind outcome_bind]. by destruct (classify (sub_with d) rest).
Qed.

Lemma classify_options d gs rest :
  Forall (λ g, well_formed g = true) gs →
  classify (sub_with d) (concat (map render gs) ++ rest)
  = (tokens ← classify (sub_with d) rest;
     Return (concat (map (tokens_of d) gs) ++ tokens)).
Proof.
  induction 1 as [|g gs Hg Hgs IH]; cbn [map concat app].
  { by destruct (classify (sub_with d) rest). }
  rewrite <- app_assoc, (classify_option _ _ _ Hg), IH.
  destruct (classify (sub_with d) rest); cbn [mbind outcome_bind]; [| done].
  by rewrite app_assoc.
Qed.

(** *** Taking the options *)

Section taking.
Context (d : string).

Lemma action_of_store o :
  nargs (action_of d o).2 = NargsNone
  ∧ option_strings (action_of d o).2 ≠ []
  ∧ choices (action_of d o).2 = None
  ∧ ∀ ns v, call (action_of d o).2 ns v = Return (<[dest_of o := v]> ns).
Proof. by destruct o. Qed.

(** One option, where the loop stands. *)
Lemma consume_option pre_t pre_a suf_t suf_a st g :
  length pre_t = length pre_a → accepted g = true →
  let arg_strings := pre_a ++ render g ++ suf_a in
  let tokens := pre_t ++ tokens_of d g ++ suf_t in
  is_Some (option_tuple_at tokens (length pre_a))
  ∧ consume_optional (sub_with d) arg_strings tokens st (length pre_a)
    = Return (step d st g, length pre_a + length (render g)).
Proof.
  intros Hlen [Hw [v Hv]]%accepted_inv arg_strings tokens.
  destruct (well_formed_text g Hw) as [Hsep Hdash].
  destruct (action_of_store (which g)) as (Hnargs & Hopt & Hchoices & Hcall).
  pose proof (converted_type d g) as Hty. rewrite Hv in Hty.
  unfold step. rewrite Hv. subst arg_strings tokens.
  unfold tokens_of, render. destruct (separate g); cbn [app length].
  - assert (∀ l : list token, option_tuple_at (pre_t ++ l) (length pre_a)
                              = l !! 0 ≫= snd) as Hat.
    { intros l. unfold option_tuple_at.
      by rewrite lookup_app_r, Hlen, Nat.sub_diag by lia. }
    split; [by rewrite Hat |].
    rewrite (consume_store_following _ _ _ (action_of d (which g))
               (dest_of (which g)) Hnargs Hopt Hchoices Hcall st (length pre_a)
               (full (which g)) (text g) v).
    + f_equal. f_equal. lia.
    + by rewrite Hat.
    + rewrite lookup_app_r by lia. by replace (S (length pre_a) - length pre_t) with 1 by lia.
    + rewrite lookup_app_r by lia. by replace (S (length pre_a) - length pre_a) with 1 by lia.
    + done.
    + done.
  - assert (∀ l : list token, option_tuple_at (pre_t ++ l) (length pre_a)
                              = l !! 0 ≫= snd) as Hat.
    { intros l. unfold option_tuple_at.
      by rewrite lookup_app_r, Hlen, Nat.sub_diag by lia. }
    split; [by rewrite Hat |].
    rewrite (consume_store_explicit _ _ _ (action_of d (which g))
               (dest_of (which g)) Hnargs Hopt Hchoices Hcall st (length pre_a)
               (full (which g)) (text g) v).
    + f_equal. f_equal. lia.
    + by rewrite Hat.
    + done.
    + done.
Qed.

(** The options one after the other: as many rounds of the loop. *)
Lemma consume_options gs : ∀ pre_t pre_a suf_t suf_a st fuel,
  length pre_t = length pre_a → Forall (λ g, accepted g = true) gs →
  consume_loop (sub_with d) (pre_a ++ concat (map render gs) ++ suf_a)
    (pre_t ++ concat (map (tokens_of d) gs) ++ suf_t) (length gs + fuel) st
    (length pre_a)
  = consume_loop (sub_with d) (pre_a ++ concat (map render gs) ++ suf_a)
      (pre_t ++ concat (map (tokens_of d) gs) ++ suf_t) fuel
      (foldl (step d) st gs)
      (length pre_a + length (concat (map render gs))).
Proof.
  induction gs as [|g gs IH]; intros pre_t pre_a suf_t suf_a st fuel Hlen Hgs.
  { cbn [map concat length foldl app]. by rewrite Nat.add_0_r. }
  apply Forall_cons in Hgs as [Hg Hgs].
  cbn [map concat length foldl]. rewrite <- !(app_assoc _ _ suf_a), <- !(app_assoc _ _ suf_t).
  destruct (consume_option pre_t pre_a (concat (map (tokens_of d) gs) ++ suf_t)
              (concat (map render gs) ++ suf_a) st g Hlen Hg) as [[t Ht] Hco].
  cbn [Nat.add].
  rewrite (consume_loop_step _ _ _ _ _ _ _ _ _ Ht Hco).
  specialize (IH (pre_t ++ tokens_of d g) (pre_a ++ render g) suf_t suf_a
                 (step d st g) fuel).
  rewrite !length_app, <- !app_assoc in IH.
  rewrite IH; [| by rewrite tokens_of_length, Hlen | done].
  f_equal. rewrite length_app. lia.
Qed.

Lemma step_namespace gs : ∀ st,
  namespace (foldl (step d) st gs) = foldl store (namespace st) gs.
Proof.
  induction gs as [|g gs IH]; intros st; [done |]. cbn [foldl]. rewrite IH.
  f_equal. unfold step, store. by destruct (converted g).
Qed.

Lemma step_rest gs : ∀ st,
  extras (foldl (step d) st gs) = extras st
  ∧ positionals (foldl (step d) st gs) = positionals st.
Proof.
  induction gs as [|g gs IH]; intros st; [done |]. cbn [foldl].
  destruct (IH (step d st g)) as [-> ->]. unfold step.
  by destruct (converted g).
Qed.

End taking.

(** *** The namespace they leave *)

Lemma store_lookup_ne gs k : ∀ ns,
  k ≠ "host" → k ≠ "port" → foldl store ns gs !! k = ns !! k.
Proof.
  induction gs as [|g gs IH]; intros ns Hh Hp; [done |]. cbn [foldl].
  rewrite IH by done. unfold store. destruct (converted g); [| done].
  apply lookup_insert_ne. by destruct (which g).
Qed.

Lemma store_union gs (m : Namespace) : ∀ ns,
  foldl store ns gs ∪ m = foldl store (ns ∪ m) gs.
Proof.
  induction gs as [|g gs IH]; intros ns; [done |]. cbn [foldl]. rewrite IH.
  f_equal. unfold store. destruct (converted g); [| done].
  by rewrite insert_union_l.
Qed.

Lemma sub_default d :
  default_namespace (sub_with d) = {["host" := VStr d; "port" := VInt 9000]}.
Proof. vm_compute. reflexivity. Qed.

Lemma sub_positionals d : _get_positional_actions (sub_with d) = [].
Proof. reflexivity. Qed.

(** The sub-parser on accepted options. *)
Lemma sub_options d gs :
  Forall (λ g, accepted g = true) gs →
  parse_known_args (sub_with d) (concat (map render gs))
  = Return (foldl store {["host" := VStr d; "port" := VInt 9000]} gs, []).
Proof.
  intros Hgs.
  assert (Forall (λ g, well_formed g = true) gs) as Hw.
  { eapply Forall_impl; [exact Hgs |]. by intros g [? _]%accepted_inv. }
  unfold parse_known_args, _parse_known_args.
  pose proof (classify_options d gs [] Hw) as Hc.
  rewrite app_nil_r in Hc. rewrite Hc. cbn [classify mbind outcome_bind].
  rewrite sub_positionals, sub_default, app_nil_r.
  set (st0 := {| namespace := {["host" := VStr d; "port" := VInt 9000]};
                 extras := []; seen_actions := []; positionals := [] |}).
  set (args := concat (map render gs)).
  set (tokens := concat (map (tokens_of d) gs)).
  pose proof (consume_options d gs [] [] [] [] st0 (length args - length gs)
                eq_refl Hgs) as Hloop.
  cbn [app length Nat.add] in Hloop. rewrite !app_nil_r in Hloop.
  replace (length gs + (length args - length gs)) with (length args) in Hloop
    by (pose proof (concat_render_length gs); subst args; lia).
  fold args tokens in Hloop. rewrite Hloop.
  rewrite consume_loop_past_end
    by (subst args tokens; rewrite concat_tokens_length; lia).
  cbn [mbind outcome_bind].
  destruct (step_rest d gs st0) as [Hex Hpos].
  rewrite consume_positionals_none by done.
  cbn [mbind outcome_bind]. rewrite drop_all, check_required_sub.
  cbn [mbind outcome_bind namespace extras add_extras map].
  rewrite Hex, step_namespace. cbn [extras st0 app namespace].
  rewrite store_lookup_ne by done. reflexivity.
Qed.

(** *** What may follow the options *)

(** [_parse_known_args] from the loop on. *)
Definition loop_then (p : ArgumentParser) (arg_strings : list string)
    (tokens : list token) (fuel : nat) (st : state) (start_index : nat)
  : outcome (Namespace * list value) :=
  '(st, start_index) ← consume_loop p arg_strings tokens fuel st start_index;
  '(st, stop_index) ← consume_positionals arg_strings tokens st start_index;
  let st := add_extras st (drop stop_index arg_strings) in
  '(required_actions, ns) ←
    check_required (indexed_actions p) (seen_actions st) (namespace st);
  match required_actions with
  | _ :: _ => error "the following arguments are required"
  | [] => Return (ns, extras st)
  end.

Definition st_default (d : string) : state :=
  {| namespace := {["host" := VStr d; "port" := VInt 9000]}; extras := [];
     seen_actions := []; positionals := [] |}.

Lemma parse_known_after d gs suf toks :
  Forall (λ g, accepted g = true) gs →
  classify (sub_with d) suf = Return toks →
  _parse_known_args (sub_with d) (concat (map render gs) ++ suf)
    (default_namespace (sub_with d))
  = loop_then (sub_with d) (concat (map render gs) ++ suf)
      (concat (map (tokens_of d) gs) ++ toks) (length suf)
      (foldl (step d) (st_default d) gs) (length (concat (map render gs))).
Proof.
  intros Hgs Hsuf.
  assert (Forall (λ g, well_formed g = true) gs) as Hw.
  { eapply Forall_impl; [exact Hgs |]. by intros g [? _]%accepted_inv. }
  unfold _parse_known_args. rewrite (classify_options d gs suf Hw), Hsuf.
  cbn [mbind outcome_bind]. rewrite sub_positionals, sub_default.
  fold (st_default d). unfold loop_then. f_equal.
  apply classify_inv in Hsuf as [Hlen _].
  set (args := concat (map render gs)).
  pose proof (concat_render_length gs) as Hle. fold args in Hle.
  pose proof (consume_options d gs [] [] toks suf (st_default d)
                (length args - length gs + length suf) eq_refl Hgs) as Hloop.
  cbn [app length Nat.add] in Hloop. fold args in Hloop.
  replace (length gs + (length args - length gs + length suf))
    with (length (args ++ suf)) in Hloop by (rewrite length_app; lia).
  rewrite Hloop. rewrite (Nat.add_comm _ (length suf)).
  apply consume_loop_fuel.
  rewrite length_app, concat_tokens_length. fold args. lia.
Qed.

(** Nothing but arguments is left: they are the extras. *)
Lemma loop_then_arguments d arg_strings tokens fuel st start :
  positionals st = [] →
  (∀ i, start ≤ i → option_tuple_at tokens i = None) →
  loop_then (sub_with d) arg_strings tokens fuel st start
  = Return (namespace st, extras st ++ map VStr (drop start arg_strings)).
Proof.
  intros Hpos Hnone. unfold loop_then.
  assert (consume_loop (sub_with d) arg_strings tokens fuel st start
          = Return (st, start)) as ->.
  { assert ((Z.of_nat start <=? max_option_string_index tokens)%Z = false) as Hc.
    { apply not_true_is_false.
      intros (i & t & Hi & Ht)%max_option_string_index_spec.
      by rewrite Hnone in Ht. }
    destruct fuel; simpl; by rewrite Hc. }
  cbn [mbind outcome_bind]. rewrite consume_positionals_none by done.
  cbn [mbind outcome_bind]. by rewrite check_required_sub.
Qed.

(** The option the loop stands at raises. *)
Lemma loop_then_raise d arg_strings tokens fuel st start t e :
  option_tuple_at tokens start = Some t →
  consume_optional (sub_with d) arg_strings tokens st start = Raise e →
  loop_then (sub_with d) arg_strings tokens (S fuel) st start = Raise e.
Proof.
  intros Ht Hco. unfold loop_then.
  by rewrite (consume_loop_step_raise _ _ _ _ _ _ _ _ Ht Hco).
Qed.

Lemma parse_known_args_result d args r :
  _parse_known_args (sub_with d) args (default_namespace (sub_with d)) = r →
  parse_known_args (sub_with d) args
  = match r with
    | Return (ns, ex) =>
        match ns !! _UNRECOGNIZED_ARGS_ATTR with
        | Some (VList l) => Return (delete _UNRECOGNIZED_ARGS_ATTR ns, ex ++ l)
        | Some _ => Raise TypeError
        | None => Return (ns, ex)
        end
    | Raise (ArgumentError _) => Raise (SystemExit 2)
    | Raise e => Raise e
    end.
Proof.
  intros <-. unfold parse_known_args.
  destruct (_parse_known_args _ _ _) as [[ns ex] | []]; reflexivity.
Qed.

Definition plain (x : string) : Prop := startswith x "-" = false.

Lemma classify_plain p xs :
  Forall plain xs → classify p xs = Return (map (λ _, (pA, None)) xs).
Proof.
  induction 1 as [|x xs Hx Hxs IH]; [done |].
  rewrite classify_cons by by apply argument_not_separator.
  by rewrite (parse_optional_argument _ _ Hx), IH.
Qed.

Lemma option_tuple_at_app (l1 l2 : list token) i :
  length l1 ≤ i →
  option_tuple_at (l1 ++ l2) i = option_tuple_at l2 (i - length l1).
Proof. intros Hi. unfold option_tuple_at. by rewrite lookup_app_r. Qed.

Lemma option_tuple_at_arguments (xs : list string) i :
  option_tuple_at (map (λ _, (pA, None)) xs : list token) i = None.
Proof.
  unfold option_tuple_at. change (map ?f xs) with (f <$> xs).
  rewrite list_lookup_fmap. by destruct (xs !! i).
Qed.

(** Arguments after the options are not recognised. *)
Lemma sub_stray d gs xs :
  Forall (λ g, accepted g = true) gs → Forall plain xs →
  parse_known_args (sub_with d) (concat (map render gs) ++ xs)
  = Return (foldl store {["host" := VStr d; "port" := VInt 9000]} gs,
            map VStr xs).
Proof.
  intros Hgs Hxs.
  rewrite (parse_known_args_result d _ _
             (parse_known_after d gs xs _ Hgs (classify_plain _ xs Hxs))).
  destruct (step_rest d gs (st_default d)) as [Hex Hpos].
  rewrite loop_then_arguments.
  - rewrite step_namespace, Hex. cbn [namespace extras st_default app].
    rewrite store_lookup_ne by done.
    by rewrite drop_app_length.
  - done.
  - intros i Hi. rewrite option_tuple_at_app
      by (by rewrite concat_tokens_length).
    apply option_tuple_at_arguments.
Qed.

(** The strings a sub-parser takes for its help option: [--h] is also
    the beginning of [--host]. *)
Definition help_spellings : list string := ["-h"; "--he"; "--hel"; "--help"].





Lemma option_tuple_at_middle (l1 l2 : list token) pt t i :
  i = length l1 → option_tuple_at (l1 ++ (pt, Some t) :: l2) i = Some t.
Proof. intros ->. unfold option_tuple_at. by rewrite list_lookup_middle. Qed.


Lemma pattern_after_middle (pre_t suf_t : list token) t :
  drop (S (length pre_t)) (map fst (pre_t ++ t :: suf_t)) = map fst suf_t.
Proof.
  rewrite (cons_middle t), app_assoc, map_app.
  rewrite drop_app_length'; [done |]. rewrite length_map, length_app. simpl. lia.
Qed.

(** An option without its argument: at the end, or before another
    option. *)
Lemma consume_store_missing d arg_strings pre_t suf_t st o :
  match suf_t with [] => True | (c, _) :: _ => c = pO end →
  consume_optional (sub_with d) arg_strings
    (pre_t ++ (pO, Some (Some (action_of d o), full o, None)) :: suf_t)
    st (length pre_t)
  = Raise (ArgumentError "expected one argument").
Proof.
  intros Hsuf. unfold consume_optional.
  rewrite (option_tuple_at_middle pre_t suf_t pO _ _ eq_refl).
  unfold match_following, arg_strings_pattern.
  rewrite pattern_after_middle.
  destruct suf_t as [|[c ot] suf_t]; [by destruct o |].
  simpl in Hsuf. subst c. by destruct o.
Qed.

Lemma tokens_of_head d gs :
  match concat (map (tokens_of d) gs) with
  | [] => True
  | (c, _) :: _ => c = pO
  end.
Proof.
  destruct gs as [|g gs]; [done |]. cbn [map concat]. unfold tokens_of.
  by destruct (separate g).
Qed.

(** A string the sub-parser reads as an option: not the separator, and
    [_parse_optional] answers an option tuple or stops on an ambiguity.  A
    string with a single dash is taken in ASCII, where the negative-number
    pattern is what Python computes. *)
Definition option_like (d x : string) : bool :=
  negb (String.eqb x "--") && (startswith x "--" || is_ascii x)
  && match _parse_optional (sub_with d) x with
     | Return None => false
     | _ => true
     end.

(** Such are the help option, the ambiguous [--h], the options with or
    without a text, and the unknown options. *)
Lemma option_like_help d h : h ∈ help_spellings → option_like d h = true.
Proof.
  intros Hh. unfold help_spellings in Hh.
  repeat (apply elem_of_cons in Hh as [-> | Hh]; [reflexivity |]).
  by apply elem_of_nil in Hh.
Qed.

Lemma option_like_ambiguous d : option_like d "--h" = true.
Proof. reflexivity. Qed.

Lemma option_like_spelled d o sp : sp ∈ spellings o → option_like d sp = true.
Proof.
  intros Hsp. unfold option_like. rewrite (parse_optional_spelled d o sp Hsp).
  destruct o; cbn [spellings] in Hsp;
    repeat (apply elem_of_cons in Hsp as [-> | Hsp]; [reflexivity |]);
    by apply elem_of_nil in Hsp.
Qed.

Lemma option_like_explicit d o sp tx :
  sp ∈ spellings o → option_like d (String.append sp (String "=" tx)) = true.
Proof.
  intros Hsp. unfold option_like.
  rewrite (parse_optional_explicit d o sp tx Hsp).
  destruct o; cbn [spellings] in Hsp;
    repeat (apply elem_of_cons in Hsp as [-> | Hsp]; [reflexivity |]);
    by apply elem_of_nil in Hsp.
Qed.

Lemma sub_missing d gs o sp rest :
  Forall (λ g, accepted g = true) gs → sp ∈ spellings o →
  match rest with [] => True | x :: _ => option_like d x = true end →
  parse_known_args (sub_with d) (concat (map render gs) ++ sp :: rest)
  = Raise (SystemExit 2).
Proof.
  intros Hgs Hsp Hrest.
  assert (Forall (λ g, well_formed g = true) gs) as Hws.
  { eapply Forall_impl; [exact Hgs |]. by intros g [? _]%accepted_inv. }
  destruct (spelled_not_separator o sp "" Hsp) as [Hsep _].
  destruct (classify (sub_with d) rest) as [toks | e] eqn:Hcr.
  - assert (classify (sub_with d) (sp :: rest)
            = Return ((pO, Some (Some (action_of d o), full o, None)) :: toks))
      as Hc.
    { rewrite (classify_cons _ _ _ Hsep), (parse_optional_spelled d _ _ Hsp).
      cbn [mbind outcome_bind]. by rewrite Hcr. }
    assert (match toks with [] => True | (c, _) :: _ => c = pO end) as Hhead.
    { destruct rest as [|x rest]; [by injection Hcr as <- |].
      unfold option_like in Hrest.
      apply andb_true_iff in Hrest as [[Hx%negb_true_iff _]%andb_true_iff Hpo].
      apply String.eqb_neq in Hx. rewrite (classify_cons _ _ _ Hx) in Hcr.
      destruct (_parse_optional (sub_with d) x) as [[t|]|]; [| done | done].
      cbn [mbind outcome_bind] in Hcr.
      destruct (classify (sub_with d) rest); [| done].
      cbn [mbind outcome_bind] in Hcr. by injection Hcr as <-. }
    rewrite (parse_known_args_result d _ _ (parse_known_after d gs _ _ Hgs Hc)).
    cbn [length].
    rewrite (loop_then_raise _ _ _ _ _ _ (Some (action_of d o), full o, None)
               (ArgumentError "expected one argument")); [done | |].
    + apply option_tuple_at_middle. by rewrite concat_tokens_length.
    + rewrite <- (concat_tokens_length d gs).
      by apply consume_store_missing.
  - apply classify_exn in Hcr as Hex. subst e.
    unfold parse_known_args, _parse_known_args.
    rewrite (classify_options d gs _ Hws), (classify_cons _ _ _ Hsep),
      (parse_optional_spelled d _ _ Hsp).
    cbn [mbind outcome_bind]. rewrite Hcr. reflexivity.
Qed.

(** An option whose text its [type] refuses. *)
Lemma consume_invalid d pre_t pre_a suf_t suf_a st g :
  length pre_t = length pre_a → well_formed g = true → converted g = None →
  let arg_strings := pre_a ++ render g ++ suf_a in
  let tokens := pre_t ++ tokens_of d g ++ suf_t in
  is_Some (option_tuple_at tokens (length pre_a))
  ∧ consume_optional (sub_with d) arg_strings tokens st (length pre_a)
    = Raise (ArgumentError "invalid value").
Proof.
  intros Hlen Hw Hv arg_strings tokens.
  destruct (well_formed_text g Hw) as [Hsep Hdash].
  destruct (action_of_store d (which g)) as (Hnargs & Hopt & Hchoices & Hcall).
  pose proof (converted_type d g) as Hty. rewrite Hv in Hty.
  subst arg_strings tokens.
  assert (∀ l : list token, option_tuple_at (pre_t ++ l) (length pre_a)
                            = l !! 0 ≫= snd) as Hat.
  { intros l. unfold option_tuple_at.
    by rewrite lookup_app_r, Hlen, Nat.sub_diag by lia. }
  unfold tokens_of, render. destruct (separate g); cbn [app length].
  - split; [by rewrite Hat |].
    unfold consume_optional. rewrite Hat. cbn [lookup list_lookup mbind option_bind snd].
    unfold match_following, arg_strings_pattern.
    rewrite <- Hlen, pattern_after_middle, Hlen. cbn [map fst].
    rewrite match_argument_one by done. cbn [mbind outcome_bind].
    assert (drop (S (length pre_a)) (pre_a ++ spelled g :: text g :: suf_a)
            = text g :: suf_a) as ->.
    { rewrite (cons_middle (spelled g)), app_assoc.
      rewrite drop_app_length'; [done |]. rewrite length_app. simpl. lia. }
    cbn [take app take_actions]. unfold take_action, _get_values.
    rewrite Hnargs. cbn [remove_first].
    rewrite (proj2 (String.eqb_neq _ _) Hsep). unfold _get_value.
    by rewrite Hty.
  - split; [by rewrite Hat |].
    apply (consume_store_invalid _ _ _ (action_of d (which g)) Hnargs Hopt)
      with (os := full (which g)) (ea := text g); [| done | done].
    by rewrite Hat.
Qed.

Lemma sub_invalid d gs g rest :
  Forall (λ g, accepted g = true) gs →
  well_formed g = true → converted g = None →
  parse_known_args (sub_with d) (concat (map render gs) ++ render g ++ rest)
  = Raise (SystemExit 2).
Proof.
  intros Hgs Hw Hv.
  assert (Forall (λ g, well_formed g = true) gs) as Hws.
  { eapply Forall_impl; [exact Hgs |]. by intros g' [? _]%accepted_inv. }
  destruct (classify (sub_with d) rest) as [toks | e] eqn:Hrest.
  - assert (classify (sub_with d) (render g ++ rest)
            = Return (tokens_of d g ++ toks)) as Hc
      by (by rewrite (classify_option _ _ _ Hw), Hrest).
    rewrite (parse_known_args_result d _ _ (parse_known_after d gs _ _ Hgs Hc)).
    pose proof (render_length g) as Hlen. rewrite length_app.
    destruct (length (render g)) as [|n] eqn:Hn; [lia |]. cbn [Nat.add].
    destruct (consume_invalid d (concat (map (tokens_of d) gs))
                (concat (map render gs)) toks rest
                (foldl (step d) (st_default d) gs) g
                (concat_tokens_length d gs) Hw Hv) as [[t Ht] Hco].
    by rewrite (loop_then_raise _ _ _ _ _ _ _ _ Ht Hco).
  - apply classify_exn in Hrest as Hex. subst e.
    unfold parse_known_args, _parse_known_args.
    rewrite (classify_options d gs _ Hws), (classify_option _ _ _ Hw), Hrest.
    reflexivity.
Qed.

(** [--h] begins [--help] and [--host]. *)
Lemma sub_ambiguous d gs tx rest :
  Forall (λ g, accepted g = true) gs →
  parse_known_args (sub_with d) (concat (map render gs) ++ "--h" :: rest)
  = Raise (SystemExit 2)
  ∧ parse_known_args (sub_with d)
      (concat (map render gs) ++ String.append "--h=" tx :: rest)
    = Raise (SystemExit 2).
Proof.
  intros Hgs.
  assert (Forall (λ g, well_formed g = true) gs) as Hws.
  { eapply Forall_impl; [exact Hgs |]. by intros g' [? _]%accepted_inv. }
  split; unfold parse_known_args, _parse_known_args;
    rewrite (classify_options d gs _ Hws), classify_cons by done; reflexivity.
Qed.

(** *** The last of each option counts *)

#[global] Instance Opt_eq_dec : EqDecision Opt.
Proof. solve_decision. Defined.

Definition last_given (o : Opt) (gs : list given_option) : option given_option :=
  last (filter (λ g, which g = o) gs).

Definition chosen_host (d : string) (gs : list given_option) : string :=
  match last_given Host gs with
  | Some g => text g
  | None => d
  end.

Definition chosen_port (gs : list given_option) : Z :=
  match last_given Port gs ≫= (λ g, py_int (text g)) with
  | Some n => n
  | None => 9000%Z
  end.

Lemma last_given_snoc o gs g :
  last_given o (gs ++ [g])
  = if decide (which g = o) then Some g else last_given o gs.
Proof.
  unfold last_given. rewrite filter_app, filter_cons, filter_nil.
  destruct (decide (which g = o)) as [Ho | Ho].
  - by rewrite last_snoc.
  - by rewrite app_nil_r.
Qed.

Lemma namespace_of_host name h n t :
  <["host" := VStr t]> (namespace_of name h n) = namespace_of name t n.
Proof. vm_compute. reflexivity. Qed.

Lemma namespace_of_port name h n m :
  <["port" := VInt m]> (namespace_of name h n) = namespace_of name h m.
Proof. vm_compute. reflexivity. Qed.

Lemma store_chosen name d gs :
  Forall (λ g, accepted g = true) gs →
  foldl store (namespace_of name d 9000) gs
  = namespace_of name (chosen_host d gs) (chosen_port gs).
Proof.
  induction gs as [|g gs IH] using rev_ind; intros Hgs; [done |].
  apply Forall_app in Hgs as [Hgs Hg]. apply Forall_inv in Hg.
  rewrite foldl_snoc, (IH Hgs). unfold store, chosen_host, chosen_port.
  rewrite !last_given_snoc.
  apply accepted_inv in Hg as [_ [v Hv]]. rewrite Hv.
  unfold converted in Hv. destruct g as [[] sp sep tx]; cbn [which text] in *.
  - rewrite decide_True, decide_False by done.
    injection Hv as <-. apply namespace_of_host.
  - rewrite decide_False, decide_True by done.
    cbn [mbind option_bind text]. cbn in Hv. unfold int in Hv.
    destruct (py_int tx) as [m|]; [| done].
    injection Hv as <-. apply namespace_of_port.
Qed.

(** *** Help before the sub-command *)



(** *** The bare separator as text, and unknown options *)

Lemma loop_then_step d arg_strings tokens fuel st start t st' stop :
  option_tuple_at tokens start = Some t →
  consume_optional (sub_with d) arg_strings tokens st start = Return (st', stop) →
  loop_then (sub_with d) arg_strings tokens (S fuel) st start
  = loop_then (sub_with d) arg_strings tokens fuel st' stop.
Proof.
  intros Ht Hco. unfold loop_then.
  by rewrite (consume_loop_step _ _ _ _ _ _ _ _ _ Ht Hco).
Qed.

Lemma loop_then_options d gs pre_t pre_a suf_t suf_a st fuel :
  length pre_t = length pre_a → Forall (λ g, accepted g = true) gs →
  loop_then (sub_with d) (pre_a ++ concat (map render gs) ++ suf_a)
    (pre_t ++ concat (map (tokens_of d) gs) ++ suf_t) (length gs + fuel) st
    (length pre_a)
  = loop_then (sub_with d) (pre_a ++ concat (map render gs) ++ suf_a)
      (pre_t ++ concat (map (tokens_of d) gs) ++ suf_t) fuel
      (foldl (step d) st gs)
      (length pre_a + length (concat (map render gs))).
Proof.
  intros Hlen Hgs. unfold loop_then.
  by rewrite (consume_options d gs pre_t pre_a suf_t suf_a st fuel Hlen Hgs).
Qed.

(** [option=--]: argparse 3.11 removes the ["--"] from the arguments of
    the option and stores the empty list that is left. *)
Lemma consume_store_separator d arg_strings tokens st i o :
  option_tuple_at tokens i = Some (Some (action_of d o), full o, Some "--") →
  consume_optional (sub_with d) arg_strings tokens st i
  = Return (set_namespace (add_seen st (action_of d o).1)
              (<[dest_of o := VList []]> (namespace st)), S i).
Proof.
  intros Hi. unfold consume_optional. rewrite Hi.
  destruct (action_of_store d o) as (Hnargs & Hopt & Hchoices & Hcall).
  assert (match_explicit (sub_with d) arg_strings tokens i (action_of d o)
            (full o) "--" []
          = Return ([(action_of d o, ["--"], full o)], S i)) as ->.
  { simpl. by rewrite match_argument_one. }
  cbn [mbind outcome_bind take_actions]. unfold take_action, _get_values.
  rewrite Hnargs. cbn [remove_first String.eqb Ascii.eqb Bool.eqb].
  by destruct o.
Qed.

Lemma sub_separator d gs o sp :
  Forall (λ g, accepted g = true) gs → sp ∈ spellings o →
  parse_known_args (sub_with d)
    (concat (map render gs) ++ [String.append sp "=--"])
  = Return (<[dest_of o := VList []]>
              (foldl store {["host" := VStr d; "port" := VInt 9000]} gs), []).
Proof.
  intros Hgs Hsp.
  destruct (spelled_not_separator o sp "--" Hsp) as [_ Hsep].
  assert (classify (sub_with d) [String.append sp "=--"]
          = Return [(pO, Some (Some (action_of d o), full o, Some "--"))]) as Hc.
  { rewrite (classify_cons _ _ _ Hsep).
    by rewrite (parse_optional_explicit d _ _ "--" Hsp). }
  rewrite (parse_known_args_result d _ _ (parse_known_after d gs _ _ Hgs Hc)).
  cbn [length].
  assert (option_tuple_at
            (concat (map (tokens_of d) gs)
             ++ [(pO, Some (Some (action_of d o), full o, Some "--"))])
            (length (concat (map render gs)))
          = Some (Some (action_of d o), full o, Some "--")) as Ht.
  { apply option_tuple_at_middle. by rewrite concat_tokens_length. }
  rewrite (loop_then_step _ _ _ _ _ _ _ _ _ Ht
             (consume_store_separator _ _ _ _ _ _ Ht)).
  destruct (step_rest d gs (st_default d)) as [Hex Hpos].
  rewrite loop_then_arguments.
  - cbn [namespace extras set_namespace add_seen]. rewrite step_namespace, Hex.
    cbn [namespace extras st_default app].
    rewrite drop_ge by (rewrite length_app; simpl; lia).
    rewrite lookup_insert_ne by (by destruct o).
    by rewrite store_lookup_ne.
  - done.
  - intros i Hi. unfold option_tuple_at. rewrite lookup_ge_None_2; [done |].
    rewrite length_app, concat_tokens_length. simpl. lia.
Qed.

(** A string that begins with two dashes, is more than the two dashes,
    is the beginning of none of [--help], [--host] and [--port], and holds
    neither [=] nor a space: an option the sub-parser does not have. *)
Definition unknown_option (u : string) : bool :=
  startswith u "--" && negb (String.eqb u "--")
  && forallb (λ k, negb (startswith k u)) ["--help"; "--host"; "--port"]
  && negb (contains "=" u) && negb (contains " " u).

Lemma contains_split1 c s : contains c s = false → split1 c s = None.
Proof.
  induction s as [|c' s IH]; [done |]. cbn [contains split1].
  destruct (Ascii.eqb c' c); [done |]. intros H. by rewrite (IH H).
Qed.

Lemma prefix_refl s : String.prefix s s = true.
Proof.
  induction s as [|c s IH]; [done |]. cbn [String.prefix].
  by destruct (ascii_dec c c).
Qed.

Lemma parse_optional_unknown d u :
  unknown_option u = true →
  u ≠ "--" ∧ _parse_optional (sub_with d) u = Return (Some (None, u, None)).
Proof.
  unfold unknown_option.
  intros [[[[Hpre Hsep]%andb_true_iff Hkeys]%andb_true_iff Heq]%andb_true_iff
            Hspace]%andb_true_iff.
  apply negb_true_iff in Hsep, Heq, Hspace.
  apply String.eqb_neq in Hsep. split; [done |].
  apply contains_split1 in Heq.
  cbn [forallb] in Hkeys.
  apply andb_true_iff in Hkeys as [Hhelp%negb_true_iff Hkeys].
  apply andb_true_iff in Hkeys as [Hhost%negb_true_iff Hkeys].
  apply andb_true_iff in Hkeys as [Hport%negb_true_iff _].
  assert (∃ r, u = String "-" (String "-" r)) as [r ->].
  { unfold startswith in Hpre. destruct u as [|c0 u]; [done |].
    cbn [String.prefix] in Hpre.
    destruct (ascii_dec "-" c0) as [<- |]; [| done].
    destruct u as [|c1 r]; [done |]. cbn [String.prefix] in Hpre.
    destruct (ascii_dec "-" c1) as [<- |]; [| done]. by exists r. }
  set (u := String "-" (String "-" r)) in *.
  assert (∀ k, startswith k u = false → String.eqb k u = false) as Hne.
  { intros k Hk. destruct (String.eqb_spec k u) as [-> |]; [| done].
    unfold startswith in Hk. by rewrite prefix_refl in Hk. }
  unfold _parse_optional. change (is_prefix_char "-") with true. cbn [negb].
  change (_option_string_actions (sub_with d))
    with [("-h", (0, _HelpAction)); ("--help", (0, _HelpAction));
          ("--host", (1, host_action d)); ("--port", (2, port_action))].
  cbn [lookup_str].
  rewrite (Hne _ Hhelp), (Hne _ Hhost), (Hne _ Hport).
  replace (String.eqb "-h" u) with false by done.
  replace (String.length u =? 1) with false by done.
  rewrite Heq. unfold _get_option_tuples, u at 1.
  change (is_prefix_char "-") with true. fold u. rewrite Heq.
  change (_option_string_actions (sub_with d))
    with [("-h", (0, _HelpAction)); ("--help", (0, _HelpAction));
          ("--host", (1, host_action d)); ("--port", (2, port_action))].
  cbn [andb negb omap list_omap fst snd].
  rewrite Hhelp, Hhost, Hport.
  replace (startswith "-h" u) with false by done.
  cbn [option_bind mbind outcome_bind].
  replace (_negative_number_matcher u) with false by done.
  cbn [andb]. by rewrite Hspace.
Qed.

Lemma option_like_unknown d u : unknown_option u = true → option_like d u = true.
Proof.
  intros Hu. destruct (parse_optional_unknown d u Hu) as [Hsep Hpo].
  unfold option_like. rewrite Hpo, (proj2 (String.eqb_neq _ _) Hsep).
  unfold unknown_option in Hu.
  apply andb_true_iff in Hu as [Hu _]. apply andb_true_iff in Hu as [Hu _].
  apply andb_true_iff in Hu as [Hu _]. apply andb_true_iff in Hu as [Hu _].
  by rewrite Hu.
Qed.

Lemma consume_unknown d arg_strings tokens st i u :
  option_tuple_at tokens i = Some (None, u, None) →
  arg_strings !! i = Some u →
  consume_optional (sub_with d) arg_strings tokens st i
  = Return (add_extras st [u], S i).
Proof.
  intros Hi Ha. unfold consume_optional. rewrite Hi.
  by rewrite (drop_S _ _ _ Ha).
Qed.

Lemma add_extras_step d gs : ∀ st us,
  foldl (step d) (add_extras st us) gs = add_extras (foldl (step d) st gs) us.
Proof.
  induction gs as [|g gs IH]; intros st us; [done |]. cbn [foldl].
  rewrite <- IH. f_equal. unfold step. by destruct (converted g).
Qed.

(** An unknown option among the options and arguments is reported. *)
Lemma sub_unknown d gs u gs' xs :
  Forall (λ g, accepted g = true) gs → unknown_option u = true →
  Forall (λ g, accepted g = true) gs' → Forall plain xs →
  parse_known_args (sub_with d)
    (concat (map render gs) ++ u :: concat (map render gs') ++ xs)
  = Return (foldl store {["host" := VStr d; "port" := VInt 9000]} (gs ++ gs'),
            VStr u :: map VStr xs).
Proof.
  intros Hgs Hu Hgs' Hxs.
  assert (Forall (λ g, well_formed g = true) gs') as Hw.
  { eapply Forall_impl; [exact Hgs' |]. by intros g [? _]%accepted_inv. }
  destruct (parse_optional_unknown d u Hu) as [Hsep Hpo].
  set (toks' := concat (map (tokens_of d) gs') ++ map (λ _, (pA, None)) xs).
  assert (classify (sub_with d) (u :: concat (map render gs') ++ xs)
          = Return ((pO, Some (None, u, None)) :: toks')) as Hc.
  { rewrite (classify_cons _ _ _ Hsep), Hpo. cbn [mbind outcome_bind].
    by rewrite (classify_options d gs' xs Hw), (classify_plain _ xs Hxs). }
  rewrite (parse_known_args_result d _ _ (parse_known_after d gs _ _ Hgs Hc)).
  set (args := concat (map render gs)).
  set (toks := concat (map (tokens_of d) gs)).
  assert (length toks = length args) as Hlen
    by apply concat_tokens_length.
  assert (option_tuple_at (toks ++ (pO, Some (None, u, None)) :: toks')
            (length args) = Some (None, u, None)) as Ht
    by (by apply option_tuple_at_middle).
  assert ((args ++ u :: concat (map render gs') ++ xs) !! length args = Some u)
    as Ha by apply list_lookup_middle, eq_refl.
  cbn [length].
  rewrite (loop_then_step _ _ _ _ _ _ _ _ _ Ht (consume_unknown _ _ _ _ _ _ Ht Ha)).
  pose proof (loop_then_options d gs' (toks ++ [(pO, Some (None, u, None))])
                (args ++ [u]) (map (λ _, (pA, None)) xs) xs
                (add_extras (foldl (step d) (st_default d) gs) [u])
                (length (concat (map render gs') ++ xs) - length gs')) as Hopts.
  rewrite <- !app_assoc in Hopts. cbn [app] in Hopts.
  rewrite !length_app in Hopts. cbn [length] in Hopts.
  replace (length gs' + (length (concat (map render gs')) + length xs - length gs'))
    with (length (concat (map render gs')) + length xs) in Hopts
    by (pose proof (concat_render_length gs'); lia).
  rewrite length_app. replace (S (length args)) with (length args + 1) by lia.
  subst toks'. rewrite Hopts by (done || lia). clear Hopts.
  rewrite add_extras_step, <- foldl_app.
  destruct (step_rest d (gs ++ gs') (st_default d)) as [Hex Hpos].
  rewrite loop_then_arguments.
  - cbn [namespace extras add_extras]. rewrite step_namespace, Hex.
    cbn [namespace extras st_default app map].
    rewrite store_lookup_ne by done.
    replace (drop _ _) with xs; [done |].
    rewrite (cons_middle u), !app_assoc, drop_app_length'; [done |].
    rewrite !length_app. simpl. lia.
  - done.
  - intros i Hi. rewrite (cons_middle (pO, _)), !app_assoc.
    rewrite option_tuple_at_app
      by (rewrite !length_app, concat_tokens_length; simpl; lia).
    apply option_tuple_at_arguments.
Qed.

End options.

(** ** Further properties: [int] on decimal digits *)

Definition digit_char (d : nat) : ascii := ascii_of_nat (48 + d).

(** The string of the decimal digits [ds], most significant first. *)
Fixpoint digits_string (ds : list nat) : string :=
  match ds with
  | [] => EmptyString
  | d :: ds => String (digit_char d) (digits_string ds)
  end.

(** The number the digits denote. *)
Definition decimal (ds : list nat) : Z :=
  foldl (λ a d, 10 * a + Z.of_nat d)%Z 0%Z ds.

Lemma digit_char_spec d :
  d < 10 →
  is_digit (digit_char d) = true ∧ digit_value (digit_char d) = Z.of_nat d.
Proof.
  intros Hd. do 10 (destruct d as [|d]; [by split |]). lia.
Qed.

Lemma int_digits_digits ds : ∀ acc count,
  Forall (λ d, d < 10) ds →
  int_digits (digits_string ds) true acc count
  = Some (foldl (λ a d, 10 * a + Z.of_nat d)%Z acc ds, count + length ds).
Proof.
  induction ds as [|d ds IH]; intros acc count Hds.
  { cbn. by rewrite Nat.add_0_r. }
  apply Forall_cons in Hds as [Hd Hds].
  destruct (digit_char_spec d Hd) as [Hdig Hval].
  cbn [digits_string int_digits foldl length]. rewrite Hdig, Hval, (IH _ _ Hds).
  do 2 f_equal. lia.
Qed.

Lemma py_int_digits d ds :
  Forall (λ d, d < 10) (d :: ds) →
  py_int (digits_string (d :: ds))
  = if (int_max_str_digits <? length (d :: ds))%nat then None
    else Some (decimal (d :: ds)).
Proof.
  intros Hds. apply Forall_cons in Hds as [Hd Hds].
  assert (py_int (digits_string (d :: ds))
          = match int_digits (digits_string ds) true (Z.of_nat d) 1 with
            | Some (n, count) =>
                if (int_max_str_digits <? count)%nat then None else Some (1 * n)%Z
            | None => None
            end) as ->.
  { do 10 (destruct d as [|d]; [reflexivity |]). lia. }
  rewrite (int_digits_digits _ _ _ Hds). cbn [length Nat.add].
  unfold decimal. cbn [foldl]. rewrite Z.mul_1_l. reflexivity.
Qed.

Lemma digits_not_separator d ds : d < 10 → digits_string (d :: ds) ≠ "--".
Proof. intros Hd. do 10 (destruct d as [|d]; [done |]). lia. Qed.

(** ** Further properties: the command line and [main] *)

Lemma parse_args_sub_result w name rest :
  sys_argv w ≠ [] → name = "server" ∨ name = "client" →
  (parse_args (Some (name :: rest)) w).2
  = ('(subns, ex) ←
       argparse.parse_known_args
         (parser_facts.sub_with (parser_facts.host_default name)) rest;
     match ex with
     | [] => Return (subns ∪ {["mode" := VStr name]})
     | _ :: _ => Raise (SystemExit 2)
     end).
Proof.
  intros Hw Hname. rewrite (parse_args_result _ _ Hw). cbn [given].
  by rewrite (parser_facts.parse_args_subcommand _ _ _ Hname),
    parser_facts.sub_parser_with.
Qed.

(** X1: in a process whose [sys.argv] is not empty, after a sub-command
    any number of [--host] and [--port] options is accepted, each spelled
    in full or abbreviated ([--ho], [--hos], [--p], [--po], [--por]) and
    written [option=text] (any text but the bare ["--"]) or [option text]
    (a text that does not start with a dash, or a negative number in ASCII
    digits), in any order and with repetitions, as long as the text of
    every [--port] is an ASCII text of at most 640 characters that [int]
    takes; the namespace holds the text of the last [--host] and the
    integer of the last [--port], and the default of an option that was not
    given.  No range is imposed on the port. *)
Theorem parse_args_takes_options (w : World) (name : string)
    (gs : list options.given_option) :
  sys_argv w ≠ [] →
  name = "server" ∨ name = "client" →
  Forall (λ g, options.accepted g = true) gs →
  (parse_args (Some (name :: concat (map options.render gs))) w).2
  = Return (namespace_of name
              (options.chosen_host (parser_facts.host_default name) gs)
              (options.chosen_port gs)).
Proof.
  intros Hw Hname Hgs. rewrite (parse_args_sub_result _ _ _ Hw Hname).
  rewrite (options.sub_options _ _ Hgs). cbn [mbind outcome_bind].
  rewrite options.store_union, namespace_of_union.
  by rewrite options.store_chosen.
Qed.

Lemma parse_args_takes_options_witness :
  (parse_args (Some ["client"; "--po"; "80"; "--host=a"; "--ho"; "b";
                     "--port"; "-8080"]) (start main_py [])).2
  = Return (namespace_of "client" "b" (-8080)).
Proof.
  apply (parse_args_takes_options (start main_py []) "client"
           [options.Build_given_option options.Port "--po" true "80";
            options.Build_given_option options.Host "--host" false "a";
            options.Build_given_option options.Host "--ho" true "b";
            options.Build_given_option options.Port "--port" true "-8080"]);
    [done | by right | by repeat constructor].
Defined.

(** X2: in a process whose [sys.argv] is not empty, arguments that follow
    the sub-command and its accepted options, none of them starting with a
    dash, are not recognised: [parse_args] exits with status 2. *)
Theorem parse_args_rejects_arguments (w : World) (name : string)
    (gs : list options.given_option) (x : string) (xs : list string) :
  sys_argv w ≠ [] →
  name = "server" ∨ name = "client" →
  Forall (λ g, options.accepted g = true) gs →
  Forall options.plain (x :: xs) →
  (parse_args (Some (name :: concat (map options.render gs) ++ x :: xs)) w).2
  = Raise (SystemExit 2).
Proof.
  intros Hw Hname Hgs Hxs. rewrite (parse_args_sub_result _ _ _ Hw Hname).
  by rewrite (options.sub_stray _ _ _ Hgs Hxs).
Qed.

Lemma parse_args_rejects_arguments_witness :
  (parse_args (Some ["server"; "--port=1"; "client"]) (start main_py [])).2
  = Raise (SystemExit 2).
Proof.
  apply (parse_args_rejects_arguments (start main_py []) "server"
           [options.Build_given_option options.Port "--port" false "1"]
           "client" []);
    [done | by left | by repeat constructor | by repeat constructor].
Defined.



(** X4: in a process whose [sys.argv] is not empty, [--host] or [--port]
    (or an abbreviation) given without a text after accepted options, at
    the end of the command line or right before a string the sub-parser
    reads as an option ([options.option_like]: [-h], [--help] and its
    abbreviations, the ambiguous [--h], a [--host] or [--port] with or
    without [=text], an option the parser does not have), is an error
    whatever follows: [parse_args] exits with status 2. *)
Theorem parse_args_missing_value (w : World) (name sp : string)
    (o : options.Opt) (gs : list options.given_option) (rest : list string) :
  sys_argv w ≠ [] →
  name = "server" ∨ name = "client" →
  Forall (λ g, options.accepted g = true) gs →
  sp ∈ options.spellings o →
  match rest with
  | [] => True
  | x :: _ => options.option_like (parser_facts.host_default name) x = true
  end →
  (parse_args (Some (name :: concat (map options.render gs) ++ sp :: rest)) w).2
  = Raise (SystemExit 2).
Proof.
  intros Hw Hname Hgs Hsp Hrest.
  rewrite (parse_args_sub_result _ _ _ Hw Hname).
  by rewrite (options.sub_missing _ _ _ _ _ Hgs Hsp Hrest).
Qed.

Lemma parse_args_missing_value_witness :
  (parse_args (Some ["client"; "--port=1"; "--host"; "-h"; "--port"; "2"])
     (start main_py [])).2
  = Raise (SystemExit 2).
Proof.
  apply (parse_args_missing_value (start main_py []) "client" "--host"
           options.Host
           [options.Build_given_option options.Port "--port" false "1"]
           ["-h"; "--port"; "2"]);
    [done | by right | by repeat constructor | by repeat constructor
    | reflexivity].
Defined.

(** X5: in a process whose [sys.argv] is not empty, a [--port] whose
    text is an ASCII text of at most 640 characters that [int] refuses,
    after accepted options, makes [parse_args] exit with status 2, whatever
    follows on the command line. *)
Theorem parse_args_invalid_port (w : World) (name : string)
    (gs : list options.given_option) (g : options.given_option)
    (rest : list string) :
  sys_argv w ≠ [] →
  name = "server" ∨ name = "client" →
  Forall (λ g, options.accepted g = true) gs →
  options.well_formed g = true → options.which g = options.Port →
  is_ascii (options.text g) = true → short (options.text g) = true →
  py_int (options.text g) = None →
  (parse_args (Some (name :: concat (map options.render gs)
                          ++ options.render g ++ rest)) w).2
  = Raise (SystemExit 2).
Proof.
  intros Hargv Hname Hgs Hw Hport _ _ Hint.
  rewrite (parse_args_sub_result _ _ _ Hargv Hname).
  rewrite (options.sub_invalid _ _ _ _ Hgs Hw); [done |].
  unfold options.converted. rewrite Hport. cbn. unfold argparse.int.
  by rewrite Hint.
Qed.

Lemma parse_args_invalid_port_witness :
  (parse_args (Some ["server"; "--host=a"; "--port"; "8080.0"; "--port=1"])
     (start main_py [])).2
  = Raise (SystemExit 2).
Proof.
  apply (parse_args_invalid_port (start main_py []) "server"
           [options.Build_given_option options.Host "--host" false "a"]
           (options.Build_given_option options.Port "--port" true "8080.0")
           ["--port=1"]);
    [done | by left | by repeat constructor | reflexivity | reflexivity
    | reflexivity | reflexivity | reflexivity].
Defined.

(** X6: in a process whose [sys.argv] is not empty, after a sub-command
    and accepted options [--h] is ambiguous, the beginning of [--help] and
    of [--host]: alone or as [--h=text], it makes [parse_args] exit with
    status 2, whatever follows. *)
Theorem parse_args_ambiguous_prefix (w : World) (name tx : string)
    (gs : list options.given_option) (rest : list string) :
  sys_argv w ≠ [] →
  name = "server" ∨ name = "client" →
  Forall (λ g, options.accepted g = true) gs →
  (parse_args (Some (name :: concat (map options.render gs)
                          ++ "--h" :: rest)) w).2
  = Raise (SystemExit 2)
  ∧ (parse_args (Some (name :: concat (map options.render gs)
                            ++ String.append "--h=" tx :: rest)) w).2
    = Raise (SystemExit 2).
Proof.
  intros Hw Hname Hgs. rewrite !(parse_args_sub_result _ _ _ Hw Hname).
  destruct (options.sub_ambiguous (parser_facts.host_default name) gs tx rest Hgs)
    as [-> ->].
  done.
Qed.

Lemma parse_args_ambiguous_prefix_witness :
  (parse_args (Some ["server"; "--h"; "-h"]) (start main_py [])).2
  = Raise (SystemExit 2)
  ∧ (parse_args (Some ["server"; "--h=1.2.3.4"; "-h"]) (start main_py [])).2
    = Raise (SystemExit 2).
Proof.
  apply (parse_args_ambiguous_prefix (start main_py []) "server" "1.2.3.4"
           [] ["-h"]); [done | by left | by constructor].
Defined.



Lemma main_exit argv w e :
  (parse_args argv w).2 = Raise e → main argv w = (parsed w argv, Raise e).
Proof.
  intros Hp. unfold main, call. unfold mbind at 1, M_bind.
  unfold parse_args, call in Hp |- *. cbn in Hp |- *. rewrite Hp.
  unfold parsed, set_trace. cbn. by rewrite <- app_assoc.
Qed.

Lemma main_run argv w args mode host port :
  (parse_args argv w).2 = Return args →
  args !! "mode" = Some (VStr mode) →
  args !! "host" = Some host → args !! "port" = Some port →
  main argv w
  = (if String.eqb mode "server" then run_server host port
     else run_client host port) (parsed w argv).
Proof.
  intros Hp Hmode Hhost Hport.
  rewrite (main_parsed argv w args Hp).
  unfold getattr, mbind, M_bind. rewrite Hmode. cbn.
  destruct (String.eqb mode "server"); rewrite Hhost; cbn; by rewrite Hport.
Qed.


(** X9: from the command line to the run functions: in a process whose
    [sys.argv] is not empty, with a sub-command and accepted options,
    [main] calls [run_server] or [run_client] with
    the host and the port [parse_args] made of them, the port as an [int].
    For [server] only the database is created and [main] stops in
    [SQLiteDatabase.initialize]: the host and the port reach no object.  For
    [client] one [FinanceClient] is created that holds them, and [main]
    stops in [FinanceClient.connect]. *)
Theorem main_passes_options (w : World) (gs : list options.given_option) :
  sys_argv w ≠ [] →
  Forall (λ g, options.accepted g = true) gs →
  let port := VInt (options.chosen_port gs) in
  (let argv := Some ("server" :: concat (map options.render gs)) in
   let host := VStr (options.chosen_host "0.0.0.0" gs) in
   main argv w
   = ({| heap := heap w ++ [{| cls := "SQLiteDatabase";
                               attrs := <["path" := VPath (DB_PATH w)]> ∅ |}];
         trace := trace w ++
                  [Call "main" [none_or_list argv];
                   Call "parse_args" [none_or_list argv];
                   Call "run_server" [host; port];
                   Call "SQLiteDatabase.__init__"
                        [VRef (length (heap w)); VPath (DB_PATH w)];
                   Call "SQLiteDatabase.initialize" [VRef (length (heap w))]];
         sys_argv := sys_argv w; __file__ := __file__ w |},
      Raise (NotImplementedError (Some "创建 users 与 transactions 两张表"))))
  ∧ (let argv := Some ("client" :: concat (map options.render gs)) in
     let host := VStr (options.chosen_host "127.0.0.1" gs) in
     main argv w
     = ({| heap := heap w ++ [{| cls := "FinanceClient";
                                 attrs := <["port" := port]>
                                            (<["host" := host]> ∅) |}];
           trace := trace w ++
                    [Call "main" [none_or_list argv];
                     Call "parse_args" [none_or_list argv];
                     Call "run_client" [host; port];
                     Call "FinanceClient.__init__"
                          [VRef (length (heap w)); host; port];
                     Call "FinanceClient.connect" [VRef (length (heap w))]];
           sys_argv := sys_argv w; __file__ := __file__ w |},
        Raise (NotImplementedError (Some "建立 TCP/HTTP 连接")))).
Proof.
  intros Hw Hgs port.
  assert (∀ name, name = "server" ∨ name = "client" →
            (parse_args (Some (name :: concat (map options.render gs))) w).2
            = Return (namespace_of name
                        (options.chosen_host (parser_facts.host_default name) gs)
                        (options.chosen_port gs))) as Hp.
  { intros name Hname. rewrite (parse_args_sub_result _ _ _ Hw Hname).
    rewrite (options.sub_options _ _ Hgs). cbn [mbind outcome_bind].
    rewrite options.store_union, namespace_of_union.
    by rewrite options.store_chosen. }
  split; intros argv host.
  - rewrite (main_run argv w _ "server" host port (Hp _ (or_introl eq_refl)));
      try reflexivity.
    cbn [String.eqb Ascii.eqb Bool.eqb]. rewrite run_server_spec.
    unfold parsed, set_trace, DB_PATH. cbn [heap trace sys_argv __file__].
    by rewrite <- app_assoc.
  - rewrite (main_run argv w _ "client" host port (Hp _ (or_intror eq_refl)));
      try reflexivity.
    cbn [String.eqb Ascii.eqb Bool.eqb]. rewrite run_client_spec.
    unfold parsed, set_trace. cbn [heap trace sys_argv __file__].
    by rewrite <- app_assoc.
Qed.

Lemma main_passes_options_witness :
  (main (Some ["client"; "--port"; "8080"; "--ho=example.org"])
     (start main_py [])).2
  = Raise (NotImplementedError (Some "建立 TCP/HTTP 连接"))
  ∧ heap (main (Some ["client"; "--port"; "8080"; "--ho=example.org"])
            (start main_py [])).1
    = [{| cls := "FinanceClient";
          attrs := {["host" := VStr "example.org"; "port" := VInt 8080]} |}].
Proof.
  pose proof (proj2 (main_passes_options (start main_py [])
                [options.Build_given_option options.Port "--port" true "8080";
                 options.Build_given_option options.Host "--ho" false
                   "example.org"]
                ltac:(done) ltac:(by repeat constructor))) as H.
  split.
  - exact (f_equal snd H).
  - exact (f_equal (λ r, heap r.1) H).
Defined.

(** X10: in a process whose [sys.argv] is not empty, [--host=--] and
    [--port=--] (in any accepted spelling) after accepted options are
    accepted, and store the empty list: argparse
    removes the separator from the arguments of the option and converts
    what is left.  The port of the namespace is then not an [int]. *)
Theorem parse_args_separator_text (w : World) (name sp : string)
    (o : options.Opt) (gs : list options.given_option) :
  sys_argv w ≠ [] →
  name = "server" ∨ name = "client" →
  Forall (λ g, options.accepted g = true) gs →
  sp ∈ options.spellings o →
  (parse_args (Some (name :: concat (map options.render gs)
                          ++ [String.append sp "=--"])) w).2
  = Return (<[options.dest_of o := VList []]>
              (namespace_of name
                 (options.chosen_host (parser_facts.host_default name) gs)
                 (options.chosen_port gs))).
Proof.
  intros Hw Hname Hgs Hsp. rewrite (parse_args_sub_result _ _ _ Hw Hname).
  rewrite (options.sub_separator _ _ _ _ Hgs Hsp). cbn [mbind outcome_bind].
  rewrite <- insert_union_l, options.store_union, namespace_of_union.
  by rewrite options.store_chosen.
Qed.

Lemma parse_args_separator_text_witness :
  (parse_args (Some ["server"; "--host=a"; "--port=--"]) (start main_py [])).2
  = Return {["mode" := VStr "server"; "host" := VStr "a"; "port" := VList []]}.
Proof.
  apply (parse_args_separator_text (start main_py []) "server" "--port"
           options.Port
           [options.Build_given_option options.Host "--host" false "a"]);
    [done | by left | by repeat constructor | by repeat constructor].
Defined.

(** X11: in a process whose [sys.argv] is not empty, a port written in
    1 to 640 ASCII decimal digits is the number the digits denote, leading
    zeros allowed.  (640 is [sys.int_info.str_digits_check_threshold]: up
    to it no setting of the interpreter's digit limit applies.) *)
Theorem parse_args_decimal_port (w : World) (name : string) (d : nat)
    (ds : list nat) :
  sys_argv w ≠ [] →
  name = "server" ∨ name = "client" →
  Forall (λ d, d < 10) (d :: ds) →
  length (d :: ds) ≤ str_digits_check_threshold →
  (parse_args (Some [name; String.append "--port=" (digits_string (d :: ds))])
     w).2
  = Return (namespace_of name (parser_facts.host_default name)
              (decimal (d :: ds))).
Proof.
  intros Hw Hname Hds Hlen. rewrite (parse_args_sub_result _ _ _ Hw Hname).
  pose proof (py_int_digits d ds Hds) as Hint.
  replace (int_max_str_digits <? length (d :: ds)) with false in Hint
    by (symmetry; apply Nat.ltb_ge;
        unfold str_digits_check_threshold in Hlen;
        unfold int_max_str_digits; lia).
  rewrite (parser_facts.sub_port_only _ _ _ Hint). cbn [mbind outcome_bind].
  by rewrite namespace_of_union.
Qed.

Lemma parse_args_decimal_port_witness :
  (parse_args (Some ["client"; "--port=0080"]) (start main_py [])).2
  = Return (namespace_of "client" "127.0.0.1" 80).
Proof.
  apply (parse_args_decimal_port (start main_py []) "client" 0 [0; 8; 0]);
    [done | by right | repeat constructor; lia
    | unfold str_digits_check_threshold; simpl; lia].
Defined.

(** X12: in a process whose [sys.argv] is not empty, after a sub-command
    a string that begins with two dashes, is more than the two dashes, is
    the beginning of none of [--help], [--host] and [--port] and holds
    neither [=] nor a space ([--verbose], [--hx], [--pa]) is an unknown
    option: among accepted options and stray arguments it makes
    [parse_args] exit with status 2. *)
Theorem parse_args_unknown_option (w : World) (name u : string)
    (gs gs' : list options.given_option) (xs : list string) :
  sys_argv w ≠ [] →
  name = "server" ∨ name = "client" →
  Forall (λ g, options.accepted g = true) gs →
  options.unknown_option u = true →
  Forall (λ g, options.accepted g = true) gs' →
  Forall options.plain xs →
  (parse_args (Some (name :: concat (map options.render gs)
                          ++ u :: concat (map options.render gs') ++ xs)) w).2
  = Raise (SystemExit 2).
Proof.
  intros Hw Hname Hgs Hu Hgs' Hxs.
  rewrite (parse_args_sub_result _ _ _ Hw Hname).
  by rewrite (options.sub_unknown _ _ _ _ _ Hgs Hu Hgs' Hxs).
Qed.

Lemma parse_args_unknown_option_witness :
  (parse_args (Some ["server"; "--hx"; "--port=1"]) (start main_py [])).2
  = Raise (SystemExit 2).
Proof.
  apply (parse_args_unknown_option (start main_py []) "server" "--hx" []
           [options.Build_given_option options.Port "--port" false "1"] []);
    [done | by left | by constructor | reflexivity | by repeat constructor
    | by constructor].
Defined.

(** ** Further properties: what the module does to the heap *)

(** The operations that run an [__init__] on a receiver of the caller's
    choice. *)
Definition is_init (op : operation) : bool :=
  match op with
  | op_User_init _ _ _ _ _ | op_Bill_init _ _ _ _ _ _ _ | op_Session_init _ _ _
  | op_SQLiteDatabase_init _ _ | op_FinanceServer_init _ _ _ _
  | op_FinanceRequestHandler_init _ _ | op_FinanceClient_init _ _ _
  | op_ClientUI_init _ _ => true
  | _ => false
  end.

(** The heap after is the heap before and at most [n] new instances. *)
Definition allocates {A} (n : nat) (m : M A) : Prop :=
  ∀ w, ∃ objs, heap (m w).1 = heap w ++ objs ∧ length objs ≤ n.

Lemma allocates_constructed {A} (m : M A) :
  (∀ w, ∃ o e r, m w = (constructed w o e, r)) → allocates 1 (void m).
Proof.
  intros Hm w. destruct (Hm w) as (o & e & r & Hw). exists [o].
  unfold void, mbind, M_bind. rewrite Hw.
  split; [by destruct r | simpl; lia].
Qed.

Lemma allocates_none {A} (m : M A) :
  (∀ w, heap (m w).1 = heap w) → allocates 1 (void m).
Proof.
  intros Hm w. exists []. rewrite app_nil_r. specialize (Hm w).
  unfold void, mbind, M_bind.
  split; [by destruct (m w) as [w' []] | simpl; lia].
Qed.

Lemma main_allocates argv : allocates 1 (void (main argv)).
Proof.
  intros w. unfold void, mbind, M_bind.
  assert (∃ objs, heap (main argv w).1 = heap w ++ objs ∧ length objs ≤ 1)
    as (objs & Hobjs & Hlen).
  { destruct ((parse_args argv w).2) as [args | e] eqn:Hp.
    - pose proof Hp as Hf. apply parse_args_Return in Hf as [_ Hf].
      apply parser_facts.parse_args_fields in Hf
        as (name & rest & host & port & _ & Hname & Hmode & Hhost & Hport & _).
      rewrite (main_run argv w args name host port Hp Hmode Hhost Hport).
      destruct (String.eqb name "server");
        [rewrite run_server_spec | rewrite run_client_spec];
        (eexists [_]; split; [reflexivity | simpl; lia]).
    - rewrite (main_exit _ _ _ Hp). exists [].
      split; [by rewrite app_nil_r | simpl; lia]. }
  exists objs. split; [| done]. rewrite <- Hobjs.
  by destruct (main argv w) as [w' []].
Qed.

Lemma run_allocates op : is_init op = false → allocates 1 (run op).
Proof.
  destruct op; cbn [is_init run]; intros Hop; try discriminate Hop;
    try (apply allocates_none; intros w; reflexivity).
  - apply allocates_constructed. intros w. rewrite User_new_spec. eauto.
  - apply allocates_constructed. intros w. rewrite Bill_new_spec. eauto.
  - apply allocates_constructed. intros w. rewrite Session_new_spec. eauto.
  - apply allocates_constructed. intros w. rewrite SQLiteDatabase_new_spec. eauto.
  - apply allocates_constructed. intros w. rewrite FinanceServer_new_spec. eauto.
  - apply allocates_constructed. intros w.
    rewrite FinanceRequestHandler_new_spec. eauto.
  - apply allocates_constructed. intros w. rewrite FinanceClient_new_spec. eauto.
  - apply allocates_constructed. intros w. rewrite ClientUI_new_spec. eauto.
  - intros w. unfold void, mbind, M_bind. rewrite run_server_spec.
    eexists [_]. split; [reflexivity | simpl; lia].
  - intros w. unfold void, mbind, M_bind. rewrite run_client_spec.
    eexists [_]. split; [reflexivity | simpl; lia].
  - apply main_allocates.
  - intros w. apply (main_allocates (Some (tail (sys_argv w))) w).
Qed.

(** X13: apart from an [__init__] run again on an instance that exists,
    no call into the module changes or removes an instance: every
    constructor, method and function, [main] and the script included,
    leaves the heap it finds and adds at most one instance to it; after a
    sequence of such calls the heap is the initial one and at most one new
    instance per call. *)
Theorem calls_only_allocate :
  (∀ op w, is_init op = false →
     ∃ objs, heap (run op w).1 = heap w ++ objs ∧ length objs ≤ 1)
  ∧ (∀ ops w, forallb (λ op, negb (is_init op)) ops = true →
       ∃ objs, heap (run_all ops w) = heap w ++ objs ∧ length objs ≤ length ops).
Proof.
  split.
  - intros op w Hop. by apply run_allocates.
  - intros ops. induction ops as [|op ops IH]; intros w Hops.
    { exists []. split; [by rewrite app_nil_r | simpl; lia]. }
    cbn [forallb] in Hops. apply andb_true_iff in Hops as [Hop Hops].
    apply negb_true_iff in Hop.
    destruct (run_allocates op Hop w) as (o1 & H1 & L1).
    destruct (IH (run op w).1 Hops) as (o2 & H2 & L2).
    exists (o1 ++ o2). unfold run_all in *. cbn [foldl]. rewrite H2, H1.
    rewrite app_assoc, length_app. split; [done | simpl; lia].
Qed.
